(** * Sneaker drop server: stock reservation, purchase and expiry

    A shallow embedding of the reservation subsystem of the server:

    - [models/Drop.js], [models/Reservation.js], [models/Purchase.js]
      (records, validators, hooks and instance methods);
    - [controllers/reservationController.js] ([reserveItem],
      [cancelReservation]);
    - [controllers/purchaseController.js] ([completePurchase]);
    - [controllers/dropController.js] ([createDrop], [updateDrop],
      [deleteDrop]);
    - [utils/cronJobs.js] ([processExpiredReservations]);
    - the reads of one row: [getReservationById], [getPurchaseById],
      [getDropStats], and [getTimeSincePurchase] of [models/Purchase.js].

    Conventions.  The MySQL store is a record of three tables, each a list of
    rows in insertion order, with their AUTO_INCREMENT counters.  A request
    handler is a function from the store to a reply, the store it leaves
    behind and the chronological list of the transaction marks and socket
    events it produced.  Timestamps are milliseconds since the epoch; every
    clock read of one handler run returns the same instant [now].  Handlers
    run one after the other; the one interleaving that is modelled, of two
    runs of [reserveItem], is written out where it is used.  Prices are
    DECIMAL(10,2) values counted in cents.  Strings are kept in UTF-8.
    The calls into Sequelize are modelled by what they do to the store: a
    save or an insert validates, runs the model's hooks and issues one
    statement.  The [description] and [image_url] of a drop, which no handler
    reads, are left out. *)

From Stdlib Require Import ZArith List Ascii String Bool Lia Sorted.
From Stdlib Require Import Floats.PrimFloat Floats.FloatOps Floats.SpecFloat.
From Stdlib Require Import Floats.FloatAxioms.
From Stdlib Require Import DecimalString.
Import ListNotations.

Local Open Scope string_scope.
Local Open Scope list_scope.
Local Open Scope Z_scope.

(** ** JavaScript numbers *)

Module JS.

(** An integer read as a JavaScript number: the double nearest to it, exact
    for every value an INTEGER column can hold. *)
Definition Number (z : Z) : float :=
  SF2Prim (binary_normalize prec emax z 0 false).

(** [Math.round]: the integer nearest to [x], ties towards +infinity; NaN,
    the infinities and the zeros are returned as they are.  A finite double
    is [m * 2^e] exactly, so the rounding is done on integers. *)
Definition round_half_up (negative : bool) (m : positive) (e : Z) : Z :=
  let num := if negative then - Z.pos m else Z.pos m in
  (2 * num + 2 ^ (- e)) / 2 ^ (- e + 1).

Definition Math_round (x : float) : float :=
  match Prim2SF x with
  | S754_finite s m e =>
      if 0 <=? e then x
      else
        let n := round_half_up s m e in
        if n =? 0
        then (if s then PrimFloat.opp PrimFloat.zero else PrimFloat.zero)
        else Number n
  | _ => x
  end.

End JS.

(** ** Models *)

Module Drop.

Record t : Type := mk
  { id : Z;
    name : string;
    price : Z;
    stock : Z;
    initial_stock : Z;
    drop_start_time : option Z }.

Definition set_name (d : t) (v : string) : t :=
  mk (id d) v (price d) (stock d) (initial_stock d) (drop_start_time d).
Definition set_price (d : t) (v : Z) : t :=
  mk (id d) (name d) v (stock d) (initial_stock d) (drop_start_time d).
Definition set_stock (d : t) (v : Z) : t :=
  mk (id d) (name d) (price d) v (initial_stock d) (drop_start_time d).
Definition set_drop_start_time (d : t) (v : option Z) : t :=
  mk (id d) (name d) (price d) (stock d) (initial_stock d) v.

(** Field validators of the model ([validate: { ... }]); each returns the
    messages of the checks that fail.

    A name is kept in UTF-8.  [len] and [isLength] count characters, a
    surrogate pair once, that is code points: in UTF-8 every byte starts one
    but a continuation byte [10xxxxxx].  [notEmpty] rejects a string made of
    white space only, which in JavaScript is U+0009 to U+000D, U+0020,
    U+00A0, U+1680, U+2000 to U+200A, U+2028, U+2029, U+202F, U+205F,
    U+3000 and U+FEFF. *)
Definition continues (c : ascii) : bool :=
  let n := nat_of_ascii c in
  ((128 <=? n) && (n <? 192))%nat.
Fixpoint chars (s : string) : Z :=
  match s with
  | EmptyString => 0
  | String c rest => (if continues c then 0 else 1) + chars rest
  end.
Definition is_space (c : ascii) : bool :=
  let n := nat_of_ascii c in
  ((9 <=? n) && (n <=? 13))%nat || (n =? 32)%nat.
Definition is_space2 (c1 c2 : ascii) : bool :=
  ((nat_of_ascii c1 =? 194) && (nat_of_ascii c2 =? 160))%nat.
Definition is_space3 (c1 c2 c3 : ascii) : bool :=
  let a := nat_of_ascii c1 in
  let b := nat_of_ascii c2 in
  let c := nat_of_ascii c3 in
  ((a =? 225) && (b =? 154) && (c =? 128)
   || (a =? 226) && (b =? 128)
      && ((128 <=? c) && (c <=? 138) || (c =? 168) || (c =? 169)
          || (c =? 175))
   || (a =? 226) && (b =? 129) && (c =? 159)
   || (a =? 227) && (b =? 128) && (c =? 128)
   || (a =? 239) && (b =? 187) && (c =? 191))%nat.
Fixpoint blank (s : string) : bool :=
  match s with
  | EmptyString => true
  | String c1 r1 =>
      if is_space c1 then blank r1
      else
        match r1 with
        | EmptyString => false
        | String c2 r2 =>
            if is_space2 c1 c2 then blank r2
            else
              match r2 with
              | EmptyString => false
              | String c3 r3 => is_space3 c1 c2 c3 && blank r3
              end
        end
  end.
Definition validate_name (d : t) : list string :=
  let n := chars (name d) in
  (if blank (name d) then ["Drop name cannot be empty"] else [])
  ++ (if (3 <=? n) && (n <=? 255) then []
      else ["Drop name must be between 3 and 255 characters"]).
Definition validate_price (d : t) : list string :=
  if 0 <=? price d then [] else ["Price must be greater than or equal to 0"].
Definition validate_stock (d : t) : list string :=
  if 0 <=? stock d then [] else ["Stock cannot be negative"].
Definition validate_initial_stock (d : t) : list string :=
  if 0 <=? initial_stock d then [] else ["Initial stock cannot be negative"].

(** A new record has every field validated. *)
Definition validate_new (d : t) : list string :=
  validate_name d ++ validate_price d ++ validate_stock d
  ++ validate_initial_stock d.

(** An existing record has only its changed fields validated. *)
Definition validate_changed (loaded d : t) : list string :=
  (if String.eqb (name d) (name loaded) then [] else validate_name d)
  ++ (if price d =? price loaded then [] else validate_price d)
  ++ (if stock d =? stock loaded then [] else validate_stock d).

(** [hooks.beforeUpdate]: [true] when the hook returns, [false] when it
    throws [Stock cannot exceed initial stock]. *)
Definition beforeUpdate (d : t) : bool := negb (initial_stock d <? stock d).

Definition isAvailable (d : t) : bool := 0 <? stock d.

Definition hasStarted (now : Z) (d : t) : bool :=
  match drop_start_time d with
  | None => true
  | Some start => start <=? now
  end.

Definition getStockPercentage (d : t) : float :=
  if initial_stock d =? 0 then PrimFloat.zero
  else
    JS.Math_round
      (PrimFloat.mul
         (PrimFloat.div (JS.Number (stock d)) (JS.Number (initial_stock d)))
         (JS.Number 100)).

End Drop.

Module Reservation.

Inductive status_t : Type := active | expired | completed.

Definition status_eqb (a b : status_t) : bool :=
  match a, b with
  | active, active | expired, expired | completed, completed => true
  | _, _ => false
  end.

Record t : Type := mk
  { id : Z;
    user_id : Z;
    drop_id : Z;
    status : status_t;
    expires_at : Z }.

Definition set_status (r : t) (s : status_t) : t :=
  mk (id r) (user_id r) (drop_id r) s (expires_at r).

(** The [isFuture] validator of [expires_at], which only looks at new
    records. *)
Definition validate_new (now : Z) (r : t) : list string :=
  if expires_at r <=? now then ["Expiration time must be in the future"]
  else [].

Definition isExpired (now : Z) (r : t) : bool :=
  (expires_at r <? now) || status_eqb (status r) expired.

Definition isActive (now : Z) (r : t) : bool :=
  status_eqb (status r) active && negb (isExpired now r).

Definition getRemainingTime (now : Z) (r : t) : Z :=
  Z.max 0 ((expires_at r - now) / 1000).

End Reservation.

Module Purchase.

Record t : Type := mk
  { id : Z;
    user_id : Z;
    drop_id : Z;
    price : Z;
    purchased_at : Z }.

Definition validate_new (p : t) : list string :=
  if 0 <=? price p then [] else ["Price must be greater than or equal to 0"].

End Purchase.

(** ** The store *)

Record DB : Type := mkDB
  { drops : list Drop.t;
    reservations : list Reservation.t;
    purchases : list Purchase.t;
    drops_seq : Z;
    reservations_seq : Z;
    purchases_seq : Z }.

Definition empty_db : DB := mkDB [] [] [] 1 1 1.

Definition with_drops (db : DB) (l : list Drop.t) : DB :=
  mkDB l (reservations db) (purchases db)
       (drops_seq db) (reservations_seq db) (purchases_seq db).
Definition with_reservations (db : DB) (l : list Reservation.t) : DB :=
  mkDB (drops db) l (purchases db)
       (drops_seq db) (reservations_seq db) (purchases_seq db).

(** Errors thrown inside a handler. *)
Inductive exn : Type :=
| SequelizeValidationError (messages : list string)
| HookError (message : string)
| AppError (message : string) (statusCode : Z)
| TypeError
| EmitError.

(** *** Queries and writes *)

Definition Drop_findByPk (k : Z) (db : DB) : option Drop.t :=
  find (fun d => Drop.id d =? k) (drops db).

Definition Reservation_findOne (where_ : Reservation.t -> bool) (db : DB)
  : option Reservation.t :=
  find where_ (reservations db).

Definition Reservation_findAll (where_ : Reservation.t -> bool) (db : DB)
  : list Reservation.t :=
  filter where_ (reservations db).

(** [Drop.create]: validation, then INSERT under the next id.  The model
    declares no [beforeCreate] hook. *)
Definition Drop_create (name : string) (price stock initial_stock : Z)
  (drop_start_time : option Z) (db : DB) : exn + Drop.t * DB :=
  let d := Drop.mk (drops_seq db) name price stock initial_stock
             drop_start_time in
  match Drop.validate_new d with
  | [] =>
      inr (d, mkDB (drops db ++ [d]) (reservations db) (purchases db)
                (drops_seq db + 1) (reservations_seq db) (purchases_seq db))
  | errs => inl (SequelizeValidationError errs)
  end.

(** [drop.save()] on a loaded row: validation of the changed fields, the
    [beforeUpdate] hook, then UPDATE ... WHERE id: the row under the
    instance's primary key takes the instance's values. *)
Definition Drop_write (d : Drop.t) (row : Drop.t) : Drop.t :=
  if Drop.id row =? Drop.id d then d else row.

Definition Drop_save (loaded d : Drop.t) (db : DB) : exn + DB :=
  match Drop.validate_changed loaded d with
  | [] =>
      if Drop.beforeUpdate d
      then inr (with_drops db (map (Drop_write d) (drops db)))
      else inl (HookError "Stock cannot exceed initial stock")
  | errs => inl (SequelizeValidationError errs)
  end.

(** [drop.destroy()]; the foreign keys of reservations and purchases are
    declared ON DELETE CASCADE. *)
Definition Drop_destroy (d : Drop.t) (db : DB) : DB :=
  mkDB (filter (fun x => negb (Drop.id x =? Drop.id d)) (drops db))
       (filter (fun r => negb (Reservation.drop_id r =? Drop.id d))
          (reservations db))
       (filter (fun p => negb (Purchase.drop_id p =? Drop.id d))
          (purchases db))
       (drops_seq db) (reservations_seq db) (purchases_seq db).

Definition Reservation_create (now : Z) (user drop expires : Z) (db : DB)
  : exn + Reservation.t * DB :=
  let r := Reservation.mk (reservations_seq db) user drop Reservation.active
             expires in
  match Reservation.validate_new now r with
  | [] =>
      inr (r, mkDB (drops db) (reservations db ++ [r]) (purchases db)
                (drops_seq db) (reservations_seq db + 1) (purchases_seq db))
  | errs => inl (SequelizeValidationError errs)
  end.

(** [reservation.status = s; reservation.save()]: UPDATE ... WHERE id.  The
    only validator of [status] checks membership in the enumeration, and the
    model has no update hook, so the save cannot throw. *)
Definition Reservation_write (r : Reservation.t) (row : Reservation.t)
  : Reservation.t :=
  if Reservation.id row =? Reservation.id r then r else row.

Definition Reservation_save_status (r : Reservation.t)
  (s : Reservation.status_t) (db : DB) : DB :=
  with_reservations db
    (map (Reservation_write (Reservation.set_status r s)) (reservations db)).

Definition Purchase_create (user drop price now : Z) (db : DB)
  : exn + Purchase.t * DB :=
  let p := Purchase.mk (purchases_seq db) user drop price now in
  match Purchase.validate_new p with
  | [] =>
      inr (p, mkDB (drops db) (reservations db) (purchases db ++ [p])
                (drops_seq db) (reservations_seq db) (purchases_seq db + 1))
  | errs => inl (SequelizeValidationError errs)
  end.

(** ** Socket events and the trace of a handler *)

(** The events, with the ids and amounts of their payloads. *)
Inductive event : Type :=
| stockUpdate (dropId newStock : Z)
| reservationCreated (reservationId dropId userId : Z)
| reservationCancelled (reservationId dropId : Z)
| reservationExpired (dropId stockReturned : Z)
| purchaseCompleted (dropId userId purchaseId : Z)
| newDrop (dropId : Z)
| dropUpdated (dropId : Z)
| dropDeleted (dropId : Z).

(** What a handler does in the open, in order: the marks of its
    transaction ([sequelize.transaction()], [commit()], [rollback()]) and its
    [io.emit] calls. *)
Inductive effect : Type :=
| TxBegin
| TxCommit
| TxRollback
| Emit (e : event).

(** The Socket.IO server registered on the app, when there is one
    ([if (io)]); it tells of each event whether [io.emit] returns ([true]) or
    throws ([false]). *)
Definition socket : Type := option (event -> bool).

(** A run of consecutive [io.emit] calls under one [if (io)]: the calls made,
    and whether all of them returned. *)
Fixpoint emit_all (accepts : event -> bool) (es : list event)
  : list effect * bool :=
  match es with
  | [] => ([], true)
  | e :: rest =>
      if accepts e
      then let '(log, ok) := emit_all accepts rest in (Emit e :: log, ok)
      else ([Emit e], false)
  end.

Definition io_emit (io : socket) (es : list event) : list effect * bool :=
  match io with
  | None => ([], true)
  | Some accepts => emit_all accepts es
  end.

(** What a handler answers: [res.status(code).json({ success: true, data })],
    [res.status(code).json({ success: false, message })], or [next(error)]. *)
Inductive reply (A : Type) : Type :=
| Success (code : Z) (data : A)
| Failure (code : Z) (message : string)
| Next (error : exn).
Arguments Success {A} code data.
Arguments Failure {A} code message.
Arguments Next {A} error.

Definition run (A : Type) : Type := (reply A * DB * list effect)%type.

(** A transaction that ends in its [rollback()] leaves the store as it
    found it. *)
Definition rolled_back {A : Type} (r : reply A) (db : DB) : run A :=
  (r, db, [TxBegin; TxRollback]).

(** ** Configuration *)

(** [parseInt(process.env.RESERVATION_DURATION) || 60000]; the argument is the
    value of [parseInt], [None] standing for NaN. *)
Definition reservationDuration (parsed : option Z) : Z :=
  match parsed with
  | Some n => if n =? 0 then 60000 else n
  | None => 60000
  end.

(** ** controllers/reservationController.js *)

Record reserved : Type := mkReserved
  { reservation_id : Z;
    reservation_drop_id : Z;
    reservation_status : Reservation.status_t;
    reservation_expires_at : Z;
    remaining_seconds : Z;
    reserved_drop_id : Z;
    reserved_drop_stock : Z }.

Definition duplicate_of (now userId dropId : Z) (r : Reservation.t) : bool :=
  (Reservation.user_id r =? userId)
  && (Reservation.drop_id r =? dropId)
  && Reservation.status_eqb (Reservation.status r) Reservation.active
  && (now <? Reservation.expires_at r).

Definition reserveItem (env : option Z) (io : socket) (now userId dropId : Z)
  (db : DB) : run reserved :=
  match Reservation_findOne (duplicate_of now userId dropId) db with
  | Some _ =>
      rolled_back
        (Failure 400 "You already have an active reservation for this drop") db
  | None =>
      match Drop_findByPk dropId db with
      | None => rolled_back (Failure 404 "Drop not found") db
      | Some drop =>
          if negb (Drop.hasStarted now drop)
          then rolled_back (Failure 400 "Drop has not started yet") db
          else if Drop.stock drop <=? 0
          then rolled_back (Failure 400 "Out of stock") db
          else
            let drop' := Drop.set_stock drop (Drop.stock drop - 1) in
            match Drop_save drop drop' db with
            | inl error => rolled_back (Next error) db
            | inr db1 =>
                let expiresAt := now + reservationDuration env in
                match Reservation_create now userId dropId expiresAt db1 with
                | inl error => rolled_back (Next error) db
                | inr (reservation, db2) =>
                    let '(emitted, ok) :=
                      io_emit io
                        [stockUpdate (Drop.id drop') (Drop.stock drop');
                         reservationCreated (Reservation.id reservation)
                           (Drop.id drop') userId] in
                    (if ok
                     then Success 201
                            (mkReserved (Reservation.id reservation)
                               (Reservation.drop_id reservation)
                               (Reservation.status reservation)
                               (Reservation.expires_at reservation)
                               (Reservation.getRemainingTime now reservation)
                               (Drop.id drop') (Drop.stock drop'))
                     else Next EmitError,
                     db2, [TxBegin; TxCommit] ++ emitted)
                end
            end
      end
  end.

Definition own_active (id userId : Z) (r : Reservation.t) : bool :=
  (Reservation.id r =? id)
  && (Reservation.user_id r =? userId)
  && Reservation.status_eqb (Reservation.status r) Reservation.active.

Definition cancelReservation (io : socket) (userId id : Z) (db : DB)
  : run unit :=
  match Reservation_findOne (own_active id userId) db with
  | None => rolled_back (Failure 404 "Active reservation not found") db
  | Some reservation =>
      let db1 := Reservation_save_status reservation Reservation.expired db in
      match Drop_findByPk (Reservation.drop_id reservation) db1 with
      | None => (Success 200 tt, db1, [TxBegin; TxCommit])
      | Some drop =>
          let drop' := Drop.set_stock drop (Drop.stock drop + 1) in
          match Drop_save drop drop' db1 with
          | inl error => rolled_back (Next error) db
          | inr db2 =>
              let '(emitted, ok) :=
                io_emit io
                  [stockUpdate (Drop.id drop') (Drop.stock drop');
                   reservationCancelled (Reservation.id reservation)
                     (Drop.id drop')] in
              (if ok then Success 200 tt else Next EmitError,
               db2, [TxBegin; TxCommit] ++ emitted)
          end
      end
  end.

(** ** controllers/purchaseController.js *)

Record purchased : Type := mkPurchased
  { purchase_id : Z;
    purchase_drop_id : Z;
    purchase_price : Z;
    purchase_purchased_at : Z }.

Definition completePurchase (io : socket) (now userId reservationId : Z)
  (db : DB) : run purchased :=
  match Reservation_findOne (own_active reservationId userId) db with
  | None => rolled_back (Failure 404 "Active reservation not found") db
  | Some reservation =>
      if Reservation.isExpired now reservation
      then rolled_back (Failure 400 "Reservation has expired") db
      else
        let db1 :=
          Reservation_save_status reservation Reservation.completed db in
        (* [include: Drop as 'drop']: the joined row, null when absent *)
        match Drop_findByPk (Reservation.drop_id reservation) db with
        | None => rolled_back (Next TypeError) db
        | Some drop =>
            match Purchase_create userId (Reservation.drop_id reservation)
                    (Drop.price drop) now db1 with
            | inl error => rolled_back (Next error) db
            | inr (purchase, db2) =>
                let '(emitted, ok) :=
                  io_emit io
                    [purchaseCompleted (Reservation.drop_id reservation)
                       userId (Purchase.id purchase)] in
                (if ok
                 then Success 201
                        (mkPurchased (Purchase.id purchase)
                           (Purchase.drop_id purchase) (Purchase.price purchase)
                           (Purchase.purchased_at purchase))
                 else Next EmitError,
                 db2, [TxBegin; TxCommit] ++ emitted)
            end
        end
  end.

(** ** controllers/dropController.js *)

Definition createDrop (io : socket) (name : string)
  (price stock initial_stock : Z) (drop_start_time : option Z) (db : DB)
  : run Drop.t :=
  match Drop_create name price stock initial_stock drop_start_time db with
  | inl error => (Next error, db, [])
  | inr (drop, db1) =>
      let '(emitted, ok) := io_emit io [newDrop (Drop.id drop)] in
      (if ok then Success 201 drop else Next EmitError, db1, emitted)
  end.

(** The request body of an update: a field is [None] when the body leaves it
    [undefined].  [initial_stock] is not among the [allowedFields]; the fields
    are assigned in the order of that list. *)
Record updates_t : Type := mkUpdates
  { upd_name : option string;
    upd_price : option Z;
    upd_stock : option Z;
    upd_drop_start_time : option Z }.

Definition assign {A : Type} (set : Drop.t -> A -> Drop.t) (v : option A)
  (d : Drop.t) : Drop.t :=
  match v with
  | Some x => set d x
  | None => d
  end.

Definition apply_updates (updates : updates_t) (drop : Drop.t) : Drop.t :=
  assign (fun d v => Drop.set_drop_start_time d (Some v))
    (upd_drop_start_time updates)
    (assign Drop.set_stock (upd_stock updates)
       (assign Drop.set_price (upd_price updates)
          (assign Drop.set_name (upd_name updates) drop))).

Definition updateDrop (io : socket) (id : Z) (updates : updates_t) (db : DB)
  : run Drop.t :=
  match Drop_findByPk id db with
  | None => (Next (AppError "Drop not found" 404), db, [])
  | Some drop =>
      let drop' := apply_updates updates drop in
      match Drop_save drop drop' db with
      | inl error => (Next error, db, [])
      | inr db1 =>
          let '(emitted, ok) := io_emit io [dropUpdated (Drop.id drop')] in
          (if ok then Success 200 drop' else Next EmitError, db1, emitted)
      end
  end.

Definition deleteDrop (io : socket) (id : Z) (db : DB) : run unit :=
  match Drop_findByPk id db with
  | None => (Next (AppError "Drop not found" 404), db, [])
  | Some drop =>
      let db1 := Drop_destroy drop db in
      let '(emitted, ok) := io_emit io [dropDeleted id] in
      (if ok then Success 200 tt else Next EmitError, db1, emitted)
  end.

(** ** middleware/validators.js *)

(** The chain in front of [createDrop], on the body as its sanitizers leave
    it (the name trimmed).  The optional [description] and [image_url], with
    their validators, are not part of the model. *)
Definition validateCreateDrop (name : string) (price stock initial_stock : Z)
  : list string :=
  let n := Drop.chars name in
  (if String.eqb name "" then ["Drop name is required"] else [])
  ++ (if (3 <=? n) && (n <=? 255) then []
      else ["Name must be 3-255 characters"])
  ++ (if 0 <=? price then [] else ["Price must be a positive number"])
  ++ (if 0 <=? stock then [] else ["Stock must be a non-negative integer"])
  ++ (if 0 <=? initial_stock then []
      else ["Initial stock must be a non-negative integer"]).

(** ** utils/cronJobs.js *)

Inductive tick : Type :=
| Committed
| RolledBack (error : exn).

Definition due (now : Z) (r : Reservation.t) : bool :=
  Reservation.status_eqb (Reservation.status r) Reservation.active
  && (Reservation.expires_at r <? now).

(** [dropStockUpdates], an object keyed by drop id.  [Object.entries]
    enumerates integer keys in ascending order, which is the order the
    entries are kept in here.
    [if (!o[k]) o[k] = 0; o[k] += 1]. *)
Fixpoint bump (k : Z) (o : list (Z * Z)) : list (Z * Z) :=
  match o with
  | [] => [(k, 1)]
  | (k', n) :: rest =>
      if k =? k' then (k', n + 1) :: rest
      else if k <? k' then (k, 1) :: (k', n) :: rest
      else (k', n) :: bump k rest
  end.

(** The first loop: every selected reservation is saved as expired and
    counted under its drop. *)
Fixpoint mark_expired (expiredReservations : list Reservation.t) (db : DB)
  (dropStockUpdates : list (Z * Z)) : DB * list (Z * Z) :=
  match expiredReservations with
  | [] => (db, dropStockUpdates)
  | reservation :: rest =>
      mark_expired rest
        (Reservation_save_status reservation Reservation.expired db)
        (bump (Reservation.drop_id reservation) dropStockUpdates)
  end.

(** The second loop: one locked read, one save and one pair of events per
    entry; the first throw ends it. *)
Fixpoint return_stock (io : socket) (entries : list (Z * Z)) (db : DB)
  : (exn + DB) * list effect :=
  match entries with
  | [] => (inr db, [])
  | (dropId, stockToReturn) :: rest =>
      match Drop_findByPk dropId db with
      | None => return_stock io rest db
      | Some drop =>
          let drop' := Drop.set_stock drop (Drop.stock drop + stockToReturn) in
          match Drop_save drop drop' db with
          | inl error => (inl error, [])
          | inr db1 =>
              let '(emitted, ok) :=
                io_emit io
                  [stockUpdate (Drop.id drop') (Drop.stock drop');
                   reservationExpired (Drop.id drop') stockToReturn] in
              if ok
              then let '(r, log) := return_stock io rest db1 in
                   (r, emitted ++ log)
              else (inl EmitError, emitted)
          end
      end
  end.

Definition processExpiredReservations (io : socket) (now : Z) (db : DB)
  : tick * DB * list effect :=
  match Reservation_findAll (due now) db with
  | [] => (Committed, db, [TxBegin; TxCommit])
  | expiredReservations =>
      let '(db1, dropStockUpdates) :=
        mark_expired expiredReservations db [] in
      match return_stock io dropStockUpdates db1 with
      | (inr db2, log) => (Committed, db2, [TxBegin] ++ log ++ [TxCommit])
      | (inl error, log) =>
          (RolledBack error, db, [TxBegin] ++ log ++ [TxRollback])
      end
  end.

(** ** The server as a transition system *)

Inductive request : Type :=
| POST_drops (name : string) (price stock initial_stock : Z)
    (drop_start_time : option Z)
| PUT_drops (id : Z) (updates : updates_t)
| DELETE_drops (id : Z)
| POST_reservations (userId dropId : Z)
| DELETE_reservations (userId id : Z)
| POST_purchases (userId reservationId : Z)
| cron_tick.

Definition store_of {A : Type} (r : run A) : DB := snd (fst r).

(** The store after one request (or one tick of the cron job) served at
    [now]. *)
Definition serve (env : option Z) (io : socket) (now : Z) (rq : request)
  (db : DB) : DB :=
  match rq with
  | POST_drops name price stock initial_stock start =>
      match validateCreateDrop name price stock initial_stock with
      | [] => store_of (createDrop io name price stock initial_stock start db)
      | _ => db
      end
  | PUT_drops id updates => store_of (updateDrop io id updates db)
  | DELETE_drops id => store_of (deleteDrop io id db)
  | POST_reservations userId dropId =>
      store_of (reserveItem env io now userId dropId db)
  | DELETE_reservations userId id =>
      store_of (cancelReservation io userId id db)
  | POST_purchases userId reservationId =>
      store_of (completePurchase io now userId reservationId db)
  | cron_tick => snd (fst (processExpiredReservations io now db))
  end.

(** [reachable t db]: the store can be [db] at time [t], starting from the
    empty store, the clock never running backwards. *)
Inductive reachable : Z -> DB -> Prop :=
| reachable_empty : forall t, reachable t empty_db
| reachable_serve : forall t t' db env io rq,
    reachable t db -> t <= t' -> reachable t' (serve env io t' rq db).

(** ** Vocabulary of the statements *)

(** The ceiling on stock: [0 <= stock <= initial_stock] for every drop. *)
Definition within_ceiling (db : DB) : Prop :=
  forall d, In d (drops db) ->
            0 <= Drop.stock d /\ Drop.stock d <= Drop.initial_stock d.

(** At most one active reservation with [expires_at] after [t] per user and
    drop. *)
Definition single_active (t : Z) (db : DB) : Prop :=
  forall userId dropId,
    (List.length (filter (duplicate_of t userId dropId) (reservations db))
     <= 1)%nat.

(** A write to the reservations that creates no active row: each row is
    left as it is or ends in another status than [active]. *)
Definition settles (f : Reservation.t -> Reservation.t) : Prop :=
  forall x, f x = x \/ Reservation.status (f x) <> Reservation.active.

(** Primary keys: the ids of a table are distinct and below its
    AUTO_INCREMENT counter. *)
Definition keys_below (seq : Z) (ids : list Z) : Prop :=
  NoDup ids /\ Forall (fun k => k < seq) ids.

Definition keyed (db : DB) : Prop :=
  keys_below (drops_seq db) (map Drop.id (drops db))
  /\ keys_below (reservations_seq db)
       (map Reservation.id (reservations db)).

(** A socket on which no [io.emit] throws, or no socket at all. *)
Definition reliable (io : socket) : Prop :=
  match io with
  | None => True
  | Some accepts => forall e, accepts e = true
  end.

Definition is_emit (x : effect) : bool :=
  match x with
  | Emit _ => true
  | _ => false
  end.

(** Where a trace stands with respect to its transaction, and the check
    that every socket event of a trace comes after the commit of the
    transaction the trace opened. *)
Inductive phase : Type := tx_none | tx_open | tx_committed | tx_aborted.

Fixpoint emits_after_commit (p : phase) (log : list effect) : bool :=
  match log with
  | [] => true
  | TxBegin :: rest => emits_after_commit tx_open rest
  | TxCommit :: rest => emits_after_commit tx_committed rest
  | TxRollback :: rest => emits_after_commit tx_aborted rest
  | Emit _ :: rest =>
      match p with
      | tx_committed => emits_after_commit p rest
      | _ => false
      end
  end.

(** What a tick of the cron job at [now] is meant to do to a reservation
    and to a drop: expire it when it is due, and give the drop back one unit
    for each of its due reservations. *)
Definition expire_due (now : Z) (r : Reservation.t) : Reservation.t :=
  if due now r then Reservation.set_status r Reservation.expired else r.

Definition returned (now : Z) (db : DB) (dropId : Z) : Z :=
  Z.of_nat
    (List.length
       (filter (fun r => due now r && (Reservation.drop_id r =? dropId))
          (reservations db))).

Definition credit (now : Z) (db : DB) (d : Drop.t) : Drop.t :=
  Drop.set_stock d (Drop.stock d + returned now db (Drop.id d)).

(** The entries the first loop of the tick leaves in [dropStockUpdates], the
    amount recorded under a key, and the order the entries are kept in. *)
Definition dropStockUpdates_at (now : Z) (db : DB) : list (Z * Z) :=
  snd (mark_expired (Reservation_findAll (due now) db) db []).

Fixpoint tally (k : Z) (o : list (Z * Z)) : Z :=
  match o with
  | [] => 0
  | (j, n) :: rest => (if j =? k then n else 0) + tally k rest
  end.

Definition key_lt (a b : Z * Z) : Prop := fst a < fst b.

(** A row after the saves of the first loop. *)
Definition mark_row (l : list Reservation.t) (row : Reservation.t)
  : Reservation.t :=
  fold_left
    (fun x r =>
       Reservation_write (Reservation.set_status r Reservation.expired) x)
    l row.

(** ** Sample runs *)

(** A socket on which every [io.emit] returns, and one on which every
    [io.emit] throws. *)
Definition listening : socket := Some (fun _ => true).
Definition broken : socket := Some (fun _ => false).

(** A script of requests with the times they are served at, replayed on a
    listening socket with no duration configured; a script is chronological
    when its times never decrease. *)
Definition replay (script : list (Z * request)) (db : DB) : DB :=
  fold_left (fun db step => serve None listening (fst step) (snd step) db)
    script db.

Fixpoint chronological (t : Z) (script : list (Z * request)) : bool :=
  match script with
  | [] => true
  | (t', _) :: rest => (t <=? t') && chronological t' rest
  end.

Fixpoint ends_at (t : Z) (script : list (Z * request)) : Z :=
  match script with
  | [] => t
  | (t', _) :: rest => ends_at t' rest
  end.

(** Three drops are created; users 7 and 8 reserve drop 3, 7 cancels and 8
    buys; then both reserve drop 1, which sells out. *)
Definition opening : list (Z * request) :=
  [(0, POST_drops "Air Max 90" 19999 2 2 None);
   (0, POST_drops "Yeezy 350" 30000 3 3 (Some 500000));
   (0, POST_drops "Dunk Low" 12000 5 5 None);
   (10, POST_reservations 7 3);
   (20, POST_reservations 8 3);
   (30, DELETE_reservations 7 1);
   (40, POST_purchases 8 2);
   (50, POST_reservations 7 1);
   (60, POST_reservations 8 1)].

Definition shop : DB := Eval vm_compute in replay opening empty_db.

(** Two drops; user 7 reserves drop 1, user 8 reserves drop 2, which sells
    out and is then restocked to its initial stock by an update. *)
Definition restocking : list (Z * request) :=
  [(0, POST_drops "Air Max 90" 19999 2 2 None);
   (0, POST_drops "Yeezy 350" 30000 1 1 None);
   (10, POST_reservations 7 1);
   (20, POST_reservations 8 2);
   (30, PUT_drops 2 (mkUpdates None None (Some 1) None))].

Definition restocked : DB := Eval vm_compute in replay restocking empty_db.

(** The store after one drop is created with more stock than its initial
    stock. *)
Definition overfull : DB :=
  serve None listening 0 (POST_drops "Air Max 90" 19999 10 5 None) empty_db.

(** ** [reserveItem], two runs at once *)

(** The handler looks for a reservation the user already holds with a plain
    read (lines 25-35) and only then reads the row of the drop under a lock
    (lines 46-50); its transaction is READ COMMITTED, and nothing looks at
    the reservations again.  [reserveItem_locked] is the handler from the
    locking read on. *)
Definition reserveItem_locked (env : option Z) (io : socket)
  (now userId dropId : Z) (db : DB) : run reserved :=
  match Drop_findByPk dropId db with
  | None => rolled_back (Failure 404 "Drop not found") db
  | Some drop =>
      if negb (Drop.hasStarted now drop)
      then rolled_back (Failure 400 "Drop has not started yet") db
      else if Drop.stock drop <=? 0
      then rolled_back (Failure 400 "Out of stock") db
      else
        let drop' := Drop.set_stock drop (Drop.stock drop - 1) in
        match Drop_save drop drop' db with
        | inl error => rolled_back (Next error) db
        | inr db1 =>
            let expiresAt := now + reservationDuration env in
            match Reservation_create now userId dropId expiresAt db1 with
            | inl error => rolled_back (Next error) db
            | inr (reservation, db2) =>
                let '(emitted, ok) :=
                  io_emit io
                    [stockUpdate (Drop.id drop') (Drop.stock drop');
                     reservationCreated (Reservation.id reservation)
                       (Drop.id drop') userId] in
                (if ok
                 then Success 201
                        (mkReserved (Reservation.id reservation)
                           (Reservation.drop_id reservation)
                           (Reservation.status reservation)
                           (Reservation.expires_at reservation)
                           (Reservation.getRemainingTime now reservation)
                           (Drop.id drop') (Drop.stock drop'))
                 else Next EmitError,
                 db2, [TxBegin; TxCommit] ++ emitted)
            end
        end
  end.

(** Two requests for the same drop that arrive together.  Each run makes
    its read for a duplicate on [db], the committed store, before the other
    has written anything; the runs then take the lock of the drop row one
    after the other, the second going on from what the first committed. *)
Definition reserveItem_twice (env : option Z) (io : socket)
  (now1 now2 user1 user2 dropId : Z) (db : DB)
  : run reserved * run reserved :=
  let existing1 :=
    Reservation_findOne (duplicate_of now1 user1 dropId) db in
  let existing2 :=
    Reservation_findOne (duplicate_of now2 user2 dropId) db in
  let first :=
    match existing1 with
    | Some _ =>
        rolled_back
          (Failure 400 "You already have an active reservation for this drop")
          db
    | None => reserveItem_locked env io now1 user1 dropId db
    end in
  let second :=
    match existing2 with
    | Some _ =>
        rolled_back
          (Failure 400 "You already have an active reservation for this drop")
          (store_of first)
    | None => reserveItem_locked env io now2 user2 dropId (store_of first)
    end in
  (first, second).

(** ** The stock percentage against exact arithmetic *)

(** The percentage [100 * stock / initial_stock] rounded to the nearest
    integer in exact arithmetic, a half going up. *)
Definition nearest_percent (stock initial_stock : Z) : Z :=
  (200 * stock + initial_stock) / (2 * initial_stock).

(** The exact percentage lies half way between two integers. *)
Definition half_way (stock initial_stock : Z) : bool :=
  (200 * stock + initial_stock) mod (2 * initial_stock) =? 0.

(** [getStockPercentage] returns the nearest integer; where the exact
    percentage is half way, the doubles may come out just below the half, and
    the integer below is returned. *)
Definition rounds_to_nearest (stock initial_stock : Z) : bool :=
  let x :=
    Drop.getStockPercentage (Drop.mk 0 "" 0 stock initial_stock None) in
  let n := nearest_percent stock initial_stock in
  PrimFloat.Leibniz.eqb x (JS.Number n)
  || half_way stock initial_stock
     && PrimFloat.Leibniz.eqb x (JS.Number (n - 1)).

(** The integers from 0 to [n], and the check above for every stock from 0
    to the initial stock, for every initial stock from 1 to [bound]. *)
Definition up_to (n : nat) : list Z := map Z.of_nat (seq 0 (S n)).

Definition all_round_to_nearest (bound : nat) : bool :=
  forallb
    (fun initial_stock =>
       (initial_stock =? 0)
       || forallb (fun stock => rounds_to_nearest stock initial_stock)
            (up_to (Z.to_nat initial_stock)))
    (up_to bound).

(** * The rest of the models and controllers *)

(** ** models/Purchase.js, [getTimeSincePurchase] *)




(** ** controllers/reservationController.js, [getReservationById] *)

(** [...reservation.toJSON()] with the joined drop and the three computed
    fields. *)
Record reservation_view : Type := mkReservationView
  { view_reservation : Reservation.t;
    view_drop : option Drop.t;
    view_is_active : bool;
    view_is_expired : bool;
    view_remaining_seconds : Z }.

Definition getReservationById (now userId id : Z) (db : DB)
  : reply reservation_view :=
  match
    Reservation_findOne
      (fun r => (Reservation.id r =? id) && (Reservation.user_id r =? userId))
      db
  with
  | None => Next (AppError "Reservation not found" 404)
  | Some reservation =>
      Success 200
        (mkReservationView reservation
           (Drop_findByPk (Reservation.drop_id reservation) db)
           (Reservation.isActive now reservation)
           (Reservation.isExpired now reservation)
           (Reservation.getRemainingTime now reservation))
  end.

(** ** controllers/purchaseController.js, [getPurchaseById] *)

Definition getPurchaseById (userId id : Z) (db : DB)
  : reply (Purchase.t * option Drop.t) :=
  match
    find (fun p => (Purchase.id p =? id) && (Purchase.user_id p =? userId))
      (purchases db)
  with
  | None => Next (AppError "Purchase not found" 404)
  | Some purchase =>
      Success 200 (purchase, Drop_findByPk (Purchase.drop_id purchase) db)
  end.

(** ** controllers/dropController.js, [getDropStats] *)

Record stats_t : Type := mkStats
  { stats_id : Z;
    stats_name : string;
    total_stock : Z;
    remaining_stock : Z;
    sold : Z;
    total_purchases : Z;
    stock_percentage : float;
    is_available : bool;
    has_started : bool }.

(** [Purchase.count({ where: { drop_id } })]. *)
Definition Purchase_count (dropId : Z) (db : DB) : Z :=
  Z.of_nat
    (List.length
       (filter (fun p => Purchase.drop_id p =? dropId) (purchases db))).

Definition getDropStats (now id : Z) (db : DB) : reply stats_t :=
  match Drop_findByPk id db with
  | None => Next (AppError "Drop not found" 404)
  | Some drop =>
      Success 200
        (mkStats (Drop.id drop) (Drop.name drop) (Drop.initial_stock drop)
           (Drop.stock drop) (Drop.initial_stock drop - Drop.stock drop)
           (Purchase_count id db) (Drop.getStockPercentage drop)
           (Drop.isAvailable drop) (Drop.hasStarted now drop))
  end.

(** * More vocabulary *)

(** The number of rows of a table that pass a test. *)
Definition count {A : Type} (p : A -> bool) (l : list A) : Z :=
  Z.of_nat (List.length (filter p l)).

(** What a request that changes the store does to it, read off the handlers:
    [change env now db rq db'] when serving [rq] at [now] on [db], with
    [env] the configured duration, can leave [db'] other than by leaving
    [db] as it is. *)
Inductive change (env : option Z) (now : Z) (db : DB)
  : request -> DB -> Prop :=
| change_create : forall name price stock initial start,
    Drop.validate_new
      (Drop.mk (drops_seq db) name price stock initial start) = [] ->
    change env now db (POST_drops name price stock initial start)
      (mkDB
         (drops db ++ [Drop.mk (drops_seq db) name price stock initial start])
         (reservations db) (purchases db)
         (drops_seq db + 1) (reservations_seq db) (purchases_seq db))
| change_update : forall id updates drop,
    Drop_findByPk id db = Some drop ->
    Drop.validate_changed drop (apply_updates updates drop) = [] ->
    Drop.beforeUpdate (apply_updates updates drop) = true ->
    change env now db (PUT_drops id updates)
      (with_drops db
         (map (Drop_write (apply_updates updates drop)) (drops db)))
| change_delete : forall id drop,
    Drop_findByPk id db = Some drop ->
    change env now db (DELETE_drops id) (Drop_destroy drop db)
| change_reserve : forall userId dropId drop,
    Reservation_findOne (duplicate_of now userId dropId) db = None ->
    Drop_findByPk dropId db = Some drop ->
    Drop.hasStarted now drop = true ->
    0 < Drop.stock drop ->
    Drop.stock drop - 1 <= Drop.initial_stock drop ->
    0 < reservationDuration env ->
    change env now db (POST_reservations userId dropId)
      (mkDB
         (map (Drop_write (Drop.set_stock drop (Drop.stock drop - 1)))
            (drops db))
         (reservations db
          ++ [Reservation.mk (reservations_seq db) userId dropId
                Reservation.active (now + reservationDuration env)])
         (purchases db)
         (drops_seq db) (reservations_seq db + 1) (purchases_seq db))
| change_cancel : forall userId id h drop,
    Reservation_findOne (own_active id userId) db = Some h ->
    Drop_findByPk (Reservation.drop_id h) db = Some drop ->
    Drop.stock drop + 1 <= Drop.initial_stock drop ->
    change env now db (DELETE_reservations userId id)
      (mkDB
         (map (Drop_write (Drop.set_stock drop (Drop.stock drop + 1)))
            (drops db))
         (map (Reservation_write
                 (Reservation.set_status h Reservation.expired))
            (reservations db))
         (purchases db)
         (drops_seq db) (reservations_seq db) (purchases_seq db))
| change_cancel_orphan : forall userId id h,
    Reservation_findOne (own_active id userId) db = Some h ->
    Drop_findByPk (Reservation.drop_id h) db = None ->
    change env now db (DELETE_reservations userId id)
      (Reservation_save_status h Reservation.expired db)
| change_purchase : forall userId id h drop,
    Reservation_findOne (own_active id userId) db = Some h ->
    Reservation.isExpired now h = false ->
    Drop_findByPk (Reservation.drop_id h) db = Some drop ->
    0 <= Drop.price drop ->
    change env now db (POST_purchases userId id)
      (mkDB (drops db)
         (map (Reservation_write
                 (Reservation.set_status h Reservation.completed))
            (reservations db))
         (purchases db
          ++ [Purchase.mk (purchases_seq db) userId (Reservation.drop_id h)
                (Drop.price drop) now])
         (drops_seq db) (reservations_seq db) (purchases_seq db + 1))
| change_tick : forall io db2 log,
    return_stock io (dropStockUpdates_at now db)
      (fst (mark_expired (Reservation_findAll (due now) db) db []))
    = (inr db2, log) ->
    change env now db cron_tick db2.

(** Every reservation and every purchase is of a stored drop. *)
Definition referenced (db : DB) : Prop :=
  (forall r, In r (reservations db) ->
             In (Reservation.drop_id r) (map Drop.id (drops db)))
  /\ (forall p, In p (purchases db) ->
                In (Purchase.drop_id p) (map Drop.id (drops db))).

(** Every stored row passes the validators of its model. *)
Definition validated (db : DB) : Prop :=
  (forall d, In d (drops db) -> Drop.validate_new d = [])
  /\ (forall p, In p (purchases db) -> Purchase.validate_new p = []).

(** The reservations of a drop that hold one of its units: the active and
    the completed ones. *)
Definition holds_unit (dropId : Z) (r : Reservation.t) : bool :=
  (Reservation.drop_id r =? dropId)
  && negb (Reservation.status_eqb (Reservation.status r) Reservation.expired).

(** No unit is lost: stock and units held add up to the initial stock. *)
Definition conserved (db : DB) : Prop :=
  forall d, In d (drops db) ->
            Drop.stock d + count (holds_unit (Drop.id d)) (reservations db)
            = Drop.initial_stock d.

(** Requests that take the stock of a drop out of the hands of the
    reservation handlers are set apart: a creation with [stock] other than
    [initial_stock], and an update that assigns [stock]. *)
Definition leaves_stock (rq : request) : Prop :=
  match rq with
  | POST_drops _ _ stock initial_stock _ => stock = initial_stock
  | PUT_drops _ updates => upd_stock updates = None
  | _ => True
  end.

(** The stores reached by requests that all satisfy [ok]. *)
Inductive reachable_by (ok : request -> Prop) : Z -> DB -> Prop :=
| reachable_by_empty : forall t, reachable_by ok t empty_db
| reachable_by_serve : forall t t' db env io rq,
    reachable_by ok t db -> t <= t' -> ok rq ->
    reachable_by ok t' (serve env io t' rq db).

(** The purchases, and the completed reservations, whose user and drop pass
    a test. *)
Definition purchase_among (q : Z -> Z -> bool) (p : Purchase.t) : bool :=
  q (Purchase.user_id p) (Purchase.drop_id p).

Definition completed_among (q : Z -> Z -> bool) (r : Reservation.t) : bool :=
  q (Reservation.user_id r) (Reservation.drop_id r)
  && Reservation.status_eqb (Reservation.status r) Reservation.completed.

(** The reservations of a drop that are still [active], swept or not. *)
Definition active_hold (dropId : Z) (r : Reservation.t) : bool :=
  (Reservation.drop_id r =? dropId)
  && Reservation.status_eqb (Reservation.status r) Reservation.active.

(** Requests that create no drop with more stock than its initial
    stock. *)
Definition creates_within_ceiling (rq : request) : Prop :=
  match rq with
  | POST_drops _ _ stock initial_stock _ => stock <= initial_stock
  | _ => True
  end.

(** What the second loop of the cron job emits for one entry of
    [dropStockUpdates] on a socket: nothing when the drop is not found. *)
Definition announce (db : DB) (entry : Z * Z) : list effect :=
  match Drop_findByPk (fst entry) db with
  | Some drop =>
      [Emit (stockUpdate (Drop.id drop) (Drop.stock drop + snd entry));
       Emit (reservationExpired (Drop.id drop) (snd entry))]
  | None => []
  end.

(** * Properties *)

(** ** Lists *)

Lemma NoDup_key_inj {A : Type} (key : A -> Z) (l : list A) (a b : A) :
  NoDup (map key l) -> In a l -> In b l -> key a = key b -> a = b.
Proof.
  induction l as [|x l IH]; simpl; intros Hnd Ha Hb Hk; [contradiction|].
  inversion Hnd as [|? ? Hx Hl]; subst.
  destruct Ha as [<-|Ha], Hb as [<-|Hb]; auto.
  - exfalso. apply Hx. rewrite Hk. now apply in_map.
  - exfalso. apply Hx. rewrite <- Hk. now apply in_map.
Qed.

(** A query that fixes the primary key can only return the row stored under
    that key. *)
Lemma find_by_key {A : Type} (key : A -> Z) (p : A -> bool) (l : list A)
  (h : A) :
  NoDup (map key l) -> In h l ->
  (forall x, p x = true -> key x = key h) ->
  find p l = if p h then Some h else None.
Proof.
  intros Hnd Hin Hp.
  destruct (find p l) as [x|] eqn:Hf.
  - apply find_some in Hf as [Hx Hpx].
    assert (x = h) by (eapply NoDup_key_inj; eauto). subst.
    now rewrite Hpx.
  - destruct (p h) eqn:Hph; [|reflexivity].
    now rewrite (find_none _ _ Hf h Hin) in Hph.
Qed.

Lemma find_none_filter {A : Type} (p : A -> bool) (l : list A) :
  find p l = None -> filter p l = [].
Proof.
  induction l as [|x l IH]; simpl; [reflexivity|].
  destruct (p x); [discriminate | exact IH].
Qed.

Lemma filter_both {A : Type} (p q : A -> bool) (l : list A) :
  filter q (filter p l) = filter (fun x => p x && q x) l.
Proof.
  induction l as [|x l IH]; simpl; [reflexivity|].
  destruct (p x); simpl; [|assumption].
  destruct (q x); now rewrite IH.
Qed.

Lemma filter_length_le {A : Type} (p q : A -> bool) (l : list A) :
  (forall x, In x l -> q x = true -> p x = true) ->
  (List.length (filter q l) <= List.length (filter p l))%nat.
Proof.
  induction l as [|x l IH]; intro H; simpl; [lia|].
  assert (IH' := IH (fun y Hy => H y (or_intror Hy))).
  destruct (q x) eqn:Hq.
  - rewrite (H x (or_introl eq_refl) Hq). simpl. lia.
  - destruct (p x); simpl; lia.
Qed.

Lemma filter_map_length_le {A : Type} (p : A -> bool) (f : A -> A)
  (l : list A) :
  (forall x, p (f x) = true -> p x = true) ->
  (List.length (filter p (map f l)) <= List.length (filter p l))%nat.
Proof.
  intro H. induction l as [|x l IH]; simpl; [lia|].
  destruct (p (f x)) eqn:Hq.
  - rewrite (H x Hq). simpl. lia.
  - destruct (p x); simpl; lia.
Qed.

Lemma filter_filter_length_le {A : Type} (p q : A -> bool) (l : list A) :
  (List.length (filter p (filter q l)) <= List.length (filter p l))%nat.
Proof.
  induction l as [|x l IH]; simpl; [lia|].
  destruct (q x); simpl; destruct (p x); simpl; lia.
Qed.

(** ** Rows and primary keys *)

Lemma findByPk_some k db drop :
  Drop_findByPk k db = Some drop -> In drop (drops db) /\ Drop.id drop = k.
Proof.
  unfold Drop_findByPk. intro H. apply find_some in H as [Hin Hk].
  split; [assumption | now apply Z.eqb_eq].
Qed.

Lemma Drop_write_id d row : Drop.id (Drop_write d row) = Drop.id row.
Proof.
  unfold Drop_write. destruct (Drop.id row =? Drop.id d) eqn:H; [|reflexivity].
  apply Z.eqb_eq in H. congruence.
Qed.

Lemma Drop_write_hit d row : Drop.id row = Drop.id d -> Drop_write d row = d.
Proof. intro H. unfold Drop_write. now rewrite H, Z.eqb_refl. Qed.

Lemma Drop_write_miss d row :
  Drop.id row <> Drop.id d -> Drop_write d row = row.
Proof.
  intro H. unfold Drop_write. apply Z.eqb_neq in H. now rewrite H.
Qed.

Lemma find_written k d l drop :
  find (fun x => Drop.id x =? k) l = Some drop -> Drop.id d = k ->
  find (fun x => Drop.id x =? k) (map (Drop_write d) l) = Some d.
Proof.
  intros Hf Hd. induction l as [|x l IH]; simpl in *; [discriminate|].
  rewrite Drop_write_id.
  destruct (Drop.id x =? k) eqn:Hx; [|auto].
  apply Z.eqb_eq in Hx. rewrite Drop_write_hit; congruence.
Qed.

Lemma find_not_written k d l :
  k <> Drop.id d ->
  find (fun x => Drop.id x =? k) (map (Drop_write d) l) =
  find (fun x => Drop.id x =? k) l.
Proof.
  intro Hk. induction l as [|x l IH]; simpl; [reflexivity|].
  rewrite Drop_write_id, IH.
  destruct (Drop.id x =? k) eqn:Hx; [|reflexivity].
  apply Z.eqb_eq in Hx. rewrite Drop_write_miss; congruence.
Qed.

Lemma map_id_Drop_write d l :
  map Drop.id (map (Drop_write d) l) = map Drop.id l.
Proof. rewrite map_map. apply map_ext. intro x. apply Drop_write_id. Qed.

Lemma Reservation_write_id r row :
  Reservation.id (Reservation_write r row) = Reservation.id row.
Proof.
  unfold Reservation_write.
  destruct (Reservation.id row =? Reservation.id r) eqn:H; [|reflexivity].
  apply Z.eqb_eq in H. congruence.
Qed.

Lemma map_id_Reservation_write r l :
  map Reservation.id (map (Reservation_write r) l) = map Reservation.id l.
Proof.
  rewrite map_map. apply map_ext. intro x. apply Reservation_write_id.
Qed.

Lemma with_reservations_same db : with_reservations db (reservations db) = db.
Proof. now destruct db. Qed.

Lemma with_drops_same db : with_drops db (drops db) = db.
Proof. now destruct db. Qed.

Lemma set_stock_same d : Drop.set_stock d (Drop.stock d + 0) = d.
Proof. destruct d. unfold Drop.set_stock. simpl. f_equal. lia. Qed.

(** ** Saves and inserts *)

Lemma Drop_save_inr loaded d db db1 :
  Drop_save loaded d db = inr db1 ->
  db1 = with_drops db (map (Drop_write d) (drops db))
  /\ Drop.validate_changed loaded d = []
  /\ Drop.beforeUpdate d = true.
Proof.
  unfold Drop_save. destruct (Drop.validate_changed loaded d); [|discriminate].
  destruct (Drop.beforeUpdate d); [|discriminate].
  now intros [= <-].
Qed.

Lemma Drop_save_stock drop v db :
  v <> Drop.stock drop -> 0 <= v -> v <= Drop.initial_stock drop ->
  Drop_save drop (Drop.set_stock drop v) db =
  inr (with_drops db (map (Drop_write (Drop.set_stock drop v)) (drops db))).
Proof.
  intros Hne H0 Hle. unfold Drop_save, Drop.validate_changed,
    Drop.validate_stock, Drop.beforeUpdate. simpl.
  rewrite String.eqb_refl, Z.eqb_refl.
  apply Z.eqb_neq in Hne. rewrite Hne.
  apply Z.leb_le in H0. rewrite H0. simpl.
  apply Z.ltb_ge in Hle. now rewrite Hle.
Qed.

Lemma Drop_save_reservations loaded d db db1 :
  Drop_save loaded d db = inr db1 -> reservations db1 = reservations db.
Proof. intro H. now apply Drop_save_inr in H as (-> & _). Qed.

Lemma Reservation_create_inr now user drop expires db r db1 :
  Reservation_create now user drop expires db = inr (r, db1) ->
  r = Reservation.mk (reservations_seq db) user drop Reservation.active expires
  /\ db1 = mkDB (drops db) (reservations db ++ [r]) (purchases db)
             (drops_seq db) (reservations_seq db + 1) (purchases_seq db)
  /\ now < expires.
Proof.
  unfold Reservation_create, Reservation.validate_new. simpl.
  destruct (expires <=? now) eqn:He; [discriminate|].
  intros [= <- <-]. apply Z.leb_gt in He. auto.
Qed.

Lemma Purchase_create_inr user drop price now db p db1 :
  Purchase_create user drop price now db = inr (p, db1) ->
  p = Purchase.mk (purchases_seq db) user drop price now
  /\ db1 = mkDB (drops db) (reservations db) (purchases db ++ [p])
             (drops_seq db) (reservations_seq db) (purchases_seq db + 1).
Proof.
  unfold Purchase_create, Purchase.validate_new. simpl.
  destruct (0 <=? price); [|discriminate].
  now intros [= <- <-].
Qed.

(** ** The queries of the handlers *)

Lemma own_active_key id userId r :
  own_active id userId r = true -> Reservation.id r = id.
Proof.
  unfold own_active. intro H.
  apply andb_true_iff in H as [H _]. apply andb_true_iff in H as [H _].
  now apply Z.eqb_eq.
Qed.

Lemma own_active_true id userId r :
  own_active id userId r = true ->
  Reservation.id r = id /\ Reservation.user_id r = userId
  /\ Reservation.status r = Reservation.active.
Proof.
  unfold own_active. intro H.
  apply andb_true_iff in H as [H Hs]. apply andb_true_iff in H as [Hi Hu].
  apply Z.eqb_eq in Hi, Hu. repeat split; try assumption.
  now destruct (Reservation.status r).
Qed.

Lemma own_active_terminal id userId r :
  Reservation.status r <> Reservation.active -> own_active id userId r = false.
Proof.
  unfold own_active. intro H.
  destruct (Reservation.status r); [contradiction| |]; simpl;
    apply andb_false_r.
Qed.

Lemma findOne_terminal id userId db h :
  NoDup (map Reservation.id (reservations db)) ->
  In h (reservations db) -> Reservation.id h = id ->
  Reservation.status h <> Reservation.active ->
  Reservation_findOne (own_active id userId) db = None.
Proof.
  intros Hnd Hin Hid Hst. unfold Reservation_findOne.
  rewrite (find_by_key Reservation.id _ _ h Hnd Hin).
  - now rewrite own_active_terminal.
  - intros x Hx. apply own_active_key in Hx. congruence.
Qed.

Lemma findOne_own_active db h :
  NoDup (map Reservation.id (reservations db)) ->
  In h (reservations db) ->
  Reservation.status h = Reservation.active ->
  Reservation_findOne
    (own_active (Reservation.id h) (Reservation.user_id h)) db = Some h.
Proof.
  intros Hnd Hin Hst. unfold Reservation_findOne.
  rewrite (find_by_key Reservation.id _ _ h Hnd Hin).
  - unfold own_active. now rewrite !Z.eqb_refl, Hst.
  - intros x Hx. now apply own_active_key in Hx.
Qed.

Lemma duplicate_of_active now userId dropId r :
  duplicate_of now userId dropId r = true ->
  Reservation.status r = Reservation.active.
Proof.
  unfold duplicate_of. intro H.
  apply andb_true_iff in H as [H _]. apply andb_true_iff in H as [_ H].
  now destruct (Reservation.status r).
Qed.

Lemma duplicate_of_later t t' userId dropId r :
  t <= t' -> duplicate_of t' userId dropId r = true ->
  duplicate_of t userId dropId r = true.
Proof.
  unfold duplicate_of. intros Ht H.
  apply andb_true_iff in H as [H Hlt]. rewrite H. simpl.
  apply Z.ltb_lt in Hlt. apply Z.ltb_lt. lia.
Qed.

(** ** What [io.emit] adds to a trace *)

Lemma emit_all_emits accepts es :
  forallb is_emit (fst (emit_all accepts es)) = true.
Proof.
  induction es as [|e es IH]; simpl; [reflexivity|].
  destruct (accepts e); [|reflexivity].
  destruct (emit_all accepts es) as [log ok]. simpl in *. assumption.
Qed.

Lemma io_emit_emits io es : forallb is_emit (fst (io_emit io es)) = true.
Proof.
  destruct io as [accepts|]; simpl; [apply emit_all_emits | reflexivity].
Qed.

Lemma emits_no_mark log x :
  forallb is_emit log = true -> is_emit x = false -> ~ In x log.
Proof.
  intros Hall Hx Hin. rewrite forallb_forall in Hall.
  specialize (Hall x Hin). congruence.
Qed.

Lemma io_emit_reliable io es : reliable io -> snd (io_emit io es) = true.
Proof.
  destruct io as [accepts|]; simpl; [|reflexivity].
  intro H. induction es as [|e es IH]; simpl; [reflexivity|].
  rewrite H. now destruct (emit_all accepts es).
Qed.

(** At the [io.emit] calls of a handler served on a reliable socket: all of
    them return. *)
Ltac emit_reliably io Hio :=
  match goal with
  | |- context [io_emit io ?es] =>
      let Hok := fresh "Hok" in
      pose proof (io_emit_reliable io es Hio) as Hok;
      destruct (io_emit io es) as [? ?]; simpl in Hok; subst
  end.

Lemma emits_after_commit_emitted log :
  forallb is_emit log = true -> emits_after_commit tx_committed log = true.
Proof.
  induction log as [|x log IH]; simpl; [reflexivity|].
  intro H. apply andb_true_iff in H as [Hx Hlog].
  destruct x; try discriminate. auto.
Qed.

Lemma committed_then_emitted io es :
  emits_after_commit tx_none ([TxBegin; TxCommit] ++ fst (io_emit io es)) = true
  /\ ~ In TxRollback ([TxBegin; TxCommit] ++ fst (io_emit io es)).
Proof.
  pose proof (io_emit_emits io es) as H. split.
  - simpl. now apply emits_after_commit_emitted.
  - simpl. intros [Hx|[Hx|Hx]]; try discriminate.
    revert Hx. now apply emits_no_mark.
Qed.

(** At the [io.emit] calls a handler makes once it has committed. *)
Ltac emit_after_commit io :=
  match goal with
  | |- context [io_emit io ?es] =>
      let H1 := fresh in
      let H2 := fresh in
      pose proof (committed_then_emitted io es) as [H1 H2];
      destruct (io_emit io es) as [? ?]; cbn [snd fst] in *;
      split; [exact H1 | intros _; exact H2]
  end.

(** ** Stock percentage *)

Example getStockPercentage_half_down :
  Drop.getStockPercentage (Drop.mk 1 "Dunk Low" 12000 29 200 None) = 14%float.
Proof. vm_compute. reflexivity. Qed.

Example getStockPercentage_third :
  Drop.getStockPercentage (Drop.mk 1 "Dunk Low" 12000 1 3 None) = 33%float.
Proof. vm_compute. reflexivity. Qed.

Lemma up_to_spec n z : 0 <= z <= Z.of_nat n -> In z (up_to n).
Proof.
  intro H. unfold up_to. apply in_map_iff. exists (Z.to_nat z). split.
  - apply Z2Nat.id. lia.
  - apply in_seq. lia.
Qed.

Lemma getStockPercentage_fields d :
  Drop.getStockPercentage d
  = Drop.getStockPercentage
      (Drop.mk 0 "" 0 (Drop.stock d) (Drop.initial_stock d) None).
Proof. reflexivity. Qed.

Lemma all_round_to_nearest_spec bound :
  all_round_to_nearest bound = true ->
  forall stock initial_stock,
    0 < initial_stock <= Z.of_nat bound -> 0 <= stock <= initial_stock ->
    rounds_to_nearest stock initial_stock = true.
Proof.
  intros Hall s i Hi Hs.
  unfold all_round_to_nearest in Hall. rewrite forallb_forall in Hall.
  specialize (Hall i (up_to_spec bound i ltac:(lia))).
  assert (Hi0 : (i =? 0) = false) by (apply Z.eqb_neq; lia).
  rewrite Hi0 in Hall. cbn [orb] in Hall. rewrite forallb_forall in Hall.
  apply Hall. apply up_to_spec. lia.
Qed.

Lemma rounds_to_nearest_up_to_200 : all_round_to_nearest 200 = true.
Proof. vm_compute. reflexivity. Qed.

(** C10.  [getStockPercentage] is a total function of the drop.  When
    [initial_stock] is 0 it returns 0 and the quotient is not formed; for any
    other [initial_stock] it returns [Math.round] of
    [stock / initial_stock * 100], computed on doubles as JavaScript does.
    What that comes to, for every drop with [0 <= stock <= initial_stock]
    and an initial stock of at most 200: the result is a whole number from
    0 to 100, the integer nearest to the exact percentage, a half going up;
    only where the exact percentage lies half way between two integers may
    it be the integer below (29 of 200 gives 14). *)
Theorem getStockPercentage_guarded :
  forall d : Drop.t,
    (Drop.initial_stock d = 0 -> Drop.getStockPercentage d = PrimFloat.zero)
    /\ (Drop.initial_stock d <> 0 ->
        Drop.getStockPercentage d =
        JS.Math_round
          (PrimFloat.mul
             (PrimFloat.div (JS.Number (Drop.stock d))
                (JS.Number (Drop.initial_stock d)))
             (JS.Number 100)))
    /\ (0 <= Drop.stock d <= Drop.initial_stock d ->
        0 < Drop.initial_stock d <= 200 ->
        let n := (200 * Drop.stock d + Drop.initial_stock d)
                 / (2 * Drop.initial_stock d) in
        0 <= n <= 100
        /\ 2 * Z.abs (100 * Drop.stock d - n * Drop.initial_stock d)
           <= Drop.initial_stock d
        /\ (Drop.getStockPercentage d = JS.Number n
            \/ ((200 * Drop.stock d + Drop.initial_stock d)
                mod (2 * Drop.initial_stock d) = 0
                /\ Drop.getStockPercentage d = JS.Number (n - 1)))).
Proof.
  intro d. split; [|split].
  - unfold Drop.getStockPercentage. intro H. rewrite H. reflexivity.
  - unfold Drop.getStockPercentage. intro H. apply Z.eqb_neq in H.
    rewrite H. reflexivity.
  - intros Hs Hi n.
    set (s := Drop.stock d) in *. set (i := Drop.initial_stock d) in *.
    assert (Hn : 2 * i * n <= 200 * s + i < 2 * i * n + 2 * i).
    { pose proof (Z.div_mod (200 * s + i) (2 * i)) as Hdm.
      pose proof (Z.mod_pos_bound (200 * s + i) (2 * i)) as Hb.
      fold n in Hdm. lia. }
    split; [nia|]. split; [lia|].
    pose proof (all_round_to_nearest_spec 200 rounds_to_nearest_up_to_200
                  s i ltac:(simpl Z.of_nat; lia) Hs) as Hall.
    unfold rounds_to_nearest, nearest_percent in Hall. unfold s, i in Hall.
    rewrite <- (getStockPercentage_fields d) in Hall.
    apply orb_true_iff in Hall as [Hall|Hall].
    + left. now apply FloatAxioms.Leibniz.eqb_spec.
    + right. apply andb_true_iff in Hall as [Hhalf Hall]. split.
      * unfold half_way in Hhalf. now apply Z.eqb_eq.
      * now apply FloatAxioms.Leibniz.eqb_spec.
Qed.

Lemma getStockPercentage_guarded_witness :
  Drop.getStockPercentage (Drop.mk 4 "Jordan 1" 21000 7 0 None) = 0%float
  /\ Drop.getStockPercentage (Drop.mk 5 "Jordan 4" 25000 1 3 None)
     = 33%float
  /\ (Drop.getStockPercentage (Drop.mk 6 "Dunk Low" 12000 29 200 None)
      = 15%float
      \/ Drop.getStockPercentage (Drop.mk 6 "Dunk Low" 12000 29 200 None)
         = 14%float).
Proof.
  split; [|split].
  - apply (proj1 (getStockPercentage_guarded
                    (Drop.mk 4 "Jordan 1" 21000 7 0 None))).
    reflexivity.
  - destruct (proj2 (proj2 (getStockPercentage_guarded
                              (Drop.mk 5 "Jordan 4" 25000 1 3 None)))
                ltac:(simpl; lia) ltac:(simpl; lia))
      as (_ & _ & [H|[Hhalf _]]).
    + exact H.
    + discriminate Hhalf.
  - destruct (proj2 (proj2 (getStockPercentage_guarded
                              (Drop.mk 6 "Dunk Low" 12000 29 200 None)))
                ltac:(simpl; lia) ltac:(simpl; lia))
      as (_ & _ & [H|[_ H]]).
    + left. exact H.
    + right. exact H.
Defined.

(** ** Reservation requests *)

(** C3.  [reserveItem] answers, in this order of precedence: 400 [You already
    have an active reservation for this drop] (DuplicateActive) when the user
    holds an active reservation of the drop with [expires_at] after now; 400
    [Drop has not started yet] (NotStarted) when the drop has a
    [drop_start_time] after now; 400 [Out of stock] (OutOfStock) when its
    stock is 0.  Each of them rolls the transaction back, and so does every
    other reply than a success, the throw of an [io.emit] after the commit set
    apart: the store is the one the request found. *)
Theorem reserveItem_rejections :
  forall (env : option Z) (io : socket) (now userId dropId : Z) (db : DB),
    (forall r,
        In r (reservations db) -> duplicate_of now userId dropId r = true ->
        reserveItem env io now userId dropId db =
        rolled_back
          (Failure 400 "You already have an active reservation for this drop")
          db)
    /\ (forall drop start,
        Reservation_findOne (duplicate_of now userId dropId) db = None ->
        Drop_findByPk dropId db = Some drop ->
        Drop.drop_start_time drop = Some start -> now < start ->
        reserveItem env io now userId dropId db =
        rolled_back (Failure 400 "Drop has not started yet") db)
    /\ (forall drop,
        Reservation_findOne (duplicate_of now userId dropId) db = None ->
        Drop_findByPk dropId db = Some drop ->
        Drop.hasStarted now drop = true -> Drop.stock drop = 0 ->
        reserveItem env io now userId dropId db =
        rolled_back (Failure 400 "Out of stock") db)
    /\ (forall reply db' log,
        reserveItem env io now userId dropId db = (reply, db', log) ->
        (forall code data, reply <> Success code data) ->
        reply <> Next EmitError ->
        db' = db /\ log = [TxBegin; TxRollback]).
Proof.
  intros env io now userId dropId db. split; [|split; [|split]].
  - intros r Hin Hdup. unfold reserveItem, Reservation_findOne.
    destruct (find _ (reservations db)) eqn:Hf; [reflexivity|].
    now rewrite (find_none _ _ Hf r Hin) in Hdup.
  - intros drop start Hnone Hdrop Hstart Hlt. unfold reserveItem.
    rewrite Hnone, Hdrop. unfold Drop.hasStarted. rewrite Hstart.
    apply Z.leb_gt in Hlt. now rewrite Hlt.
  - intros drop Hnone Hdrop Hstarted Hstock. unfold reserveItem.
    rewrite Hnone, Hdrop, Hstarted, Hstock. reflexivity.
  - intros reply db' log H Hfail Hemit. revert H.
    unfold reserveItem, rolled_back.
    destruct (Reservation_findOne _ db); [now intros [= <- <- <-]|].
    destruct (Drop_findByPk dropId db) as [drop|]; [|now intros [= <- <- <-]].
    destruct (negb (Drop.hasStarted now drop)); [now intros [= <- <- <-]|].
    destruct (Drop.stock drop <=? 0); [now intros [= <- <- <-]|].
    destruct (Drop_save _ _ db) as [e|db1]; [now intros [= <- <- <-]|].
    destruct (Reservation_create _ _ _ _ db1) as [e|[r db2]];
      [now intros [= <- <- <-]|].
    destruct (io_emit io _) as [emitted [|]]; intros [= <- <- <-].
    + exfalso. eapply Hfail. reflexivity.
    + now destruct Hemit.
Qed.

Lemma reserveItem_rejections_witness :
  reserveItem None listening 70 7 1 shop =
  rolled_back
    (Failure 400 "You already have an active reservation for this drop") shop
  /\ reserveItem None listening 70 9 2 shop =
     rolled_back (Failure 400 "Drop has not started yet") shop
  /\ reserveItem None listening 70 9 1 shop =
     rolled_back (Failure 400 "Out of stock") shop
  /\ (shop = shop /\ [TxBegin; TxRollback] = [TxBegin; TxRollback]).
Proof.
  split; [|split; [|split]].
  - apply (proj1 (reserveItem_rejections None listening 70 7 1 shop)
             (Reservation.mk 3 7 1 Reservation.active 60050)).
    + simpl. auto.
    + reflexivity.
  - apply (proj1 (proj2 (reserveItem_rejections None listening 70 9 2 shop))
             (Drop.mk 2 "Yeezy 350" 30000 3 3 (Some 500000)) 500000).
    + reflexivity.
    + reflexivity.
    + reflexivity.
    + lia.
  - apply (proj1 (proj2 (proj2
             (reserveItem_rejections None listening 70 9 1 shop)))
             (Drop.mk 1 "Air Max 90" 19999 0 2 None)).
    + reflexivity.
    + reflexivity.
    + reflexivity.
    + reflexivity.
  - apply (proj2 (proj2 (proj2
             (reserveItem_rejections None listening 70 9 1 shop)))
             (Failure 400 "Out of stock")).
    + reflexivity.
    + discriminate.
    + discriminate.
Defined.



(** The conditions of a reservation are sufficient as soon as the saves are
    accepted: the lowered stock is within the ceiling and the configured
    duration is positive. *)
Lemma reserveItem_accepts env io now userId dropId db drop :
  reliable io ->
  Reservation_findOne (duplicate_of now userId dropId) db = None ->
  Drop_findByPk dropId db = Some drop ->
  Drop.hasStarted now drop = true ->
  0 < Drop.stock drop ->
  Drop.stock drop - 1 <= Drop.initial_stock drop ->
  0 < reservationDuration env ->
  exists data db' log,
    reserveItem env io now userId dropId db = (Success 201 data, db', log).
Proof.
  intros Hio Hdup Hdrop Hstart Hpos Hceil Hdur. unfold reserveItem.
  rewrite Hdup, Hdrop, Hstart. simpl.
  apply Z.leb_gt in Hpos as Hpos'. rewrite Hpos'.
  rewrite Drop_save_stock by lia.
  unfold Reservation_create, Reservation.validate_new. simpl.
  assert (He : (now + reservationDuration env <=? now) = false)
    by (apply Z.leb_gt; lia).
  rewrite He.
  emit_reliably io Hio. eauto.
Qed.

(** ** Purchases and cancellations *)

(** C6.  In a table with unique ids, a request to cancel or to purchase a
    reservation whose status is [expired] or [completed] is answered 404
    [Active reservation not found] (the reply that stands for StateConflict),
    and a request to purchase an active reservation whose [expires_at] is
    before now is answered 400 [Reservation has expired]
    (ExpiredReservation).  In each case the transaction is rolled back and
    the whole store, so the drop's stock, the reservation and the purchases,
    is left as it was. *)
Theorem terminal_or_expired_hold_rejected :
  forall (io : socket) (now userId : Z) (db : DB) (h : Reservation.t),
    NoDup (map Reservation.id (reservations db)) ->
    In h (reservations db) ->
    (Reservation.status h <> Reservation.active ->
     cancelReservation io userId (Reservation.id h) db =
     rolled_back (Failure 404 "Active reservation not found") db
     /\ completePurchase io now userId (Reservation.id h) db =
        rolled_back (Failure 404 "Active reservation not found") db)
    /\ (Reservation.status h = Reservation.active ->
        Reservation.expires_at h < now ->
        completePurchase io now (Reservation.user_id h) (Reservation.id h) db =
        rolled_back (Failure 400 "Reservation has expired") db).
Proof.
  intros io now userId db h Hnd Hin. split.
  - intro Hst. unfold cancelReservation, completePurchase.
    rewrite (findOne_terminal _ userId db h Hnd Hin eq_refl Hst). now split.
  - intros Hst Hlt. unfold completePurchase.
    rewrite (findOne_own_active db h Hnd Hin Hst).
    unfold Reservation.isExpired. apply Z.ltb_lt in Hlt. now rewrite Hlt.
Qed.

Lemma terminal_or_expired_hold_rejected_witness :
  (cancelReservation listening 7 1 shop =
   rolled_back (Failure 404 "Active reservation not found") shop
   /\ completePurchase listening 70 7 1 shop =
      rolled_back (Failure 404 "Active reservation not found") shop)
  /\ (cancelReservation listening 8 2 shop =
      rolled_back (Failure 404 "Active reservation not found") shop
      /\ completePurchase listening 70 8 2 shop =
         rolled_back (Failure 404 "Active reservation not found") shop)
  /\ completePurchase listening 70000 7 3 shop =
     rolled_back (Failure 400 "Reservation has expired") shop.
Proof.
  assert (Hnd : NoDup (map Reservation.id (reservations shop))).
  { simpl. repeat constructor; simpl; intuition discriminate. }
  split; [|split].
  - apply (proj1 (terminal_or_expired_hold_rejected listening 70 7 shop
                    (Reservation.mk 1 7 3 Reservation.expired 60010) Hnd
                    ltac:(simpl; auto))).
    discriminate.
  - apply (proj1 (terminal_or_expired_hold_rejected listening 70 8 shop
                    (Reservation.mk 2 8 3 Reservation.completed 60020) Hnd
                    ltac:(simpl; auto))).
    discriminate.
  - apply (proj2 (terminal_or_expired_hold_rejected listening 70000 7 shop
                    (Reservation.mk 3 7 1 Reservation.active 60050) Hnd
                    ltac:(simpl; auto))).
    + reflexivity.
    + simpl. lia.
Defined.

(** The rows of the reservations after [r.status = s; r.save()]. *)
Lemma saved_status_rows h s l row :
  In row (map (Reservation_write (Reservation.set_status h s)) l) ->
  (Reservation.id row = Reservation.id h ->
   Reservation.status row = s
   /\ Reservation.user_id row = Reservation.user_id h
   /\ Reservation.drop_id row = Reservation.drop_id h
   /\ Reservation.expires_at row = Reservation.expires_at h)
  /\ (Reservation.id row <> Reservation.id h -> In row l).
Proof.
  intro Hin. apply in_map_iff in Hin as (x & <- & Hx).
  rewrite Reservation_write_id. unfold Reservation_write. simpl.
  destruct (Reservation.id x =? Reservation.id h) eqn:He.
  - apply Z.eqb_eq in He. split; [|congruence].
    intros _. simpl. auto.
  - apply Z.eqb_neq in He. split; [congruence|auto].
Qed.

(** C5, amended.  Whenever [completePurchase] answers with a success, the
    reservation was the caller's, [active] and not past its [expires_at]:
    the test is [now > expires_at], so a reservation can still be bought at
    the instant of its deadline.  The row stored under its id then reads
    [completed], with its user, drop and deadline as before, and no other
    reservation differs; exactly one purchase is appended, whose price is the
    price the drop's row has at that moment; and the drops, so every stock,
    are left as they were. *)
Theorem completePurchase_success :
  forall (io : socket) (now userId reservationId : Z) (db : DB)
         (code : Z) (data : purchased) (db' : DB) (log : list effect),
    completePurchase io now userId reservationId db =
    (Success code data, db', log) ->
    exists h drop,
      (In h (reservations db)
       /\ Reservation.id h = reservationId
       /\ Reservation.user_id h = userId
       /\ Reservation.status h = Reservation.active
       /\ now <= Reservation.expires_at h)
      /\ Drop_findByPk (Reservation.drop_id h) db = Some drop
      /\ reservations db' =
         map (fun row =>
                if Reservation.id row =? reservationId
                then Reservation.set_status h Reservation.completed else row)
           (reservations db)
      /\ (exists row,
            In row (reservations db')
            /\ Reservation.id row = reservationId)
      /\ (forall row,
            In row (reservations db') ->
            Reservation.id row = reservationId ->
            Reservation.status row = Reservation.completed
            /\ Reservation.user_id row = userId
            /\ Reservation.drop_id row = Reservation.drop_id h
            /\ Reservation.expires_at row = Reservation.expires_at h)
      /\ (forall row,
            In row (reservations db') ->
            Reservation.id row <> reservationId ->
            In row (reservations db))
      /\ map Reservation.id (reservations db')
         = map Reservation.id (reservations db)
      /\ purchases db' =
         purchases db
         ++ [Purchase.mk (purchases_seq db) userId (Reservation.drop_id h)
               (Drop.price drop) now]
      /\ drops db' = drops db
      /\ (code = 201
          /\ purchase_id data = purchases_seq db
          /\ purchase_price data = Drop.price drop
          /\ purchase_purchased_at data = now).
Proof.
  intros io now userId reservationId db code data db' log.
  unfold completePurchase, rolled_back.
  destruct (Reservation_findOne _ db) as [h|] eqn:Hh; [|discriminate].
  destruct (Reservation.isExpired now h) eqn:Hexp; [discriminate|].
  destruct (Drop_findByPk _ db) as [drop|] eqn:Hdrop; [|discriminate].
  destruct (Purchase_create _ _ _ _ _) as [e|[p db2]] eqn:Hp; [discriminate|].
  destruct (io_emit io _) as [emitted [|]]; [|discriminate].
  intros [= <- <- <- <-].
  apply Purchase_create_inr in Hp as (-> & ->).
  apply find_some in Hh as [Hin Hown].
  apply own_active_true in Hown as (Hid & Huser & Hst).
  unfold Reservation.isExpired in Hexp.
  apply orb_false_iff in Hexp as [Hexp _]. apply Z.ltb_ge in Hexp.
  exists h, drop. simpl.
  split; [auto|]. split; [exact Hdrop|].
  split.
  { apply map_ext. intro row. unfold Reservation_write. simpl.
    now rewrite Hid. }
  split.
  { exists (Reservation_write
              (Reservation.set_status h Reservation.completed) h).
    split; [now apply in_map|]. now rewrite Reservation_write_id. }
  split.
  { intros row Hrow Hrid.
    destruct (saved_status_rows h Reservation.completed _ row Hrow)
      as [Hsame _].
    destruct Hsame as (H1 & H2 & H3 & H4); [congruence|].
    rewrite H2, Huser. auto. }
  split.
  { intros row Hrow Hrid.
    destruct (saved_status_rows h Reservation.completed _ row Hrow)
      as [_ Hother].
    apply Hother. congruence. }
  split; [apply map_id_Reservation_write|].
  repeat split; reflexivity.
Qed.

Lemma completePurchase_success_witness :
  reservations (store_of (completePurchase listening 70 7 3 shop)) =
  [Reservation.mk 1 7 3 Reservation.expired 60010;
   Reservation.mk 2 8 3 Reservation.completed 60020;
   Reservation.mk 3 7 1 Reservation.completed 60050;
   Reservation.mk 4 8 1 Reservation.active 60060]
  /\ purchases (store_of (completePurchase listening 70 7 3 shop)) =
     purchases shop ++ [Purchase.mk 2 7 1 19999 70]
  /\ drops (store_of (completePurchase listening 70 7 3 shop)) = drops shop.
Proof.
  destruct (completePurchase_success listening 70 7 3 shop 201 _ _ _ eq_refl)
    as (h & drop & (Hin & Hid & _) & Hdrop & Hrows & _ & _ & _ & _ & Hsale
        & Hdrops & _).
  simpl in Hin.
  destruct Hin as [<-|[<-|[<-|[<-|[]]]]]; try discriminate Hid.
  injection Hdrop as <-.
  split; [exact Hrows|]. split; [exact Hsale | exact Hdrops].
Defined.

(** The claim as the specification words it asks for a deadline after
    [now]; a reservation is bought at the very instant of its deadline. *)
Lemma completePurchase_at_deadline :
  Reservation_findOne (own_active 3 7) shop
  = Some (Reservation.mk 3 7 1 Reservation.active 60050)
  /\ fst (fst (completePurchase listening 60050 7 3 shop))
     = Success 201 (mkPurchased 2 1 19999 60050)
  /\ ~ 60050
       < Reservation.expires_at
           (Reservation.mk 3 7 1 Reservation.active 60050).
Proof.
  split; [reflexivity|]. split; [reflexivity|]. simpl. lia.
Qed.

Lemma completePurchase_accepts io now userId reservationId db h drop :
  reliable io ->
  Reservation_findOne (own_active reservationId userId) db = Some h ->
  now <= Reservation.expires_at h ->
  Drop_findByPk (Reservation.drop_id h) db = Some drop ->
  0 <= Drop.price drop ->
  exists data db' log,
    completePurchase io now userId reservationId db =
    (Success 201 data, db', log).
Proof.
  intros Hio Hh Hnow Hdrop Hprice. unfold completePurchase.
  rewrite Hh.
  assert (Hst : Reservation.status h = Reservation.active).
  { apply find_some in Hh as [_ Hh]. now apply own_active_true in Hh. }
  unfold Reservation.isExpired. rewrite Hst.
  apply Z.ltb_ge in Hnow. rewrite Hnow. simpl. rewrite Hdrop.
  unfold Purchase_create, Purchase.validate_new. simpl.
  apply Z.leb_le in Hprice. rewrite Hprice.
  emit_reliably io Hio. eauto.
Qed.

(** C7.  Whenever [cancelReservation] answers with a success, the
    reservation was the caller's and [active]; in one transaction, committed
    once, the row stored under its id becomes [expired], with its user, drop
    and deadline as before, and the row of its drop has its stock raised by
    exactly 1 and its other fields kept; every other reservation and every
    other drop is what it was, and so are the purchases. *)
Theorem cancelReservation_success :
  forall (io : socket) (userId id : Z) (db : DB)
         (code : Z) (data : unit) (db' : DB) (log : list effect),
    cancelReservation io userId id db = (Success code data, db', log) ->
    exists h,
      (In h (reservations db)
       /\ Reservation.id h = id
       /\ Reservation.user_id h = userId
       /\ Reservation.status h = Reservation.active)
      /\ reservations db' =
         map (fun row =>
                if Reservation.id row =? id
                then Reservation.set_status h Reservation.expired else row)
           (reservations db)
      /\ (exists row,
            In row (reservations db') /\ Reservation.id row = id)
      /\ (forall row,
            In row (reservations db') -> Reservation.id row = id ->
            Reservation.status row = Reservation.expired
            /\ Reservation.user_id row = userId
            /\ Reservation.drop_id row = Reservation.drop_id h
            /\ Reservation.expires_at row = Reservation.expires_at h)
      /\ (forall row,
            In row (reservations db') -> Reservation.id row <> id ->
            In row (reservations db))
      /\ (forall drop,
          Drop_findByPk (Reservation.drop_id h) db = Some drop ->
          drops db' =
          map (fun row =>
                 if Drop.id row =? Reservation.drop_id h
                 then Drop.set_stock drop (Drop.stock drop + 1) else row)
            (drops db)
          /\ Drop_findByPk (Reservation.drop_id h) db' =
             Some (Drop.set_stock drop (Drop.stock drop + 1))
          /\ (exists drop',
                Drop_findByPk (Reservation.drop_id h) db' = Some drop'
                /\ Drop.stock drop' = Drop.stock drop + 1
                /\ Drop.id drop' = Drop.id drop
                /\ Drop.name drop' = Drop.name drop
                /\ Drop.price drop' = Drop.price drop
                /\ Drop.initial_stock drop' = Drop.initial_stock drop
                /\ Drop.drop_start_time drop' = Drop.drop_start_time drop))
      /\ (forall k, k <> Reservation.drop_id h ->
                    Drop_findByPk k db' = Drop_findByPk k db)
      /\ map Drop.id (drops db') = map Drop.id (drops db)
      /\ (Drop_findByPk (Reservation.drop_id h) db = None ->
          drops db' = drops db)
      /\ purchases db' = purchases db
      /\ exists emitted,
          log = [TxBegin; TxCommit] ++ emitted
          /\ ~ In TxCommit emitted /\ ~ In TxRollback emitted.
Proof.
  intros io userId id db code data db' log.
  unfold cancelReservation, rolled_back.
  destruct (Reservation_findOne _ db) as [h|] eqn:Hh; [|discriminate].
  apply find_some in Hh as [Hin Hown].
  apply own_active_true in Hown as (Hid & Huser & Hst).
  assert (Hrows :
    map (Reservation_write (Reservation.set_status h Reservation.expired))
      (reservations db) =
    map (fun row =>
           if Reservation.id row =? id
           then Reservation.set_status h Reservation.expired else row)
      (reservations db)).
  { apply map_ext. intro row. unfold Reservation_write. simpl.
    now rewrite Hid. }
  assert (Hrow :
    (exists row,
        In row (map (Reservation_write
                       (Reservation.set_status h Reservation.expired))
                  (reservations db))
        /\ Reservation.id row = id)
    /\ (forall row,
          In row (map (Reservation_write
                         (Reservation.set_status h Reservation.expired))
                    (reservations db)) ->
          Reservation.id row = id ->
          Reservation.status row = Reservation.expired
          /\ Reservation.user_id row = userId
          /\ Reservation.drop_id row = Reservation.drop_id h
          /\ Reservation.expires_at row = Reservation.expires_at h)
    /\ (forall row,
          In row (map (Reservation_write
                         (Reservation.set_status h Reservation.expired))
                    (reservations db)) ->
          Reservation.id row <> id -> In row (reservations db))).
  { split; [|split].
    - exists (Reservation_write
                (Reservation.set_status h Reservation.expired) h).
      split; [now apply in_map|]. now rewrite Reservation_write_id.
    - intros row Hrow Hrid.
      destruct (saved_status_rows h Reservation.expired _ row Hrow)
        as [Hsame _].
      destruct Hsame as (H1 & H2 & H3 & H4); [congruence|].
      rewrite H2, Huser. auto.
    - intros row Hrow Hrid.
      destruct (saved_status_rows h Reservation.expired _ row Hrow)
        as [_ Hother].
      apply Hother. congruence. }
  destruct Hrow as (Hrow1 & Hrow2 & Hrow3).
  change (Drop_findByPk (Reservation.drop_id h)
            (Reservation_save_status h Reservation.expired db))
    with (Drop_findByPk (Reservation.drop_id h) db).
  destruct (Drop_findByPk _ db) as [drop|] eqn:Hdrop.
  - destruct (Drop_save _ _ _) as [e|db2] eqn:Hsave; [discriminate|].
    pose proof (io_emit_emits io
      [stockUpdate (Drop.id (Drop.set_stock drop (Drop.stock drop + 1)))
         (Drop.stock (Drop.set_stock drop (Drop.stock drop + 1)));
       reservationCancelled (Reservation.id h)
         (Drop.id (Drop.set_stock drop (Drop.stock drop + 1)))]) as Hemit.
    destruct (io_emit io _) as [emitted [|]]; [|discriminate].
    intros [= <- <- <- <-].
    apply Drop_save_inr in Hsave as (-> & _ & _).
    destruct (findByPk_some _ _ _ Hdrop) as [_ Hdid].
    assert (Hfound :
      find (fun d => Drop.id d =? Reservation.drop_id h)
        (map (Drop_write (Drop.set_stock drop (Drop.stock drop + 1)))
           (drops db))
      = Some (Drop.set_stock drop (Drop.stock drop + 1))).
    { eapply find_written; eauto. }
    exists h. simpl.
    split; [auto|]. split; [exact Hrows|].
    split; [exact Hrow1|]. split; [exact Hrow2|]. split; [exact Hrow3|].
    split; [|split; [|split; [|split; [congruence|split; [reflexivity|]]]]].
    + intros drop0 Hd0. rewrite Hdrop in Hd0. injection Hd0 as <-.
      split; [|split].
      * apply map_ext. intro row. unfold Drop_write. simpl. now rewrite Hdid.
      * exact Hfound.
      * exists (Drop.set_stock drop (Drop.stock drop + 1)).
        split; [exact Hfound|]. simpl. repeat split; reflexivity.
    + intros k Hk. unfold Drop_findByPk. simpl.
      apply find_not_written. simpl. congruence.
    + apply map_id_Drop_write.
    + exists emitted. simpl in Hemit.
      split; [reflexivity|].
      split; apply emits_no_mark; auto.
  - intros [= <- <- <- <-]. exists h. simpl.
    split; [auto|]. split; [exact Hrows|].
    split; [exact Hrow1|]. split; [exact Hrow2|]. split; [exact Hrow3|].
    split; [congruence|]. split; [reflexivity|]. split; [reflexivity|].
    split; [reflexivity|]. split; [reflexivity|].
    exists []. simpl. auto.
Qed.

Lemma cancelReservation_success_witness :
  reservations (store_of (cancelReservation listening 8 4 shop)) =
  [Reservation.mk 1 7 3 Reservation.expired 60010;
   Reservation.mk 2 8 3 Reservation.completed 60020;
   Reservation.mk 3 7 1 Reservation.active 60050;
   Reservation.mk 4 8 1 Reservation.expired 60060]
  /\ drops (store_of (cancelReservation listening 8 4 shop)) =
     [Drop.mk 1 "Air Max 90" 19999 1 2 None;
      Drop.mk 2 "Yeezy 350" 30000 3 3 (Some 500000);
      Drop.mk 3 "Dunk Low" 12000 4 5 None]
  /\ purchases (store_of (cancelReservation listening 8 4 shop)) =
     purchases shop.
Proof.
  destruct (cancelReservation_success listening 8 4 shop 200 tt _ _ eq_refl)
    as (h & (Hin & Hid & _) & Hrows & _ & _ & _ & Hdrops & _ & _ & _
        & Hsales & _).
  simpl in Hin.
  destruct Hin as [<-|[<-|[<-|[<-|[]]]]]; try discriminate Hid.
  split; [exact Hrows|]. split; [|exact Hsales].
  exact (proj1 (Hdrops (Drop.mk 1 "Air Max 90" 19999 0 2 None) eq_refl)).
Defined.

Lemma cancelReservation_accepts io userId id db h drop :
  reliable io ->
  Reservation_findOne (own_active id userId) db = Some h ->
  Drop_findByPk (Reservation.drop_id h) db = Some drop ->
  0 <= Drop.stock drop ->
  Drop.stock drop + 1 <= Drop.initial_stock drop ->
  exists db' log,
    cancelReservation io userId id db = (Success 200 tt, db', log).
Proof.
  intros Hio Hh Hdrop H0 Hceil. unfold cancelReservation.
  rewrite Hh.
  change (Drop_findByPk (Reservation.drop_id h)
            (Reservation_save_status h Reservation.expired db))
    with (Drop_findByPk (Reservation.drop_id h) db).
  rewrite Hdrop. rewrite Drop_save_stock by lia.
  emit_reliably io Hio. eauto.
Qed.

(** ** The expiry tick *)

Lemma mark_expired_spec l : forall db o,
  mark_expired l db o =
  (with_reservations db (map (mark_row l) (reservations db)),
   fold_left (fun o r => bump (Reservation.drop_id r) o) l o).
Proof.
  induction l as [|r l IH]; intros db o; simpl.
  - unfold mark_row. simpl. now rewrite map_id, with_reservations_same.
  - rewrite IH. unfold Reservation_save_status. simpl.
    rewrite map_map. reflexivity.
Qed.

Lemma mark_row_id l : forall x,
  Reservation.id (mark_row l x) = Reservation.id x.
Proof.
  unfold mark_row. induction l as [|r l IH]; intro x; simpl; [reflexivity|].
  now rewrite IH, Reservation_write_id.
Qed.

Lemma mark_row_spec x l : forall y,
  Reservation.id y = Reservation.id x ->
  (forall r, In r l -> Reservation.id r = Reservation.id x -> r = x) ->
  mark_row l y =
  if existsb (fun r => Reservation.id r =? Reservation.id x) l
  then Reservation.set_status x Reservation.expired else y.
Proof.
  unfold mark_row.
  induction l as [|r l IH]; intros y Hy Hl; simpl; [reflexivity|].
  rewrite IH.
  - unfold Reservation_write. simpl. rewrite Hy.
    destruct (Reservation.id r =? Reservation.id x) eqn:Hr.
    + apply Z.eqb_eq in Hr. rewrite (Hl r (or_introl eq_refl) Hr).
      rewrite Z.eqb_refl. simpl. now destruct (existsb _ l).
    + rewrite Z.eqb_sym, Hr. reflexivity.
  - now rewrite Reservation_write_id.
  - intros r' Hin. apply Hl. now right.
Qed.

Lemma mark_rows_due now rows :
  NoDup (map Reservation.id rows) ->
  map (mark_row (filter (due now) rows)) rows = map (expire_due now) rows.
Proof.
  intro Hnd. apply map_ext_in. intros x Hx.
  rewrite (mark_row_spec x); [|reflexivity|].
  - unfold expire_due.
    destruct (existsb _ (filter (due now) rows)) eqn:He.
    + apply existsb_exists in He as (r & Hr & Hk).
      apply filter_In in Hr as [Hr Hdue]. apply Z.eqb_eq in Hk.
      assert (r = x) by (eapply NoDup_key_inj; eauto). subst.
      now rewrite Hdue.
    + destruct (due now x) eqn:Hdue; [|reflexivity].
      assert (Hex : existsb
                (fun r => Reservation.id r =? Reservation.id x)
                (filter (due now) rows) = true).
      { apply existsb_exists. exists x. split.
        - apply filter_In. auto.
        - apply Z.eqb_refl. }
      congruence.
  - intros r Hr Hk. apply filter_In in Hr as [Hr _].
    eapply NoDup_key_inj; eauto.
Qed.

Lemma tally_bump k i o :
  tally k (bump i o) = tally k o + (if i =? k then 1 else 0).
Proof.
  induction o as [|[j n] o IH]; simpl.
  - lia.
  - destruct (i =? j) eqn:He.
    + apply Z.eqb_eq in He. subst. simpl.
      destruct (j =? k); lia.
    + destruct (i <? j); simpl.
      * destruct (i =? k), (j =? k); lia.
      * rewrite IH. destruct (i =? k), (j =? k); lia.
Qed.

Lemma tally_counted k l : forall o,
  tally k (fold_left (fun o r => bump (Reservation.drop_id r) o) l o) =
  tally k o
  + Z.of_nat (List.length (filter (fun r => Reservation.drop_id r =? k) l)).
Proof.
  induction l as [|r l IH]; intro o; simpl; [lia|].
  rewrite IH, tally_bump.
  destruct (Reservation.drop_id r =? k); simpl List.length; lia.
Qed.

Lemma tally_returned now db k :
  tally k (dropStockUpdates_at now db) = returned now db k.
Proof.
  unfold dropStockUpdates_at, returned, Reservation_findAll.
  rewrite mark_expired_spec. simpl snd.
  rewrite tally_counted, filter_both. simpl. reflexivity.
Qed.

Lemma return_stock_spec io entries : forall db db2 log,
  NoDup (map Drop.id (drops db)) ->
  return_stock io entries db = (inr db2, log) ->
  db2 =
  with_drops db
    (map (fun d => Drop.set_stock d (Drop.stock d + tally (Drop.id d) entries))
       (drops db)).
Proof.
  induction entries as [|[k n] rest IH]; intros db db2 log Hnd; simpl.
  - intros [= <- _]. rewrite <- (with_drops_same db) at 1. f_equal.
    rewrite <- (map_id (drops db)) at 1. apply map_ext. intro d.
    now rewrite set_stock_same.
  - destruct (Drop_findByPk k db) as [drop|] eqn:Hdrop.
    + destruct (Drop_save _ _ db) as [e|db1] eqn:Hsave; [discriminate|].
      destruct (io_emit io _) as [emitted [|]]; [|discriminate].
      destruct (return_stock io rest db1) as [r log1] eqn:Hrest.
      intros [= -> _].
      apply Drop_save_inr in Hsave as (-> & _ & _).
      destruct (findByPk_some _ _ _ Hdrop) as [Hin Hid].
      apply IH in Hrest.
      2:{ simpl. rewrite map_map.
          erewrite map_ext; [exact Hnd|]. intro d. apply Drop_write_id. }
      rewrite Hrest. unfold with_drops. simpl. f_equal.
      rewrite map_map. apply map_ext_in. intros d Hd.
      destruct (Z.eq_dec (Drop.id d) k) as [Hk|Hk].
      * assert (d = drop) by (eapply NoDup_key_inj; eauto; congruence).
        subst d. rewrite Drop_write_hit by reflexivity.
        rewrite Hid, Z.eqb_refl. unfold Drop.set_stock. simpl.
        f_equal; try congruence. rewrite Hid. lia.
      * rewrite Drop_write_miss by (simpl; congruence).
        assert (Hkb : (k =? Drop.id d) = false)
          by (apply Z.eqb_neq; congruence).
        rewrite Hkb. reflexivity.
    + intro Hrest. apply IH in Hrest; [|assumption].
      rewrite Hrest. f_equal. apply map_ext_in. intros d Hd.
      unfold Drop_findByPk in Hdrop.
      pose proof (find_none _ _ Hdrop d Hd) as Hk. simpl in Hk.
      rewrite Z.eqb_sym, Hk. reflexivity.
Qed.

Lemma return_stock_reservations io entries : forall db db2 log,
  return_stock io entries db = (inr db2, log) ->
  reservations db2 = reservations db.
Proof.
  induction entries as [|[k n] rest IH]; intros db db2 log; simpl.
  - now intros [= <- _].
  - destruct (Drop_findByPk k db) as [drop|]; [|apply IH].
    destruct (Drop_save _ _ db) as [e|db1] eqn:Hsave; [discriminate|].
    destruct (io_emit io _) as [emitted [|]]; [|discriminate].
    destruct (return_stock io rest db1) as [r log1] eqn:Hrest.
    intros [= -> _]. apply IH in Hrest.
    apply Drop_save_reservations in Hsave. congruence.
Qed.

(** Each drop has at most one entry: the keys of [dropStockUpdates] are
    kept in strictly ascending order. *)
Lemma bump_above (P : Z -> Prop) k o :
  P k -> Forall (fun e => P (fst e)) o ->
  Forall (fun e => P (fst e)) (bump k o).
Proof.
  intros Hk Ho. induction Ho as [|[j n] o Hj Ho IH]; simpl.
  - constructor; [assumption | constructor].
  - destruct (k =? j).
    + constructor; assumption.
    + destruct (k <? j).
      * constructor; [assumption|]. constructor; assumption.
      * constructor; assumption.
Qed.

Lemma bump_sorted k o :
  StronglySorted key_lt o -> StronglySorted key_lt (bump k o).
Proof.
  intro Ho. induction Ho as [|[j n] o Ho IH Hj]; simpl.
  - constructor; constructor.
  - destruct (k =? j) eqn:He.
    + constructor; assumption.
    + destruct (k <? j) eqn:Hlt.
      * apply Z.ltb_lt in Hlt. constructor.
        -- constructor; assumption.
        -- constructor; [exact Hlt|].
           eapply Forall_impl; [|exact Hj]. unfold key_lt. simpl.
           intros e He'. lia.
      * constructor; [assumption|].
        apply (bump_above (fun x => j < x)); [|exact Hj].
        apply Z.eqb_neq in He. apply Z.ltb_ge in Hlt. lia.
Qed.

Lemma sorted_keys_NoDup o :
  StronglySorted key_lt o -> NoDup (map fst o).
Proof.
  intro Ho. induction Ho as [|a o Ho IH Ha]; simpl; constructor;
    [|assumption].
  intro Hin. apply in_map_iff in Hin as (e & He & Hin).
  rewrite Forall_forall in Ha. specialize (Ha e Hin).
  unfold key_lt in Ha. lia.
Qed.

Lemma dropStockUpdates_keys now db :
  NoDup (map fst (dropStockUpdates_at now db)).
Proof.
  apply sorted_keys_NoDup.
  unfold dropStockUpdates_at. rewrite mark_expired_spec. simpl snd.
  generalize (Reservation_findAll (due now) db).
  assert (H : StronglySorted key_lt []) by constructor.
  revert H. generalize (@nil (Z * Z)).
  intros o Ho l. revert o Ho.
  induction l as [|r l IH]; intros o Ho; simpl; [assumption|].
  apply IH. now apply bump_sorted.
Qed.

(** C8.  In a store whose ids are unique, a tick either commits or rolls
    back.  When it commits, every reservation that was [active] with
    [expires_at] before now reads [expired] and no other reservation differs;
    every drop has its stock raised by the number of its reservations that
    the tick expired (reservations that were [expired] or [completed] are not
    counted), through at most one entry of [dropStockUpdates] per drop; the
    purchases stay.  When it rolls back, on any error, the store is the one
    the tick found.  A tick that selects no reservation commits at once and
    changes nothing.  The last part reads the rows field by field: the
    stocks after the tick are the stocks before plus the numbers returned,
    the statuses are [expired] where the reservation was due and what they
    were elsewhere, and no other field of a drop or a reservation differs. *)
Theorem processExpiredReservations_tick :
  forall (io : socket) (now : Z) (db : DB)
         (result : tick) (db' : DB) (log : list effect),
    NoDup (map Reservation.id (reservations db)) ->
    NoDup (map Drop.id (drops db)) ->
    processExpiredReservations io now db = (result, db', log) ->
    match result with
    | Committed =>
        db' =
        mkDB (map (credit now db) (drops db))
          (map (expire_due now) (reservations db))
          (purchases db)
          (drops_seq db) (reservations_seq db) (purchases_seq db)
    | RolledBack _ => db' = db
    end
    /\ (forall k, tally k (dropStockUpdates_at now db) = returned now db k)
    /\ NoDup (map fst (dropStockUpdates_at now db))
    /\ (forall r, Reservation.status r <> Reservation.active ->
                  due now r = false /\ expire_due now r = r)
    /\ (Reservation_findAll (due now) db = [] ->
        result = Committed /\ db' = db /\ log = [TxBegin; TxCommit])
    /\ (result = Committed ->
        map Drop.stock (drops db')
        = map (fun d => Drop.stock d + returned now db (Drop.id d))
            (drops db)
        /\ map Drop.id (drops db') = map Drop.id (drops db)
        /\ map Drop.name (drops db') = map Drop.name (drops db)
        /\ map Drop.price (drops db') = map Drop.price (drops db)
        /\ map Drop.initial_stock (drops db')
           = map Drop.initial_stock (drops db)
        /\ map Drop.drop_start_time (drops db')
           = map Drop.drop_start_time (drops db)
        /\ map Reservation.status (reservations db')
           = map (fun r => if due now r then Reservation.expired
                           else Reservation.status r)
               (reservations db)
        /\ map Reservation.id (reservations db')
           = map Reservation.id (reservations db)
        /\ map Reservation.user_id (reservations db')
           = map Reservation.user_id (reservations db)
        /\ map Reservation.drop_id (reservations db')
           = map Reservation.drop_id (reservations db)
        /\ map Reservation.expires_at (reservations db')
           = map Reservation.expires_at (reservations db)
        /\ purchases db' = purchases db).
Proof.
  intros io now db result db' log Hr Hd Hrun.
  assert (Hstore :
    match result with
    | Committed =>
        db' =
        mkDB (map (credit now db) (drops db))
          (map (expire_due now) (reservations db))
          (purchases db)
          (drops_seq db) (reservations_seq db) (purchases_seq db)
    | RolledBack _ => db' = db
    end);
    [|split; [exact Hstore|split; [|split; [|split; [|split]]]]].
  - revert Hrun. unfold processExpiredReservations.
    pose proof (mark_expired_spec (Reservation_findAll (due now) db) db [])
      as Hmark.
    pose proof (fun k => tally_returned now db k) as Htally.
    unfold dropStockUpdates_at in Htally.
    destruct (Reservation_findAll (due now) db) as [|r0 l0] eqn:Hall.
    + intros [= <- <- _]. destruct db as [ds rs ps n1 n2 n3]. simpl in *.
      f_equal.
      * rewrite <- (map_id ds) at 1. apply map_ext. intro d.
        unfold credit. replace (returned now _ (Drop.id d)) with 0.
        -- now rewrite set_stock_same.
        -- rewrite <- Htally. reflexivity.
      * unfold Reservation_findAll in Hall. simpl in Hall.
        rewrite <- (map_id rs) at 1. apply map_ext_in. intros r Hin.
        unfold expire_due. destruct (due now r) eqn:Hdue; [|reflexivity].
        assert (Hf : In r (filter (due now) rs))
          by (apply filter_In; auto).
        rewrite Hall in Hf. contradiction.
    + destruct (mark_expired (r0 :: l0) db []) as [db1 o] eqn:Hm.
      injection Hmark as -> ->.
      destruct (return_stock io _ _) as [[e|db2] log1] eqn:Hret.
      * now intros [= <- <- _].
      * intros [= <- <- _].
        apply return_stock_spec in Hret; [|exact Hd].
        rewrite Hret. unfold with_drops, with_reservations. simpl.
        f_equal.
        -- apply map_ext. intro d. unfold credit.
           now rewrite <- Htally.
        -- rewrite <- Hall. unfold Reservation_findAll.
           now apply mark_rows_due.
  - apply tally_returned.
  - apply dropStockUpdates_keys.
  - intros r Hst. unfold expire_due, due.
    destruct (Reservation.status r); [contradiction| |]; auto.
  - intro Hnone. revert Hrun. unfold processExpiredReservations.
    rewrite Hnone. now intros [= <- <- <-].
  - intros ->. rewrite Hstore. simpl. rewrite !map_map.
    assert (Hrow : forall r,
              Reservation.status (expire_due now r)
              = (if due now r then Reservation.expired
                 else Reservation.status r)
              /\ Reservation.id (expire_due now r) = Reservation.id r
              /\ Reservation.user_id (expire_due now r)
                 = Reservation.user_id r
              /\ Reservation.drop_id (expire_due now r)
                 = Reservation.drop_id r
              /\ Reservation.expires_at (expire_due now r)
                 = Reservation.expires_at r).
    { intro r. unfold expire_due. destruct (due now r); simpl; auto. }
    repeat split; try reflexivity; apply map_ext; intro x;
      try reflexivity; apply Hrow.
Qed.

Lemma processExpiredReservations_tick_witness :
  (snd (fst (processExpiredReservations listening 70000 shop)) =
   mkDB (map (credit 70000 shop) (drops shop))
     (map (expire_due 70000) (reservations shop))
     (purchases shop) (drops_seq shop) (reservations_seq shop)
     (purchases_seq shop)
   /\ returned 70000 shop 1 = 2)
  /\ (due 70000 (Reservation.mk 2 8 3 Reservation.completed 60020) = false
      /\ expire_due 70000 (Reservation.mk 2 8 3 Reservation.completed 60020) =
         Reservation.mk 2 8 3 Reservation.completed 60020)
  /\ processExpiredReservations listening 70 shop =
     (Committed, shop, [TxBegin; TxCommit])
  /\ (map Drop.stock
        (drops (snd (fst (processExpiredReservations listening 70000 shop))))
      = [2; 3; 4]
      /\ map Reservation.status
           (reservations
              (snd (fst (processExpiredReservations listening 70000 shop))))
         = [Reservation.expired; Reservation.completed; Reservation.expired;
            Reservation.expired]).
Proof.
  assert (Hr : NoDup (map Reservation.id (reservations shop))).
  { simpl. repeat constructor; simpl; intuition discriminate. }
  assert (Hd : NoDup (map Drop.id (drops shop))).
  { simpl. repeat constructor; simpl; intuition discriminate. }
  split; [|split; [|split]].
  - destruct (processExpiredReservations_tick listening 70000 shop
                Committed _ _ Hr Hd eq_refl) as (Hdb & Htally & _).
    split; [exact Hdb|]. rewrite <- Htally. reflexivity.
  - destruct (processExpiredReservations_tick listening 70000 shop
                Committed _ _ Hr Hd eq_refl) as (_ & _ & _ & Hterm & _).
    apply Hterm. discriminate.
  - destruct (processExpiredReservations_tick listening 70 shop
                Committed shop [TxBegin; TxCommit] Hr Hd eq_refl)
      as (_ & _ & _ & _ & Hnone & _).
    destruct (Hnone eq_refl) as (_ & _ & _). reflexivity.
  - destruct (processExpiredReservations_tick listening 70000 shop
                Committed _ _ Hr Hd eq_refl) as (_ & _ & _ & _ & _ & Hrows).
    destruct (Hrows eq_refl)
      as (Hstock & _ & _ & _ & _ & _ & Hstatus & _).
    split.
    + exact Hstock.
    + exact Hstatus.
Defined.

Lemma bump_positive k o :
  Forall (fun e => 0 < snd e) o -> Forall (fun e => 0 < snd e) (bump k o).
Proof.
  intro Ho. induction Ho as [|[j n] o Hj Ho IH]; simpl.
  - constructor; [simpl; lia | constructor].
  - simpl in Hj. destruct (k =? j).
    + constructor; [simpl; lia | assumption].
    + destruct (k <? j).
      * constructor; [simpl; lia|]. constructor; assumption.
      * constructor; assumption.
Qed.

Lemma dropStockUpdates_positive now db :
  Forall (fun e => 0 < snd e) (dropStockUpdates_at now db).
Proof.
  unfold dropStockUpdates_at. rewrite mark_expired_spec. simpl snd.
  generalize (Reservation_findAll (due now) db).
  assert (H : Forall (fun e : Z * Z => 0 < snd e) []) by constructor.
  revert H. generalize (@nil (Z * Z)).
  intros o Ho l. revert o Ho.
  induction l as [|r l IH]; intros o Ho; simpl; [assumption|].
  apply IH. now apply bump_positive.
Qed.

Lemma tally_absent k o : ~ In k (map fst o) -> tally k o = 0.
Proof.
  induction o as [|[j n] o IH]; simpl; intro H; [reflexivity|].
  assert (Hj : (j =? k) = false) by (apply Z.eqb_neq; tauto).
  rewrite Hj, IH; tauto.
Qed.

Lemma tally_entry k n o :
  NoDup (map fst o) -> In (k, n) o -> tally k o = n.
Proof.
  induction o as [|[j m] o IH]; simpl; intros Hnd Hin; [contradiction|].
  inversion Hnd as [|? ? Hj Ho]; subst.
  destruct Hin as [[= -> ->]|Hin].
  - rewrite Z.eqb_refl, tally_absent by assumption. lia.
  - assert (Hjk : (j =? k) = false).
    { apply Z.eqb_neq. intros ->. apply Hj.
      change k with (fst (k, n)). now apply in_map. }
    rewrite Hjk, IH by assumption. lia.
Qed.

Lemma return_stock_commits io entries : forall db,
  reliable io ->
  NoDup (map fst entries) ->
  (forall k n drop,
      In (k, n) entries -> Drop_findByPk k db = Some drop ->
      0 < n /\ 0 <= Drop.stock drop
      /\ Drop.stock drop + n <= Drop.initial_stock drop) ->
  exists db2 log, return_stock io entries db = (inr db2, log).
Proof.
  intros db Hio. revert db.
  induction entries as [|[k n] rest IH]; intros db Hnd Hroom; simpl.
  - eauto.
  - inversion Hnd as [|? ? Hk Hrest]; subst.
    destruct (Drop_findByPk k db) as [drop|] eqn:Hdrop.
    + destruct (Hroom k n drop (or_introl eq_refl) Hdrop) as (Hn & H0 & Hle).
      rewrite Drop_save_stock by lia.
      emit_reliably io Hio.
      destruct (IH (with_drops db
                      (map (Drop_write
                              (Drop.set_stock drop (Drop.stock drop + n)))
                         (drops db))) Hrest) as (db2 & log & Hret).
      * intros k' n' drop' Hin Hfind.
        apply (Hroom k' n' drop'); [now right|].
        rewrite <- Hfind. unfold Drop_findByPk. simpl.
        symmetry. apply find_not_written. simpl.
        apply findByPk_some in Hdrop as [_ ->].
        intros ->. apply Hk. change k with (fst (k, n')). now apply in_map.
      * rewrite Hret. eauto.
    + apply IH; [assumption|]. intros k' n' drop' Hin.
      apply Hroom. now right.
Qed.

(** A tick commits when the socket is reliable and every drop has room for
    what comes back to it. *)
Lemma processExpiredReservations_commits io now db :
  reliable io ->
  (forall d, In d (drops db) ->
             0 <= Drop.stock d
             /\ Drop.stock d + returned now db (Drop.id d)
                <= Drop.initial_stock d) ->
  exists db' log,
    processExpiredReservations io now db = (Committed, db', log).
Proof.
  intros Hio Hroom. unfold processExpiredReservations.
  pose proof (dropStockUpdates_keys now db) as Hkeys.
  pose proof (dropStockUpdates_positive now db) as Hpos.
  pose proof (fun k => tally_returned now db k) as Htally.
  unfold dropStockUpdates_at in *.
  destruct (Reservation_findAll (due now) db) as [|r0 l0]; [eauto|].
  destruct (mark_expired (r0 :: l0) db []) as [db1 o] eqn:Hm.
  pose proof (mark_expired_spec (r0 :: l0) db []) as Hspec.
  rewrite Hm in Hspec. injection Hspec as Hdb1 Ho.
  simpl snd in *.
  destruct (return_stock_commits io o db1 Hio Hkeys) as (db2 & log & Hret).
  - intros k n drop Hin Hfind. rewrite Forall_forall in Hpos.
    split; [exact (Hpos (k, n) Hin)|].
    rewrite Hdb1 in Hfind.
    change (Drop_findByPk k db = Some drop) in Hfind.
    apply findByPk_some in Hfind as [Hd Hid].
    destruct (Hroom drop Hd) as [H0 Hle]. split; [assumption|].
    rewrite Hid, <- Htally in Hle.
    now rewrite (tally_entry k n o Hkeys Hin) in Hle.
  - rewrite Hret. eauto.
Qed.

(** ** Primary keys of the reachable stores *)

Lemma keys_below_app seq ids :
  keys_below seq ids -> keys_below (seq + 1) (ids ++ [seq]).
Proof.
  intros [Hnd Hlt]. split.
  - rewrite Forall_forall in Hlt.
    clear - Hnd Hlt. induction ids as [|k ids IH]; simpl.
    + constructor; [auto | constructor].
    + inversion Hnd as [|? ? Hk Hids]; subst. constructor.
      * intro Hin. apply in_app_or in Hin as [Hin|[Heq|[]]]; [auto|].
        specialize (Hlt k (or_introl eq_refl)). lia.
      * apply IH; [assumption|]. intros x Hx. apply Hlt. now right.
  - apply Forall_app. split.
    + eapply Forall_impl; [|exact Hlt]. intros k Hk. simpl in Hk. lia.
    + constructor; [lia | constructor].
Qed.

Lemma keys_below_filter {A : Type} (key : A -> Z) (q : A -> bool) seq l :
  keys_below seq (map key l) -> keys_below seq (map key (filter q l)).
Proof.
  intros [Hnd Hlt]. induction l as [|x l IH]; simpl in *; [now split|].
  inversion Hnd as [|? ? Hx Hl]; subst.
  inversion Hlt as [|? ? Hx' Hl']; subst.
  destruct (IH Hl Hl') as [IH1 IH2].
  destruct (q x); simpl; [|now split].
  split; constructor; auto.
  intro Hin. apply Hx. apply in_map_iff in Hin as (y & Hy & Hin).
  apply filter_In in Hin as [Hin _]. rewrite <- Hy. now apply in_map.
Qed.

Lemma Drop_save_keyed loaded d db db1 :
  Drop_save loaded d db = inr db1 -> keyed db -> keyed db1.
Proof.
  intros H Hk. apply Drop_save_inr in H as (-> & _).
  unfold keyed in *. simpl. now rewrite map_id_Drop_write.
Qed.

Lemma Reservation_save_status_keyed r s db :
  keyed db -> keyed (Reservation_save_status r s db).
Proof.
  unfold keyed. simpl. now rewrite map_id_Reservation_write.
Qed.

Lemma return_stock_keyed io entries : forall db db2 log,
  return_stock io entries db = (inr db2, log) -> keyed db -> keyed db2.
Proof.
  induction entries as [|[k n] rest IH]; intros db db2 log; simpl.
  - now intros [= <- _].
  - destruct (Drop_findByPk k db) as [drop|]; [|apply IH].
    destruct (Drop_save _ _ db) as [e|db1] eqn:Hsave; [discriminate|].
    destruct (io_emit io _) as [emitted [|]]; [|discriminate].
    destruct (return_stock io rest db1) as [r log1] eqn:Hrest.
    intros [= -> _] Hk. eapply IH; [exact Hrest|].
    eapply Drop_save_keyed; eauto.
Qed.

Lemma serve_keyed env io t rq db : keyed db -> keyed (serve env io t rq db).
Proof.
  intro Hk.
  destruct rq as [name price stock initial start | id updates | id
                 | userId dropId | userId id | userId id | ]; simpl.
  - destruct (validateCreateDrop _ _ _ _); [|exact Hk].
    unfold createDrop, Drop_create, store_of.
    destruct (Drop.validate_new _); [|exact Hk].
    destruct (io_emit io _) as [emitted ok]. simpl.
    destruct Hk as [Hd Hr]. split; [|exact Hr]. simpl.
    rewrite map_app. simpl. now apply keys_below_app.
  - unfold updateDrop, store_of.
    destruct (Drop_findByPk id db) as [drop|]; [|exact Hk].
    destruct (Drop_save _ _ db) as [e|db1] eqn:Hsave; [exact Hk|].
    destruct (io_emit io _) as [emitted ok]. simpl.
    eapply Drop_save_keyed; eauto.
  - unfold deleteDrop, store_of.
    destruct (Drop_findByPk id db) as [drop|]; [|exact Hk].
    destruct (io_emit io _) as [emitted ok]. simpl.
    destruct Hk as [Hd Hr]. split; simpl; now apply keys_below_filter.
  - unfold reserveItem, rolled_back, store_of.
    destruct (Reservation_findOne _ db); [exact Hk|].
    destruct (Drop_findByPk dropId db) as [drop|]; [|exact Hk].
    destruct (negb (Drop.hasStarted t drop)); [exact Hk|].
    destruct (Drop.stock drop <=? 0); [exact Hk|].
    destruct (Drop_save _ _ db) as [e|db1] eqn:Hsave; [exact Hk|].
    destruct (Reservation_create _ _ _ _ db1) as [e|[r db2]] eqn:Hcreate;
      [exact Hk|].
    destruct (io_emit io _) as [emitted ok]. simpl.
    apply Reservation_create_inr in Hcreate as (-> & -> & _).
    apply (Drop_save_keyed _ _ _ _ Hsave) in Hk. destruct Hk as [Hd Hr].
    split; [exact Hd|]. simpl. rewrite map_app. simpl.
    now apply keys_below_app.
  - unfold cancelReservation, rolled_back, store_of.
    destruct (Reservation_findOne _ db) as [h|]; [|exact Hk].
    destruct (Drop_findByPk _ _) as [drop|].
    + destruct (Drop_save _ _ _) as [e|db2] eqn:Hsave; [exact Hk|].
      destruct (io_emit io _) as [emitted ok]. simpl.
      eapply Drop_save_keyed; [exact Hsave|].
      now apply Reservation_save_status_keyed.
    + simpl. now apply Reservation_save_status_keyed.
  - unfold completePurchase, rolled_back, store_of.
    destruct (Reservation_findOne _ db) as [h|]; [|exact Hk].
    destruct (Reservation.isExpired t h); [exact Hk|].
    destruct (Drop_findByPk _ db) as [drop|]; [|exact Hk].
    destruct (Purchase_create _ _ _ _ _) as [e|[p db2]] eqn:Hp; [exact Hk|].
    destruct (io_emit io _) as [emitted ok]. simpl.
    apply Purchase_create_inr in Hp as (_ & ->).
    apply (Reservation_save_status_keyed h Reservation.completed) in Hk.
    exact Hk.
  - unfold processExpiredReservations.
    destruct (Reservation_findAll (due t) db) as [|r0 l0]; [exact Hk|].
    rewrite mark_expired_spec.
    destruct (return_stock io _ _) as [[e|db2] log1] eqn:Hret; [exact Hk|].
    simpl. eapply return_stock_keyed; [exact Hret|].
    destruct Hk as [Hd Hr]. split; [exact Hd|]. simpl.
    rewrite map_map. erewrite map_ext; [exact Hr|].
    intro x. apply mark_row_id.
Qed.

(** The hypotheses on ids made above hold in every store the server can
    reach. *)
Lemma reachable_keyed t db :
  reachable t db ->
  NoDup (map Drop.id (drops db))
  /\ NoDup (map Reservation.id (reservations db)).
Proof.
  intro H. assert (Hk : keyed db).
  { induction H as [t | t t' db env io rq Hreach IH Ht].
    - repeat split; constructor.
    - now apply serve_keyed. }
  destruct Hk as [[Hd _] [Hr _]]. now split.
Qed.

(** ** One active reservation per user and drop *)

Lemma settles_id : settles (fun r => r).
Proof. intro x. now left. Qed.

Lemma settles_write r :
  Reservation.status r <> Reservation.active -> settles (Reservation_write r).
Proof.
  intros Hr x. unfold Reservation_write.
  destruct (Reservation.id x =? Reservation.id r); [now right | now left].
Qed.

Lemma settles_mark_row l : settles (mark_row l).
Proof.
  unfold mark_row.
  induction l as [|r l IH]; intro x; simpl; [now left|].
  destruct (IH (Reservation_write
                  (Reservation.set_status r Reservation.expired) x))
    as [Heq|Hst]; [|now right].
  rewrite Heq. apply settles_write. simpl. discriminate.
Qed.

Lemma settled_keeps_single f now rows :
  settles f ->
  forall userId dropId,
    (List.length (filter (duplicate_of now userId dropId) (map f rows))
     <= List.length (filter (duplicate_of now userId dropId) rows))%nat.
Proof.
  intros Hf userId dropId. apply filter_map_length_le. intros x Hx.
  destruct (Hf x) as [Heq|Hst].
  - now rewrite Heq in Hx.
  - apply duplicate_of_active in Hx. contradiction.
Qed.

Lemma settled_active_kept f rows r :
  settles f -> In r (map f rows) ->
  Reservation.status r = Reservation.active -> In r rows.
Proof.
  intros Hf Hin Hst. apply in_map_iff in Hin as (x & <- & Hx).
  destruct (Hf x) as [Heq|Hne]; [now rewrite Heq | contradiction].
Qed.

Lemma createDrop_reservations io name price stock initial start db :
  reservations (store_of (createDrop io name price stock initial start db)) =
  reservations db.
Proof.
  unfold createDrop, Drop_create, store_of.
  destruct (Drop.validate_new _); [|reflexivity].
  now destruct (io_emit io _) as [emitted ok].
Qed.

Lemma updateDrop_reservations io id updates db :
  reservations (store_of (updateDrop io id updates db)) = reservations db.
Proof.
  unfold updateDrop, store_of.
  destruct (Drop_findByPk id db) as [drop|]; [|reflexivity].
  destruct (Drop_save _ _ db) as [e|db1] eqn:Hsave; [reflexivity|].
  destruct (io_emit io _) as [emitted ok]. simpl.
  eapply Drop_save_reservations; eauto.
Qed.

Lemma deleteDrop_reservations io id db :
  reservations (store_of (deleteDrop io id db)) = reservations db
  \/ exists q, reservations (store_of (deleteDrop io id db)) =
               filter q (reservations db).
Proof.
  unfold deleteDrop, store_of.
  destruct (Drop_findByPk id db) as [drop|]; [|now left].
  destruct (io_emit io _) as [emitted ok]. simpl. right. eauto.
Qed.

Lemma reserveItem_reservations env io now userId dropId db :
  reservations (store_of (reserveItem env io now userId dropId db)) =
  reservations db
  \/ (Reservation_findOne (duplicate_of now userId dropId) db = None
      /\ reservations (store_of (reserveItem env io now userId dropId db)) =
         reservations db
         ++ [Reservation.mk (reservations_seq db) userId dropId
               Reservation.active (now + reservationDuration env)]).
Proof.
  unfold reserveItem, rolled_back, store_of.
  destruct (Reservation_findOne _ db) eqn:Hdup; [now left|].
  destruct (Drop_findByPk dropId db) as [drop|]; [|now left].
  destruct (negb (Drop.hasStarted now drop)); [now left|].
  destruct (Drop.stock drop <=? 0); [now left|].
  destruct (Drop_save _ _ db) as [e|db1] eqn:Hsave; [now left|].
  destruct (Reservation_create _ _ _ _ db1) as [e|[r db2]] eqn:Hcreate;
    [now left|].
  destruct (io_emit io _) as [emitted ok]. simpl.
  apply Reservation_create_inr in Hcreate as (-> & -> & _).
  apply Drop_save_inr in Hsave as (-> & _). simpl.
  right. split; reflexivity.
Qed.

Lemma cancelReservation_reservations io userId id db :
  exists f, settles f
    /\ reservations (store_of (cancelReservation io userId id db)) =
       map f (reservations db).
Proof.
  unfold cancelReservation, rolled_back, store_of.
  destruct (Reservation_findOne _ db) as [h|].
  2:{ exists (fun r => r). split; [apply settles_id|]. simpl.
      now rewrite map_id. }
  destruct (Drop_findByPk _ _) as [drop|].
  - destruct (Drop_save _ _ _) as [e|db2] eqn:Hsave.
    + exists (fun r => r). split; [apply settles_id|]. simpl.
      now rewrite map_id.
    + destruct (io_emit io _) as [emitted ok]. simpl.
      apply Drop_save_reservations in Hsave. rewrite Hsave.
      eexists. split; [|reflexivity]. apply settles_write. discriminate.
  - simpl. eexists. split; [|reflexivity]. apply settles_write. discriminate.
Qed.

Lemma completePurchase_reservations io now userId id db :
  exists f, settles f
    /\ reservations (store_of (completePurchase io now userId id db)) =
       map f (reservations db).
Proof.
  unfold completePurchase, rolled_back, store_of.
  assert (Hsame : exists f, settles f
                    /\ reservations db = map f (reservations db)).
  { exists (fun r => r). split; [apply settles_id|]. now rewrite map_id. }
  destruct (Reservation_findOne _ db) as [h|]; [|exact Hsame].
  destruct (Reservation.isExpired now h); [exact Hsame|].
  destruct (Drop_findByPk _ db) as [drop|]; [|exact Hsame].
  destruct (Purchase_create _ _ _ _ _) as [e|[p db2]] eqn:Hp; [exact Hsame|].
  destruct (io_emit io _) as [emitted ok]. simpl.
  apply Purchase_create_inr in Hp as (_ & ->). simpl.
  eexists. split; [|reflexivity]. apply settles_write. discriminate.
Qed.

Lemma processExpiredReservations_reservations io now db :
  exists f, settles f
    /\ reservations (snd (fst (processExpiredReservations io now db))) =
       map f (reservations db).
Proof.
  unfold processExpiredReservations.
  assert (Hsame : exists f, settles f
                    /\ reservations db = map f (reservations db)).
  { exists (fun r => r). split; [apply settles_id|]. now rewrite map_id. }
  destruct (Reservation_findAll (due now) db) as [|r0 l0]; [exact Hsame|].
  rewrite mark_expired_spec.
  destruct (return_stock io _ _) as [[e|db2] log1] eqn:Hret; [exact Hsame|].
  simpl. apply return_stock_reservations in Hret. rewrite Hret. simpl.
  eexists. split; [|reflexivity]. apply settles_mark_row.
Qed.

Lemma single_active_later t t' db :
  t <= t' -> single_active t db -> single_active t' db.
Proof.
  intros Ht H userId dropId.
  eapply Nat.le_trans; [|apply (H userId dropId)].
  apply filter_length_le. intros x _. now apply duplicate_of_later.
Qed.

Lemma single_active_settled f t db rows :
  settles f -> rows = map f (reservations db) ->
  single_active t db ->
  forall userId dropId,
    (List.length (filter (duplicate_of t userId dropId) rows) <= 1)%nat.
Proof.
  intros Hf -> H userId dropId.
  eapply Nat.le_trans; [now apply settled_keeps_single|apply H].
Qed.

Lemma serve_single_active env io t rq db :
  single_active t db -> single_active t (serve env io t rq db).
Proof.
  intro H. destruct rq as [name price stock initial start | id updates | id
                          | userId dropId | userId id | userId id | ];
    simpl; intros u d.
  - destruct (validateCreateDrop _ _ _ _); [|apply H].
    rewrite createDrop_reservations. apply H.
  - rewrite updateDrop_reservations. apply H.
  - destruct (deleteDrop_reservations io id db) as [-> | [q ->]]; [apply H|].
    eapply Nat.le_trans; [apply filter_filter_length_le | apply H].
  - destruct (reserveItem_reservations env io t userId dropId db)
      as [-> | [Hnone ->]]; [apply H|].
    rewrite filter_app, length_app. simpl.
    destruct (duplicate_of t u d _) eqn:Hnew.
    + unfold duplicate_of in Hnew. simpl in Hnew.
      apply andb_true_iff in Hnew as [Hnew _].
      apply andb_true_iff in Hnew as [Hnew _].
      apply andb_true_iff in Hnew as [Hu Hd].
      apply Z.eqb_eq in Hu, Hd. subst u d.
      unfold Reservation_findOne in Hnone.
      rewrite (find_none_filter _ _ Hnone). simpl. lia.
    + simpl. rewrite Nat.add_0_r. apply H.
  - destruct (cancelReservation_reservations io userId id db)
      as (f & Hf & Hrows).
    eapply single_active_settled; eauto.
  - destruct (completePurchase_reservations io t userId id db)
      as (f & Hf & Hrows).
    eapply single_active_settled; eauto.
  - destruct (processExpiredReservations_reservations io t db)
      as (f & Hf & Hrows).
    eapply single_active_settled; eauto.
Qed.

Lemma reachable_single_active t db : reachable t db -> single_active t db.
Proof.
  induction 1 as [t | t t' db env io rq Hreach IH Ht].
  - intros u d. simpl. lia.
  - apply serve_single_active. eapply single_active_later; eauto.
Qed.

(** Requests served one after the other.  In every store reached that
    way, at the time it is reached, each user has at most one reservation of
    each drop that is [active] with [expires_at] in the future.  A
    reservation request made while the user holds such a reservation leaves
    the store as it is, and every active reservation found after any other
    request, or after a tick of the cron job, was there before it. *)
Theorem single_active_hold :
  (forall (t : Z) (db : DB),
      reachable t db ->
      forall userId dropId,
        (List.length
           (filter (duplicate_of t userId dropId) (reservations db))
         <= 1)%nat)
  /\ (forall env io now userId dropId db r,
         In r (reservations db) ->
         duplicate_of now userId dropId r = true ->
         store_of (reserveItem env io now userId dropId db) = db)
  /\ (forall env io t rq db r,
         (forall userId dropId, rq <> POST_reservations userId dropId) ->
         In r (reservations (serve env io t rq db)) ->
         Reservation.status r = Reservation.active ->
         In r (reservations db)).
Proof.
  split; [|split].
  - intros t db H. now apply reachable_single_active.
  - intros env io now userId dropId db r Hin Hdup.
    unfold reserveItem, Reservation_findOne.
    destruct (find _ (reservations db)) eqn:Hf; [reflexivity|].
    now rewrite (find_none _ _ Hf r Hin) in Hdup.
  - intros env io t rq db r Hrq.
    destruct rq as [name price stock initial start | id updates | id
                   | userId dropId | userId id | userId id | ]; simpl.
    + destruct (validateCreateDrop _ _ _ _); [|auto].
      rewrite createDrop_reservations. auto.
    + rewrite updateDrop_reservations. auto.
    + destruct (deleteDrop_reservations io id db) as [-> | [q ->]]; [auto|].
      intros Hin _. now apply filter_In in Hin.
    + now destruct (Hrq userId dropId).
    + destruct (cancelReservation_reservations io userId id db)
        as (f & Hf & ->). now apply settled_active_kept.
    + destruct (completePurchase_reservations io t userId id db)
        as (f & Hf & ->). now apply settled_active_kept.
    + destruct (processExpiredReservations_reservations io t db)
        as (f & Hf & ->). now apply settled_active_kept.
Qed.

Lemma single_active_hold_witness :
  (List.length
     (filter (duplicate_of 10 7 1)
        (reservations
           (serve None listening 10 (POST_reservations 7 1)
              (serve None listening 0
                 (POST_drops "Air Max 90" 19999 2 2 None) empty_db))))
   <= 1)%nat
  /\ store_of (reserveItem None listening 70 7 1 shop) = shop
  /\ In (Reservation.mk 3 7 1 Reservation.active 60050) (reservations shop).
Proof.
  split; [|split].
  - apply (proj1 single_active_hold 10).
    apply (reachable_serve 0 10); [|lia].
    apply (reachable_serve 0 0); [|lia].
    apply reachable_empty.
  - apply (proj1 (proj2 single_active_hold) None listening 70 7 1 shop
             (Reservation.mk 3 7 1 Reservation.active 60050)).
    + simpl. auto.
    + reflexivity.
  - apply (proj2 (proj2 single_active_hold) None listening 70
             (POST_purchases 8 4) shop).
    + discriminate.
    + simpl. auto.
    + reflexivity.
Defined.

(** ** The sample stores are reachable *)

Lemma replay_reachable script : forall t db,
  reachable t db -> chronological t script = true ->
  reachable (ends_at t script) (replay script db).
Proof.
  induction script as [|[t' rq] script IH]; intros t db Hreach Hchron.
  - exact Hreach.
  - simpl in Hchron. apply andb_true_iff in Hchron as [Ht Hrest].
    apply Z.leb_le in Ht.
    change (replay ((t', rq) :: script) db)
      with (replay script (serve None listening t' rq db)).
    change (ends_at t ((t', rq) :: script)) with (ends_at t' script).
    apply IH; [|exact Hrest].
    now apply (reachable_serve t t').
Qed.

Example shop_reachable : reachable 60 shop.
Proof.
  apply (replay_reachable opening 0 empty_db); [constructor|reflexivity].
Qed.

Example restocked_reachable : reachable 30 restocked.
Proof.
  apply (replay_reachable restocking 0 empty_db); [constructor|reflexivity].
Qed.

(** ** Two reservation requests at once *)

Lemma reserveItem_phases env io now userId dropId db :
  reserveItem env io now userId dropId db
  = match Reservation_findOne (duplicate_of now userId dropId) db with
    | Some _ =>
        rolled_back
          (Failure 400 "You already have an active reservation for this drop")
          db
    | None => reserveItem_locked env io now userId dropId db
    end.
Proof. reflexivity. Qed.

(** When the first run is over before the second starts, the two runs are
    the handler served twice. *)
Lemma reserveItem_twice_in_turn env io now1 now2 user1 user2 dropId db :
  Reservation_findOne (duplicate_of now2 user2 dropId)
    (store_of (reserveItem env io now1 user1 dropId db))
  = Reservation_findOne (duplicate_of now2 user2 dropId) db ->
  reserveItem_twice env io now1 now2 user1 user2 dropId db
  = (reserveItem env io now1 user1 dropId db,
     reserveItem env io now2 user2 dropId
       (store_of (reserveItem env io now1 user1 dropId db))).
Proof.
  intro H. unfold reserveItem_twice. rewrite !reserveItem_phases.
  rewrite reserveItem_phases in H. now rewrite H.
Qed.

(** C2.  The invariant does not survive two requests of one user that
    arrive together.  On the reachable store [shop], user 9 asks twice for
    drop 3 at the same moment: both runs read the reservations before either
    has written, both find none, both are answered 201, and the store holds
    two active reservations of user 9 for drop 3 with their deadline in the
    future; two units of stock are gone.  Served in turn, the second request
    is refused. *)
Theorem reserveItem_twice_at_once :
  reachable 60 shop
  /\ fst (fst (fst (reserveItem_twice None listening 70 70 9 9 3 shop)))
     = Success 201 (mkReserved 5 3 Reservation.active 60070 60 3 3)
  /\ fst (fst (snd (reserveItem_twice None listening 70 70 9 9 3 shop)))
     = Success 201 (mkReserved 6 3 Reservation.active 60070 60 3 2)
  /\ filter (duplicate_of 71 9 3)
       (reservations
          (store_of (snd (reserveItem_twice None listening 70 70 9 9 3 shop))))
     = [Reservation.mk 5 9 3 Reservation.active 60070;
        Reservation.mk 6 9 3 Reservation.active 60070]
  /\ ~ single_active 71
        (store_of (snd (reserveItem_twice None listening 70 70 9 9 3 shop)))
  /\ Drop_findByPk 3
       (store_of (snd (reserveItem_twice None listening 70 70 9 9 3 shop)))
     = Some (Drop.mk 3 "Dunk Low" 12000 2 5 None)
  /\ fst (fst (reserveItem None listening 70 9 3
                 (store_of (reserveItem None listening 70 9 3 shop))))
     = Failure 400 "You already have an active reservation for this drop".
Proof.
  split; [exact shop_reachable|].
  split; [reflexivity|]. split; [reflexivity|]. split; [reflexivity|].
  split; [|split; reflexivity].
  intro H. specialize (H 9 3). simpl in H. lia.
Qed.

(** ** The ceiling on stock *)

Lemma Drop_save_ceiling loaded d db db1 :
  within_ceiling db -> In loaded (drops db) ->
  Drop_save loaded d db = inr db1 -> within_ceiling db1.
Proof.
  intros Hc Hin Hsave.
  apply Drop_save_inr in Hsave as (-> & Hval & Hhook).
  assert (Hd : 0 <= Drop.stock d /\ Drop.stock d <= Drop.initial_stock d).
  { unfold Drop.beforeUpdate in Hhook.
    apply negb_true_iff, Z.ltb_ge in Hhook. split; [|assumption].
    unfold Drop.validate_changed in Hval.
    apply app_eq_nil in Hval as [_ Hval].
    apply app_eq_nil in Hval as [_ Hval].
    destruct (Drop.stock d =? Drop.stock loaded) eqn:Hs.
    - apply Z.eqb_eq in Hs. rewrite Hs. now apply Hc.
    - unfold Drop.validate_stock in Hval.
      destruct (0 <=? Drop.stock d) eqn:H0; [|discriminate].
      now apply Z.leb_le. }
  intros x Hx. simpl in Hx. apply in_map_iff in Hx as (row & <- & Hrow).
  unfold Drop_write. destruct (Drop.id row =? Drop.id d); auto.
Qed.

Lemma return_stock_ceiling io entries : forall db db2 log,
  within_ceiling db ->
  return_stock io entries db = (inr db2, log) -> within_ceiling db2.
Proof.
  induction entries as [|[k n] rest IH]; intros db db2 log Hc; simpl.
  - now intros [= <- _].
  - destruct (Drop_findByPk k db) as [drop|] eqn:Hdrop; [|now apply IH].
    destruct (Drop_save _ _ db) as [e|db1] eqn:Hsave; [discriminate|].
    destruct (io_emit io _) as [emitted [|]]; [|discriminate].
    destruct (return_stock io rest db1) as [r log1] eqn:Hrest.
    intros [= -> _]. eapply IH; [|exact Hrest].
    eapply Drop_save_ceiling; eauto. now apply findByPk_some in Hdrop.
Qed.

(** Every request keeps the ceiling, except the creation of a drop whose
    [stock] is above its [initial_stock]. *)
Lemma serve_within_ceiling env io t rq db :
  (forall name price stock initial start,
      rq = POST_drops name price stock initial start -> stock <= initial) ->
  within_ceiling db -> within_ceiling (serve env io t rq db).
Proof.
  intros Hrq Hc.
  destruct rq as [name price stock initial start | id updates | id
                 | userId dropId | userId id | userId id | ]; simpl.
  - destruct (validateCreateDrop _ _ _ _); [|exact Hc].
    unfold createDrop, Drop_create, store_of.
    destruct (Drop.validate_new _) eqn:Hval; [|exact Hc].
    destruct (io_emit io _) as [emitted ok]. simpl.
    intros d Hd. simpl in Hd. apply in_app_or in Hd as [Hd|[<-|[]]];
      [now apply Hc|]. simpl.
    unfold Drop.validate_new in Hval.
    apply app_eq_nil in Hval as [_ Hval].
    apply app_eq_nil in Hval as [_ Hval].
    apply app_eq_nil in Hval as [Hval _].
    unfold Drop.validate_stock in Hval. simpl in Hval.
    destruct (0 <=? stock) eqn:H0; [|discriminate].
    apply Z.leb_le in H0. split; [assumption|]. eapply Hrq. reflexivity.
  - unfold updateDrop, store_of.
    destruct (Drop_findByPk id db) as [drop|] eqn:Hdrop; [|exact Hc].
    destruct (Drop_save _ _ db) as [e|db1] eqn:Hsave; [exact Hc|].
    destruct (io_emit io _) as [emitted ok]. simpl.
    eapply Drop_save_ceiling; eauto. now apply findByPk_some in Hdrop.
  - unfold deleteDrop, store_of.
    destruct (Drop_findByPk id db) as [drop|]; [|exact Hc].
    destruct (io_emit io _) as [emitted ok]. simpl.
    intros d Hd. simpl in Hd. apply filter_In in Hd as [Hd _]. now apply Hc.
  - unfold reserveItem, rolled_back, store_of.
    destruct (Reservation_findOne _ db); [exact Hc|].
    destruct (Drop_findByPk dropId db) as [drop|] eqn:Hdrop; [|exact Hc].
    destruct (negb (Drop.hasStarted t drop)); [exact Hc|].
    destruct (Drop.stock drop <=? 0); [exact Hc|].
    destruct (Drop_save _ _ db) as [e|db1] eqn:Hsave; [exact Hc|].
    destruct (Reservation_create _ _ _ _ db1) as [e|[r db2]] eqn:Hcreate;
      [exact Hc|].
    destruct (io_emit io _) as [emitted ok]. simpl.
    apply Reservation_create_inr in Hcreate as (_ & -> & _).
    intros d Hd. simpl in Hd.
    eapply Drop_save_ceiling; eauto. now apply findByPk_some in Hdrop.
  - unfold cancelReservation, rolled_back, store_of.
    destruct (Reservation_findOne _ db) as [h|]; [|exact Hc].
    change (Drop_findByPk (Reservation.drop_id h)
              (Reservation_save_status h Reservation.expired db))
      with (Drop_findByPk (Reservation.drop_id h) db).
    destruct (Drop_findByPk _ db) as [drop|] eqn:Hdrop; [|exact Hc].
    destruct (Drop_save _ _ _) as [e|db2] eqn:Hsave; [exact Hc|].
    destruct (io_emit io _) as [emitted ok]. simpl.
    eapply Drop_save_ceiling; [| |exact Hsave].
    + exact Hc.
    + simpl. now apply findByPk_some in Hdrop.
  - unfold completePurchase, rolled_back, store_of.
    destruct (Reservation_findOne _ db) as [h|]; [|exact Hc].
    destruct (Reservation.isExpired t h); [exact Hc|].
    destruct (Drop_findByPk _ db) as [drop|]; [|exact Hc].
    destruct (Purchase_create _ _ _ _ _) as [e|[p db2]] eqn:Hp; [exact Hc|].
    destruct (io_emit io _) as [emitted ok]. simpl.
    apply Purchase_create_inr in Hp as (_ & ->). exact Hc.
  - unfold processExpiredReservations.
    destruct (Reservation_findAll (due t) db) as [|r0 l0]; [exact Hc|].
    rewrite mark_expired_spec.
    destruct (return_stock io _ _) as [[e|db2] log1] eqn:Hret; [exact Hc|].
    simpl. eapply return_stock_ceiling; [|exact Hret]. exact Hc.
Qed.

(** C1, at the input where the code departs from it.  A request to create a
    drop with [stock] 10 and [initial_stock] 5 passes the validators of the
    route and of the model, no hook looks at it, and the drop is stored: a
    reachable store holds a drop whose stock is above its initial stock. *)
Theorem createDrop_above_initial_stock :
  validateCreateDrop "Air Max 90" 19999 10 5 = []
  /\ reachable 0 overfull
  /\ drops overfull = [Drop.mk 1 "Air Max 90" 19999 10 5 None]
  /\ ~ within_ceiling overfull.
Proof.
  split; [reflexivity|]. split; [|split].
  - unfold overfull. apply (reachable_serve 0 0); [|lia].
    apply reachable_empty.
  - reflexivity.
  - intro H.
    destruct (H (Drop.mk 1 "Air Max 90" 19999 10 5 None)) as [_ Hle].
    + simpl. auto.
    + simpl in Hle. lia.
Qed.

(** Once stored, the drop takes no reservation: the save of the lowered
    stock runs the hook, which throws. *)
Example reserveItem_on_overfull :
  reserveItem None listening 10 7 1 overfull =
  rolled_back (Next (HookError "Stock cannot exceed initial stock")) overfull.
Proof. reflexivity. Qed.

(** ** Socket events and the commit *)

(** The request handlers emit after their commit, and a throwing [io.emit]
    leaves the commit in place. *)
Lemma reserveItem_emits_after_commit env io now userId dropId db :
  let log := snd (reserveItem env io now userId dropId db) in
  emits_after_commit tx_none log = true
  /\ (In TxCommit log -> ~ In TxRollback log).
Proof.
  unfold reserveItem, rolled_back.
  assert (Hrb : emits_after_commit tx_none [TxBegin; TxRollback] = true
                /\ (In TxCommit [TxBegin; TxRollback] ->
                    ~ In TxRollback [TxBegin; TxRollback])).
  { split; [reflexivity|]. simpl. intuition discriminate. }
  destruct (Reservation_findOne _ db); [exact Hrb|].
  destruct (Drop_findByPk dropId db) as [drop|]; [|exact Hrb].
  destruct (negb (Drop.hasStarted now drop)); [exact Hrb|].
  destruct (Drop.stock drop <=? 0); [exact Hrb|].
  destruct (Drop_save _ _ db) as [e|db1]; [exact Hrb|].
  destruct (Reservation_create _ _ _ _ db1) as [e|[r db2]]; [exact Hrb|].
  emit_after_commit io.
Qed.

Lemma cancelReservation_emits_after_commit io userId id db :
  let log := snd (cancelReservation io userId id db) in
  emits_after_commit tx_none log = true
  /\ (In TxCommit log -> ~ In TxRollback log).
Proof.
  unfold cancelReservation, rolled_back.
  assert (Hrb : emits_after_commit tx_none [TxBegin; TxRollback] = true
                /\ (In TxCommit [TxBegin; TxRollback] ->
                    ~ In TxRollback [TxBegin; TxRollback])).
  { split; [reflexivity|]. simpl. intuition discriminate. }
  destruct (Reservation_findOne _ db) as [h|]; [|exact Hrb].
  destruct (Drop_findByPk _ _) as [drop|].
  - destruct (Drop_save _ _ _) as [e|db2]; [exact Hrb|].
    emit_after_commit io.
  - split; [reflexivity|]. simpl. intuition discriminate.
Qed.

Lemma completePurchase_emits_after_commit io now userId id db :
  let log := snd (completePurchase io now userId id db) in
  emits_after_commit tx_none log = true
  /\ (In TxCommit log -> ~ In TxRollback log).
Proof.
  unfold completePurchase, rolled_back.
  assert (Hrb : emits_after_commit tx_none [TxBegin; TxRollback] = true
                /\ (In TxCommit [TxBegin; TxRollback] ->
                    ~ In TxRollback [TxBegin; TxRollback])).
  { split; [reflexivity|]. simpl. intuition discriminate. }
  destruct (Reservation_findOne _ db) as [h|]; [|exact Hrb].
  destruct (Reservation.isExpired now h); [exact Hrb|].
  destruct (Drop_findByPk _ db) as [drop|]; [|exact Hrb].
  destruct (Purchase_create _ _ _ _ _) as [e|[p db2]]; [exact Hrb|].
  emit_after_commit io.
Qed.

(** C9, at the inputs where the code departs from it.  The cron job emits
    [stockUpdate] and [reservationExpired] inside its second loop, before its
    commit: on the sample store the two events precede [TxCommit]; on a store
    where the second drop cannot take its stock back the events of the first
    drop are followed by a rollback, the store being left as found; and when
    [io.emit] throws the tick is rolled back. *)
Theorem processExpiredReservations_emits_before_commit :
  (processExpiredReservations listening 70000 shop =
   (Committed,
    mkDB (map (credit 70000 shop) (drops shop))
      (map (expire_due 70000) (reservations shop)) (purchases shop) 4 5 2,
    [TxBegin; Emit (stockUpdate 1 2); Emit (reservationExpired 1 2);
     TxCommit])
   /\ emits_after_commit tx_none
        (snd (processExpiredReservations listening 70000 shop)) = false)
  /\ processExpiredReservations listening 70000 restocked =
     (RolledBack (HookError "Stock cannot exceed initial stock"), restocked,
      [TxBegin; Emit (stockUpdate 1 2); Emit (reservationExpired 1 1);
       TxRollback])
  /\ processExpiredReservations broken 70000 shop =
     (RolledBack EmitError, shop,
      [TxBegin; Emit (stockUpdate 1 2); TxRollback]).
Proof.
  split; [split|split]; vm_compute; reflexivity.
Qed.

(** * Further properties *)

(** ** What a request does to the store *)

Lemma tick_store now db io db2 log :
  NoDup (map Reservation.id (reservations db)) ->
  NoDup (map Drop.id (drops db)) ->
  return_stock io (dropStockUpdates_at now db)
    (fst (mark_expired (Reservation_findAll (due now) db) db []))
  = (inr db2, log) ->
  db2 =
  mkDB (map (credit now db) (drops db))
    (map (expire_due now) (reservations db)) (purchases db)
    (drops_seq db) (reservations_seq db) (purchases_seq db).
Proof.
  intros Hr Hd Hret.
  pose proof (fun k => tally_returned now db k) as Htally.
  rewrite mark_expired_spec in Hret. simpl fst in Hret.
  apply return_stock_spec in Hret; [|exact Hd].
  rewrite Hret. unfold with_drops, with_reservations. simpl. f_equal.
  - apply map_ext. intro d. unfold credit. now rewrite <- Htally.
  - unfold Reservation_findAll. now apply mark_rows_due.
Qed.

Lemma serve_change env io now rq db :
  serve env io now rq db = db
  \/ change env now db rq (serve env io now rq db).
Proof.
  destruct rq as [name price stock initial start | id updates | id
                 | userId dropId | userId id | userId id | ]; simpl.
  - destruct (validateCreateDrop _ _ _ _); [|now left].
    unfold createDrop, Drop_create, store_of.
    destruct (Drop.validate_new _) eqn:Hval; [|now left].
    destruct (io_emit io _) as [emitted ok]. simpl. right.
    now constructor.
  - unfold updateDrop, store_of.
    destruct (Drop_findByPk id db) as [drop|] eqn:Hdrop; [|now left].
    destruct (Drop_save _ _ db) as [e|db1] eqn:Hsave; [now left|].
    destruct (io_emit io _) as [emitted ok]. simpl. right.
    apply Drop_save_inr in Hsave as (-> & Hval & Hhook).
    now constructor.
  - unfold deleteDrop, store_of.
    destruct (Drop_findByPk id db) as [drop|] eqn:Hdrop; [|now left].
    destruct (io_emit io _) as [emitted ok]. simpl. right.
    now constructor.
  - unfold reserveItem, rolled_back, store_of.
    destruct (Reservation_findOne _ db) eqn:Hdup; [now left|].
    destruct (Drop_findByPk dropId db) as [drop|] eqn:Hdrop; [|now left].
    destruct (Drop.hasStarted now drop) eqn:Hstart; simpl; [|now left].
    destruct (Drop.stock drop <=? 0) eqn:Hstock; [now left|].
    destruct (Drop_save _ _ db) as [e|db1] eqn:Hsave; [now left|].
    destruct (Reservation_create _ _ _ _ db1) as [e|[r db2]] eqn:Hcreate;
      [now left|].
    destruct (io_emit io _) as [emitted ok]. simpl. right.
    apply Drop_save_inr in Hsave as (-> & _ & Hhook).
    apply Reservation_create_inr in Hcreate as (-> & -> & Hdur).
    unfold Drop.beforeUpdate in Hhook. simpl in Hhook.
    apply negb_true_iff, Z.ltb_ge in Hhook. apply Z.leb_gt in Hstock.
    simpl. apply change_reserve with (drop := drop); auto; lia.
  - unfold cancelReservation, rolled_back, store_of.
    destruct (Reservation_findOne _ db) as [h|] eqn:Hh; [|now left].
    change (Drop_findByPk (Reservation.drop_id h)
              (Reservation_save_status h Reservation.expired db))
      with (Drop_findByPk (Reservation.drop_id h) db).
    destruct (Drop_findByPk _ db) as [drop|] eqn:Hdrop.
    + destruct (Drop_save _ _ _) as [e|db2] eqn:Hsave; [now left|].
      destruct (io_emit io _) as [emitted ok]. simpl. right.
      apply Drop_save_inr in Hsave as (-> & _ & Hhook).
      unfold Drop.beforeUpdate in Hhook. simpl in Hhook.
      apply negb_true_iff, Z.ltb_ge in Hhook.
      unfold with_drops, Reservation_save_status, with_reservations. simpl.
      now apply change_cancel with (drop := drop).
    + simpl. right. now apply change_cancel_orphan.
  - unfold completePurchase, rolled_back, store_of.
    destruct (Reservation_findOne _ db) as [h|] eqn:Hh; [|now left].
    destruct (Reservation.isExpired now h) eqn:Hexp; [now left|].
    destruct (Drop_findByPk _ db) as [drop|] eqn:Hdrop; [|now left].
    destruct (Purchase_create _ _ _ _ _) as [e|[p db2]] eqn:Hp; [now left|].
    destruct (io_emit io _) as [emitted ok]. simpl. right.
    assert (Hprice : 0 <= Drop.price drop).
    { unfold Purchase_create, Purchase.validate_new in Hp. simpl in Hp.
      destruct (0 <=? Drop.price drop) eqn:H0; [|discriminate].
      now apply Z.leb_le. }
    apply Purchase_create_inr in Hp as (-> & ->). simpl.
    now apply change_purchase with (drop := drop).
  - unfold processExpiredReservations.
    destruct (Reservation_findAll (due now) db) as [|r0 l0] eqn:Hall;
      [now left|].
    destruct (mark_expired (r0 :: l0) db []) as [db1 o] eqn:Hm.
    destruct (return_stock io o db1) as [[e|db2] log1] eqn:Hret; [now left|].
    simpl. right. apply change_tick with (io := io) (log := log1).
    unfold dropStockUpdates_at. now rewrite Hall, Hm.
Qed.

(** ** Rows that pass their validators *)

Lemma validate_new_nil d :
  Drop.validate_new d = [] <->
  Drop.validate_name d = [] /\ Drop.validate_price d = []
  /\ Drop.validate_stock d = [] /\ Drop.validate_initial_stock d = [].
Proof.
  unfold Drop.validate_new. split.
  - intro H. apply app_eq_nil in H as [H1 H].
    apply app_eq_nil in H as [H2 H]. apply app_eq_nil in H as [H3 H4]. auto.
  - intros (-> & -> & -> & ->). reflexivity.
Qed.

Lemma validate_new_bounds d :
  Drop.validate_new d = [] ->
  0 <= Drop.price d /\ 0 <= Drop.stock d /\ 0 <= Drop.initial_stock d.
Proof.
  intro H. apply validate_new_nil in H as (_ & Hp & Hs & Hi).
  unfold Drop.validate_price in Hp. unfold Drop.validate_stock in Hs.
  unfold Drop.validate_initial_stock in Hi.
  destruct (0 <=? Drop.price d) eqn:H1; [|discriminate].
  destruct (0 <=? Drop.stock d) eqn:H2; [|discriminate].
  destruct (0 <=? Drop.initial_stock d) eqn:H3; [|discriminate].
  apply Z.leb_le in H1, H2, H3. auto.
Qed.

(** The length of a name is counted in characters, not in bytes: a name of
    two characters of three bytes each is too short, one of 86 such
    characters (258 bytes) passes, and a name of no-break spaces is blank. *)
Example validate_name_counts_characters :
  let ri :=
    String (ascii_of_nat 230)
      (String (ascii_of_nat 151) (String (ascii_of_nat 165) "")) in
  let nbsp := String (ascii_of_nat 194) (String (ascii_of_nat 160) "") in
  Drop.validate_name (Drop.mk 1 (ri ++ ri)%string 0 0 0 None)
  = ["Drop name must be between 3 and 255 characters"]
  /\ Drop.validate_name
       (Drop.mk 1 (String.concat "" (repeat ri 86)) 0 0 0 None) = []
  /\ Drop.validate_name
       (Drop.mk 1 (nbsp ++ nbsp ++ nbsp)%string 0 0 0 None)
     = ["Drop name cannot be empty"].
Proof. vm_compute. repeat split; reflexivity. Qed.

(** A save validates the changed fields only; the others were validated
    when they were written. *)
Lemma validate_changed_new loaded d :
  Drop.validate_new loaded = [] ->
  Drop.initial_stock d = Drop.initial_stock loaded ->
  Drop.validate_changed loaded d = [] ->
  Drop.validate_new d = [].
Proof.
  intros Hl Hi Hc. apply validate_new_nil in Hl as (Hn & Hp & Hs & Hin).
  unfold Drop.validate_changed in Hc.
  apply app_eq_nil in Hc as [Hc1 Hc]. apply app_eq_nil in Hc as [Hc2 Hc3].
  apply validate_new_nil. repeat split.
  - destruct (String.eqb (Drop.name d) (Drop.name loaded)) eqn:He;
      [|assumption].
    apply String.eqb_eq in He. unfold Drop.validate_name in *.
    now rewrite He.
  - destruct (Drop.price d =? Drop.price loaded) eqn:He; [|assumption].
    apply Z.eqb_eq in He. unfold Drop.validate_price in *. now rewrite He.
  - destruct (Drop.stock d =? Drop.stock loaded) eqn:He; [|assumption].
    apply Z.eqb_eq in He. unfold Drop.validate_stock in *. now rewrite He.
  - unfold Drop.validate_initial_stock in *. now rewrite Hi.
Qed.

Lemma apply_updates_initial_stock updates drop :
  Drop.initial_stock (apply_updates updates drop) = Drop.initial_stock drop.
Proof.
  unfold apply_updates, assign.
  destruct (upd_drop_start_time updates), (upd_stock updates),
    (upd_price updates), (upd_name updates); reflexivity.
Qed.

Lemma apply_updates_id updates drop :
  Drop.id (apply_updates updates drop) = Drop.id drop.
Proof.
  unfold apply_updates, assign.
  destruct (upd_drop_start_time updates), (upd_stock updates),
    (upd_price updates), (upd_name updates); reflexivity.
Qed.

Lemma set_stock_validated drop v :
  Drop.validate_new drop = [] -> 0 <= v ->
  Drop.validate_new (Drop.set_stock drop v) = [].
Proof.
  intros H Hv. apply validate_new_nil in H as (Hn & Hp & Hs & Hi).
  apply validate_new_nil. repeat split; try assumption.
  unfold Drop.validate_stock. simpl.
  apply Z.leb_le in Hv. now rewrite Hv.
Qed.

Lemma written_validated d l :
  Drop.validate_new d = [] ->
  (forall x, In x l -> Drop.validate_new x = []) ->
  forall x, In x (map (Drop_write d) l) -> Drop.validate_new x = [].
Proof.
  intros Hd Hl x Hx. apply in_map_iff in Hx as (row & <- & Hrow).
  unfold Drop_write. destruct (Drop.id row =? Drop.id d); auto.
Qed.

Lemma Drop_save_validated loaded d db db1 :
  validated db -> In loaded (drops db) ->
  Drop.initial_stock d = Drop.initial_stock loaded ->
  Drop_save loaded d db = inr db1 -> validated db1.
Proof.
  intros [Hd Hp] Hin Hi Hsave.
  apply Drop_save_inr in Hsave as (-> & Hval & _).
  split; [|exact Hp]. simpl. apply written_validated; [|exact Hd].
  eapply validate_changed_new; eauto.
Qed.

Lemma return_stock_validated io entries : forall db db2 log,
  validated db ->
  return_stock io entries db = (inr db2, log) -> validated db2.
Proof.
  induction entries as [|[k n] rest IH]; intros db db2 log Hv; simpl.
  - now intros [= <- _].
  - destruct (Drop_findByPk k db) as [drop|] eqn:Hdrop; [|now apply IH].
    destruct (Drop_save _ _ db) as [e|db1] eqn:Hsave; [discriminate|].
    destruct (io_emit io _) as [emitted [|]]; [|discriminate].
    destruct (return_stock io rest db1) as [r log1] eqn:Hrest.
    intros [= -> _]. eapply IH; [|exact Hrest].
    eapply Drop_save_validated; [exact Hv| | |exact Hsave].
    + now apply findByPk_some in Hdrop.
    + reflexivity.
Qed.

Lemma change_validated env now db rq db' :
  change env now db rq db' -> validated db -> validated db'.
Proof.
  intros Hch [Hd Hp].
  destruct Hch as [name price stock initial start Hval
                  | id updates drop Hdrop Hval Hhook
                  | id drop Hdrop
                  | userId dropId drop Hdup Hdrop Hstart Hpos Hceil Hdur
                  | userId id h drop Hh Hdrop Hceil
                  | userId id h Hh Hdrop
                  | userId id h drop Hh Hexp Hdrop Hprice
                  | io db2 log Hret].
  - split; [|exact Hp]. simpl. intros d Hin.
    apply in_app_or in Hin as [Hin|[<-|[]]]; auto.
  - apply findByPk_some in Hdrop as [Hin _].
    split; [|exact Hp]. simpl. apply written_validated; [|exact Hd].
    eapply validate_changed_new; eauto using apply_updates_initial_stock.
  - split; simpl; intros x Hx; apply filter_In in Hx as [Hx _]; auto.
  - apply findByPk_some in Hdrop as [Hin _].
    split; [|exact Hp]. simpl. apply written_validated; [|exact Hd].
    pose proof (validate_new_bounds _ (Hd drop Hin)) as (H1 & H2 & H3).
    apply set_stock_validated; [auto | lia].
  - apply findByPk_some in Hdrop as [Hin _].
    split; [|exact Hp]. simpl. apply written_validated; [|exact Hd].
    pose proof (validate_new_bounds _ (Hd drop Hin)) as (H1 & H2 & H3).
    apply set_stock_validated; [auto | lia].
  - now split.
  - split; [exact Hd|]. simpl. intros p Hin.
    apply in_app_or in Hin as [Hin|[<-|[]]]; [auto|].
    unfold Purchase.validate_new. simpl.
    apply Z.leb_le in Hprice. now rewrite Hprice.
  - eapply return_stock_validated; [|exact Hret].
    rewrite mark_expired_spec. now split.
Qed.

(** ** Counting rows *)

Lemma count_nil {A : Type} (p : A -> bool) : count p [] = 0.
Proof. reflexivity. Qed.

Lemma count_cons {A : Type} (p : A -> bool) (x : A) (l : list A) :
  count p (x :: l) = (if p x then 1 else 0) + count p l.
Proof.
  unfold count. simpl. destruct (p x); simpl List.length; lia.
Qed.

Lemma count_app {A : Type} (p : A -> bool) (l l' : list A) :
  count p (l ++ l') = count p l + count p l'.
Proof.
  unfold count. rewrite filter_app, length_app. lia.
Qed.

Lemma count_nonneg {A : Type} (p : A -> bool) (l : list A) : 0 <= count p l.
Proof. unfold count. lia. Qed.

Lemma count_ext_in {A : Type} (p q : A -> bool) (l : list A) :
  (forall x, In x l -> p x = q x) -> count p l = count q l.
Proof.
  induction l as [|x l IH]; intro H; [reflexivity|].
  rewrite !count_cons, (H x (or_introl eq_refl)), IH; [reflexivity|].
  intros y Hy. apply H. now right.
Qed.

Lemma count_map {A : Type} (p : A -> bool) (f : A -> A) (l : list A) :
  (forall x, In x l -> p (f x) = p x) -> count p (map f l) = count p l.
Proof.
  induction l as [|x l IH]; intro H; [reflexivity|].
  simpl map. rewrite !count_cons, (H x (or_introl eq_refl)), IH;
    [reflexivity|].
  intros y Hy. apply H. now right.
Qed.

Lemma count_none {A : Type} (p : A -> bool) (l : list A) :
  (forall x, In x l -> p x = false) -> count p l = 0.
Proof.
  induction l as [|x l IH]; intro H; [reflexivity|].
  rewrite count_cons, (H x (or_introl eq_refl)), IH; [reflexivity|].
  intros y Hy. apply H. now right.
Qed.

(** Filtering by [q] keeps the rows counted by [p] when [p] implies [q]. *)
Lemma count_filter_kept {A : Type} (p q : A -> bool) (l : list A) :
  (forall x, p x = true -> q x = true) -> count p (filter q l) = count p l.
Proof.
  intro H. induction l as [|x l IH]; [reflexivity|].
  simpl filter. destruct (q x) eqn:Hq.
  - now rewrite !count_cons, IH.
  - rewrite count_cons, IH. destruct (p x) eqn:Hp; [|reflexivity].
    rewrite (H x Hp) in Hq. discriminate.
Qed.

(** ** A write changes the row under its key, and only that one *)

Lemma Reservation_write_elsewhere r l :
  ~ In (Reservation.id r) (map Reservation.id l) ->
  map (Reservation_write r) l = l.
Proof.
  intro H. rewrite <- (map_id l) at 2. apply map_ext_in. intros x Hx.
  unfold Reservation_write.
  destruct (Reservation.id x =? Reservation.id r) eqn:He; [|reflexivity].
  apply Z.eqb_eq in He. exfalso. apply H. rewrite <- He. now apply in_map.
Qed.

Lemma count_written (p : Reservation.t -> bool) h h' l :
  NoDup (map Reservation.id l) -> In h l ->
  Reservation.id h' = Reservation.id h ->
  count p (map (Reservation_write h') l) + (if p h then 1 else 0)
  = count p l + (if p h' then 1 else 0).
Proof.
  intros Hnd Hin Hid. induction l as [|x l IH]; [contradiction|].
  simpl in Hnd. inversion Hnd as [|? ? Hx Hl]; subst.
  simpl map. rewrite !count_cons.
  destruct Hin as [->|Hin].
  - rewrite Reservation_write_elsewhere by now rewrite Hid.
    unfold Reservation_write. rewrite Hid, Z.eqb_refl. lia.
  - specialize (IH Hl Hin).
    assert (Hne : Reservation.id x <> Reservation.id h').
    { rewrite Hid. intro He. apply Hx. rewrite He. now apply in_map. }
    unfold Reservation_write at 1. apply Z.eqb_neq in Hne. rewrite Hne. lia.
Qed.

Lemma written_rows d l x :
  In x (map (Drop_write d) l) ->
  x = d \/ (In x l /\ Drop.id x <> Drop.id d).
Proof.
  intro H. apply in_map_iff in H as (row & <- & Hrow).
  unfold Drop_write. destruct (Drop.id row =? Drop.id d) eqn:He.
  - now left.
  - right. split; [assumption | now apply Z.eqb_neq].
Qed.

Lemma findByPk_none k db :
  Drop_findByPk k db = None -> ~ In k (map Drop.id (drops db)).
Proof.
  unfold Drop_findByPk. intros H Hin.
  apply in_map_iff in Hin as (d & Hd & Hin).
  pose proof (find_none _ _ H d Hin) as Hk. simpl in Hk.
  apply Z.eqb_neq in Hk. contradiction.
Qed.

Lemma findByPk_in k db drop :
  Drop_findByPk k db = Some drop -> In k (map Drop.id (drops db)).
Proof.
  intro H. apply findByPk_some in H as [Hin <-]. now apply in_map.
Qed.

Lemma findOne_own_active_some id userId db h :
  Reservation_findOne (own_active id userId) db = Some h ->
  In h (reservations db)
  /\ Reservation.id h = id /\ Reservation.user_id h = userId
  /\ Reservation.status h = Reservation.active.
Proof.
  intro H. apply find_some in H as [Hin Hown].
  apply own_active_true in Hown. tauto.
Qed.

(** ** Each reservation and purchase is of a stored drop *)

Lemma written_reservations_drop h s l r :
  In h l -> In r (map (Reservation_write (Reservation.set_status h s)) l) ->
  exists x, In x l /\ Reservation.drop_id r = Reservation.drop_id x.
Proof.
  intros Hh Hr. apply in_map_iff in Hr as (x & <- & Hx).
  unfold Reservation_write. simpl.
  destruct (Reservation.id x =? Reservation.id h); eauto.
Qed.

Lemma change_referenced env now db rq db' :
  change env now db rq db' -> keyed db -> referenced db -> referenced db'.
Proof.
  intros Hch Hk [Hr Hp].
  destruct Hch as [name price stock initial start Hval
                  | id updates drop Hdrop Hval Hhook
                  | id drop Hdrop
                  | userId dropId drop Hdup Hdrop Hstart Hpos Hceil Hdur
                  | userId id h drop Hh Hdrop Hceil
                  | userId id h Hh Hdrop
                  | userId id h drop Hh Hexp Hdrop Hprice
                  | io db2 log Hret].
  - split; simpl; intros x Hx; rewrite map_app; apply in_or_app; left; auto.
  - split; simpl; intros x Hx; rewrite map_id_Drop_write; auto.
  - apply findByPk_some in Hdrop as [Hin Hid].
    assert (Hkeep : forall k, In k (map Drop.id (drops db)) ->
              negb (k =? Drop.id drop) = true ->
              In k (map Drop.id
                      (filter (fun x => negb (Drop.id x =? Drop.id drop))
                         (drops db)))).
    { intros k Hk' Hne. apply in_map_iff in Hk' as (d & <- & Hd).
      apply in_map. apply filter_In. auto. }
    split; simpl; intros x Hx; apply filter_In in Hx as [Hx Hne]; auto.
  - split; simpl; intros x Hx; rewrite map_id_Drop_write; [|auto].
    apply in_app_or in Hx as [Hx|[<-|[]]]; [auto|]. simpl.
    eapply findByPk_in; eauto.
  - apply findOne_own_active_some in Hh as (Hin & _).
    split; simpl; intros x Hx; rewrite map_id_Drop_write; [|auto].
    destruct (written_reservations_drop _ _ _ _ Hin Hx) as (y & Hy & ->).
    auto.
  - apply findOne_own_active_some in Hh as (Hin & _).
    split; simpl; intros x Hx; [|auto].
    destruct (written_reservations_drop _ _ _ _ Hin Hx) as (y & Hy & ->).
    auto.
  - apply findOne_own_active_some in Hh as (Hin & _).
    split; simpl; intros x Hx.
    + destruct (written_reservations_drop _ _ _ _ Hin Hx) as (y & Hy & ->).
      auto.
    + apply in_app_or in Hx as [Hx|[<-|[]]]; [auto|]. simpl. auto.
  - destruct Hk as [[Hd _] [Hrs _]].
    apply tick_store in Hret; [|assumption..]. subst db2.
    assert (Hids : map Drop.id (map (credit now db) (drops db)) =
                   map Drop.id (drops db)).
    { rewrite map_map. now apply map_ext. }
    split; simpl; intros x Hx; rewrite Hids; [|auto].
    apply in_map_iff in Hx as (y & <- & Hy).
    unfold expire_due. destruct (due now y); simpl; auto.
Qed.

(** The stores the server reaches have unique ids, validated rows and no
    dangling reference. *)
Lemma reachable_sound t db :
  reachable t db -> keyed db /\ validated db /\ referenced db.
Proof.
  induction 1 as [t | t t' db env io rq Hreach (Hk & Hv & Hr) Ht].
  - repeat split; try constructor; intros x [].
  - split; [now apply serve_keyed|].
    destruct (serve_change env io t' rq db) as [-> | Hch]; [now split|].
    split; [eapply change_validated | eapply change_referenced]; eauto.
Qed.

(** ** One purchase for each completed reservation *)

Lemma count_filter {A : Type} (p f : A -> bool) (l : list A) :
  count p (filter f l) = count (fun x => p x && f x) l.
Proof.
  induction l as [|x l IH]; [reflexivity|].
  simpl filter. destruct (f x) eqn:Hf.
  - rewrite !count_cons, IH, Hf, andb_true_r. reflexivity.
  - rewrite count_cons, IH, Hf, andb_false_r. lia.
Qed.

Lemma completed_written q h s l :
  NoDup (map Reservation.id l) -> In h l ->
  Reservation.status h = Reservation.active ->
  count (completed_among q)
    (map (Reservation_write (Reservation.set_status h s)) l)
  = count (completed_among q) l
    + (if completed_among q (Reservation.set_status h s) then 1 else 0).
Proof.
  intros Hnd Hin Hst.
  pose proof (count_written (completed_among q) h
                (Reservation.set_status h s) l Hnd Hin eq_refl) as Hc.
  assert (Hh : completed_among q h = false).
  { unfold completed_among. rewrite Hst. apply andb_false_r. }
  rewrite Hh in Hc. lia.
Qed.

Lemma change_sold_once env now db rq db' :
  change env now db rq db' -> keyed db ->
  (forall q, count (purchase_among q) (purchases db)
             = count (completed_among q) (reservations db)) ->
  forall q, count (purchase_among q) (purchases db')
            = count (completed_among q) (reservations db').
Proof.
  intros Hch Hk H q.
  destruct Hk as [[Hdk _] [Hrk _]].
  destruct Hch as [name price stock initial start Hval
                  | id updates drop Hdrop Hval Hhook
                  | id drop Hdrop
                  | userId dropId drop Hdup Hdrop Hstart Hpos Hceil Hdur
                  | userId id h drop Hh Hdrop Hceil
                  | userId id h Hh Hdrop
                  | userId id h drop Hh Hexp Hdrop Hprice
                  | io db2 log Hret]; simpl.
  - apply H.
  - apply H.
  - rewrite !count_filter.
    transitivity
      (count (purchase_among (fun u d => q u d && negb (d =? Drop.id drop)))
         (purchases db)); [apply count_ext_in; intros; reflexivity|].
    rewrite H. apply count_ext_in. intros r _. unfold completed_among.
    destruct (q _ _), (negb _), (Reservation.status_eqb _ _); reflexivity.
  - rewrite count_app, count_cons, count_nil. unfold completed_among at 2.
    simpl. rewrite andb_false_r, H. lia.
  - apply findOne_own_active_some in Hh as (Hin & _ & _ & Hst).
    rewrite completed_written by assumption.
    unfold completed_among at 2. simpl. rewrite andb_false_r, H. lia.
  - apply findOne_own_active_some in Hh as (Hin & _ & _ & Hst).
    rewrite completed_written by assumption.
    unfold completed_among at 2. simpl. rewrite andb_false_r, H. lia.
  - apply findOne_own_active_some in Hh as (Hin & _ & Hu & Hst).
    rewrite completed_written by assumption.
    rewrite count_app, count_cons, count_nil.
    unfold completed_among at 2, purchase_among at 2. simpl.
    rewrite andb_true_r, Hu, H. lia.
  - apply tick_store in Hret; [|assumption..]. subst db2. simpl.
    rewrite count_map; [apply H|]. intros r _.
    unfold expire_due, due, completed_among.
    destruct (Reservation.status r) eqn:Hst; simpl; rewrite ?Hst;
      try reflexivity.
    destruct (Reservation.expires_at r <? now); simpl;
      rewrite ?Hst, ?andb_false_r; reflexivity.
Qed.

Lemma reachable_sold_once t db :
  reachable t db ->
  forall q, count (purchase_among q) (purchases db)
            = count (completed_among q) (reservations db).
Proof.
  induction 1 as [t | t t' db env io rq Hreach IH Ht]; [reflexivity|].
  destruct (serve_change env io t' rq db) as [-> | Hch]; [exact IH|].
  eapply change_sold_once; eauto. now apply reachable_sound in Hreach.
Qed.

(** ** No unit is lost *)

Lemma holds_unit_expire now k rows :
  count (holds_unit k) (map (expire_due now) rows)
  + count (fun r => due now r && (Reservation.drop_id r =? k)) rows
  = count (holds_unit k) rows.
Proof.
  induction rows as [|r rows IH]; [reflexivity|].
  simpl map. rewrite !count_cons.
  assert (Hr : (if holds_unit k (expire_due now r) then 1 else 0)
               + (if due now r && (Reservation.drop_id r =? k)
                  then 1 else 0)
               = if holds_unit k r then 1 else 0).
  { unfold expire_due, due, holds_unit.
    destruct (Reservation.status r) eqn:Hst; simpl; rewrite ?Hst; simpl;
      rewrite ?andb_false_r; try lia.
    destruct (Reservation.expires_at r <? now); simpl; rewrite ?Hst; simpl;
      destruct (Reservation.drop_id r =? k); simpl; lia. }
  lia.
Qed.

Lemma change_conserved env now db rq db' :
  change env now db rq db' -> leaves_stock rq ->
  keyed db -> referenced db -> conserved db -> conserved db'.
Proof.
  intros Hch Hrq Hk [Href _] Hc.
  destruct Hk as [[Hdk Hdlt] [Hrk _]].
  destruct Hch as [name price stock initial start Hval
                  | id updates drop Hdrop Hval Hhook
                  | id drop Hdrop
                  | userId dropId drop Hdup Hdrop Hstart Hpos Hceil Hdur
                  | userId id h drop Hh Hdrop Hceil
                  | userId id h Hh Hdrop
                  | userId id h drop Hh Hexp Hdrop Hprice
                  | io db2 log Hret]; intros x Hx; simpl in Hx |- *.
  - apply in_app_or in Hx as [Hx|[<-|[]]]; [now apply Hc|]. simpl.
    simpl in Hrq. subst initial.
    rewrite count_none; [lia|]. intros r Hr. unfold holds_unit.
    specialize (Href r Hr). rewrite Forall_forall in Hdlt.
    specialize (Hdlt _ Href).
    assert (Hne : (Reservation.drop_id r =? drops_seq db) = false)
      by (apply Z.eqb_neq; lia).
    now rewrite Hne.
  - apply findByPk_some in Hdrop as [Hin Hid].
    apply written_rows in Hx as [->|[Hx _]]; [|now apply Hc].
    rewrite apply_updates_id, apply_updates_initial_stock.
    simpl in Hrq.
    replace (Drop.stock (apply_updates updates drop)) with (Drop.stock drop).
    + now apply Hc.
    + unfold apply_updates, assign. rewrite Hrq.
      destruct (upd_drop_start_time updates), (upd_price updates),
        (upd_name updates); reflexivity.
  - apply filter_In in Hx as [Hx Hne].
    rewrite count_filter_kept; [now apply Hc|].
    intros r Hr. unfold holds_unit in Hr.
    apply andb_true_iff in Hr as [Hr _]. apply Z.eqb_eq in Hr.
    rewrite Hr. exact Hne.
  - apply findByPk_some in Hdrop as [Hin Hid].
    rewrite count_app, count_cons, count_nil. unfold holds_unit at 2. simpl.
    apply written_rows in Hx as [->|[Hx Hne]].
    + simpl. rewrite Hid, Z.eqb_refl. simpl.
      specialize (Hc drop Hin). rewrite Hid in Hc. lia.
    + simpl in Hne. rewrite Hid in Hne.
      assert (Hnb : (dropId =? Drop.id x) = false)
        by (apply Z.eqb_neq; congruence).
      rewrite Hnb. simpl. specialize (Hc x Hx). lia.
  - apply findOne_own_active_some in Hh as (Hh & _ & _ & Hst).
    apply findByPk_some in Hdrop as [Hin Hid].
    assert (Hcount : forall k,
      count (holds_unit k)
        (map (Reservation_write
                (Reservation.set_status h Reservation.expired))
           (reservations db))
      + (if Reservation.drop_id h =? k then 1 else 0)
      = count (holds_unit k) (reservations db)).
    { intro k.
      pose proof (count_written (holds_unit k) h
                    (Reservation.set_status h Reservation.expired)
                    (reservations db) Hrk Hh eq_refl) as Hw.
      unfold holds_unit at 2 4 in Hw. simpl in Hw. rewrite Hst in Hw.
      simpl in Hw. rewrite andb_false_r, andb_true_r in Hw. lia. }
    apply written_rows in Hx as [->|[Hx Hne]].
    + simpl. specialize (Hcount (Drop.id drop)). rewrite Hid in Hcount.
      rewrite Z.eqb_refl in Hcount. specialize (Hc drop Hin).
      rewrite Hid in *. lia.
    + simpl in Hne. specialize (Hcount (Drop.id x)).
      assert (Hnb : (Reservation.drop_id h =? Drop.id x) = false)
        by (apply Z.eqb_neq; congruence).
      rewrite Hnb in Hcount. specialize (Hc x Hx). lia.
  - apply findOne_own_active_some in Hh as (Hh & _ & _ & Hst).
    apply findByPk_none in Hdrop.
    pose proof (count_written (holds_unit (Drop.id x)) h
                  (Reservation.set_status h Reservation.expired)
                  (reservations db) Hrk Hh eq_refl) as Hw.
    unfold holds_unit at 2 4 in Hw. simpl in Hw. rewrite Hst in Hw.
    simpl in Hw. rewrite andb_false_r, andb_true_r in Hw.
    assert (Hnb : (Reservation.drop_id h =? Drop.id x) = false).
    { apply Z.eqb_neq. intro He. apply Hdrop. rewrite He.
      now apply in_map. }
    rewrite Hnb in Hw. specialize (Hc x Hx). lia.
  - apply findOne_own_active_some in Hh as (Hh & _ & _ & Hst).
    pose proof (count_written (holds_unit (Drop.id x)) h
                  (Reservation.set_status h Reservation.completed)
                  (reservations db) Hrk Hh eq_refl) as Hw.
    unfold holds_unit at 2 4 in Hw. simpl in Hw. rewrite Hst in Hw.
    simpl in Hw. specialize (Hc x Hx). lia.
  - apply tick_store in Hret; [|assumption..]. subst db2. simpl in *.
    apply in_map_iff in Hx as (y & <- & Hy). unfold credit. simpl.
    pose proof (holds_unit_expire now (Drop.id y) (reservations db)) as He.
    unfold returned. fold (count (fun r => due now r
      && (Reservation.drop_id r =? Drop.id y)) (reservations db)).
    specialize (Hc y Hy). lia.
Qed.

Lemma reachable_by_reachable ok t db : reachable_by ok t db -> reachable t db.
Proof.
  induction 1 as [t | t t' db env io rq Hreach IH Ht Hok].
  - constructor.
  - now apply (reachable_serve t t').
Qed.

Lemma reachable_by_conserved t db :
  reachable_by leaves_stock t db -> conserved db.
Proof.
  induction 1 as [t | t t' db env io rq Hreach IH Ht Hok].
  - intros x [].
  - destruct (serve_change env io t' rq db) as [-> | Hch]; [exact IH|].
    apply reachable_by_reachable, reachable_sound in Hreach
      as (Hk & _ & Hr).
    eapply change_conserved; eauto.
Qed.

(** ** Scripts of requests that leave the stock alone *)

Lemma replay_reachable_by ok script : forall t db,
  reachable_by ok t db -> chronological t script = true ->
  Forall (fun step => ok (snd step)) script ->
  reachable_by ok (ends_at t script) (replay script db).
Proof.
  induction script as [|[t' rq] script IH]; intros t db Hreach Hchron Hok.
  - exact Hreach.
  - simpl in Hchron. apply andb_true_iff in Hchron as [Ht Hrest].
    apply Z.leb_le in Ht. inversion Hok as [|? ? Hrq Hoks]; subst.
    change (replay ((t', rq) :: script) db)
      with (replay script (serve None listening t' rq db)).
    change (ends_at t ((t', rq) :: script)) with (ends_at t' script).
    apply IH; [|exact Hrest|exact Hoks].
    now apply (reachable_by_serve ok t t').
Qed.

Lemma opening_leaves_stock :
  Forall (fun step => leaves_stock (snd step)) opening.
Proof. repeat (constructor; [simpl; auto|]). constructor. Qed.

Example shop_leaves_stock : reachable_by leaves_stock 60 shop.
Proof.
  apply (replay_reachable_by leaves_stock opening 0 empty_db);
    [constructor | reflexivity | exact opening_leaves_stock].
Qed.

Lemma findByPk_stored k db :
  In k (map Drop.id (drops db)) -> exists d, Drop_findByPk k db = Some d.
Proof.
  intro Hin. destruct (Drop_findByPk k db) as [d|] eqn:Hf; [now exists d|].
  now apply findByPk_none in Hf.
Qed.

Lemma count_le {A : Type} (p q : A -> bool) (l : list A) :
  (forall x, In x l -> p x = true -> q x = true) -> count p l <= count q l.
Proof.
  intro H. unfold count. apply Nat2Z.inj_le. now apply filter_length_le.
Qed.

Lemma count_positive {A : Type} (p : A -> bool) (l : list A) (x : A) :
  In x l -> p x = true -> 1 <= count p l.
Proof.
  induction l as [|y l IH]; [contradiction|].
  intros [->|Hin] Hp; rewrite count_cons.
  - rewrite Hp. pose proof (count_nonneg p l). lia.
  - specialize (IH Hin Hp). destruct (p y); lia.
Qed.

Lemma holds_unit_split k l :
  count (holds_unit k) l
  = count (active_hold k) l + count (completed_among (fun _ d => d =? k)) l.
Proof.
  induction l as [|r l IH]; [reflexivity|].
  rewrite !count_cons, IH.
  unfold holds_unit, active_hold, completed_among. cbn beta.
  destruct (Reservation.drop_id r =? k), (Reservation.status r);
    cbn [andb negb Reservation.status_eqb]; lia.
Qed.

Lemma returned_le_held now db k :
  returned now db k <= count (holds_unit k) (reservations db).
Proof.
  unfold returned.
  fold (count (fun r => due now r && (Reservation.drop_id r =? k))
          (reservations db)).
  apply count_le. intros r _ Hr. apply andb_true_iff in Hr as [Hdue Hk].
  unfold due in Hdue. apply andb_true_iff in Hdue as [Hst _].
  unfold holds_unit. rewrite Hk.
  now destruct (Reservation.status r).
Qed.

(** * What the server guarantees *)

(** ** The rows it stores *)

(** X1: every drop stored by the server has a price, a stock and an initial
    stock that are not negative, and every purchase has a price that is not
    negative: no request gets such a number past the validators, although
    an update only validates the fields it changes. *)
Theorem stored_rows_valid t db :
  reachable t db ->
  (forall d, In d (drops db) ->
     0 <= Drop.price d /\ 0 <= Drop.stock d /\ 0 <= Drop.initial_stock d)
  /\ (forall p, In p (purchases db) -> 0 <= Purchase.price p).
Proof.
  intro H. apply reachable_sound in H as (_ & [Hd Hp] & _). split.
  - intros d Hin. exact (validate_new_bounds d (Hd d Hin)).
  - intros p Hin. specialize (Hp p Hin). unfold Purchase.validate_new in Hp.
    destruct (0 <=? Purchase.price p) eqn:H0; [|discriminate].
    now apply Z.leb_le.
Qed.

Lemma stored_rows_valid_witness :
  (0 <= Drop.price (Drop.mk 3 "Dunk Low" 12000 4 5 None)
   /\ 0 <= Drop.stock (Drop.mk 3 "Dunk Low" 12000 4 5 None)
   /\ 0 <= Drop.initial_stock (Drop.mk 3 "Dunk Low" 12000 4 5 None))
  /\ 0 <= Purchase.price (Purchase.mk 1 8 3 12000 40).
Proof.
  pose proof shop_reachable as H.
  split.
  - apply (proj1 (stored_rows_valid 60 shop H)
             (Drop.mk 3 "Dunk Low" 12000 4 5 None)).
    simpl. auto.
  - apply (proj2 (stored_rows_valid 60 shop H) (Purchase.mk 1 8 3 12000 40)).
    simpl. auto.
Defined.

(** X2: no reservation and no purchase is left without its drop: a drop
    takes its reservations and purchases with it when it is deleted, and
    nothing is reserved or bought on a drop that is not stored. *)
Theorem no_orphan_rows t db :
  reachable t db ->
  (forall r, In r (reservations db) ->
     exists d, Drop_findByPk (Reservation.drop_id r) db = Some d)
  /\ (forall p, In p (purchases db) ->
        exists d, Drop_findByPk (Purchase.drop_id p) db = Some d).
Proof.
  intro H. apply reachable_sound in H as (_ & _ & [Hr Hp]).
  split; intros x Hin; apply findByPk_stored; auto.
Qed.

Lemma no_orphan_rows_witness :
  (exists d,
      Drop_findByPk 3
        (serve None listening 70 (DELETE_drops 1) shop) = Some d)
  /\ ~ In (Reservation.mk 3 7 1 Reservation.active 60050)
         (reservations (serve None listening 70 (DELETE_drops 1) shop)).
Proof.
  assert (H : reachable 70 (serve None listening 70 (DELETE_drops 1) shop)).
  { apply (reachable_serve 60 70); [|lia].
    apply (replay_reachable opening 0 empty_db); [constructor|reflexivity]. }
  split.
  - apply (proj1 (no_orphan_rows 70 _ H)
             (Reservation.mk 2 8 3 Reservation.completed 60020)).
    simpl. auto.
  - simpl. intros [E|[E|[]]]; discriminate E.
Defined.

(** ** Purchases, reservations and stock *)

(** X3: there are as many purchases as completed reservations, for each
    user and drop, for each drop (the count that [getDropStats] reports), and
    in all: a reservation is bought at most once and nothing is bought
    without one. *)
Theorem purchases_match_completed_reservations t db :
  reachable t db ->
  (forall u d,
     count (fun p => (Purchase.user_id p =? u) && (Purchase.drop_id p =? d))
       (purchases db)
     = count
         (fun r => (Reservation.user_id r =? u) && (Reservation.drop_id r =? d)
                   && Reservation.status_eqb (Reservation.status r)
                        Reservation.completed)
         (reservations db))
  /\ (forall d,
        Purchase_count d db
        = count
            (fun r => (Reservation.drop_id r =? d)
                      && Reservation.status_eqb (Reservation.status r)
                           Reservation.completed)
            (reservations db))
  /\ Z.of_nat (List.length (purchases db))
     = count
         (fun r => Reservation.status_eqb (Reservation.status r)
                     Reservation.completed)
         (reservations db).
Proof.
  intro H. pose proof (reachable_sold_once t db H) as Hq.
  split; [|split].
  - intros u d. exact (Hq (fun u' d' => (u' =? u) && (d' =? d))).
  - intro d. exact (Hq (fun _ d' => d' =? d)).
  - transitivity (count (purchase_among (fun _ _ => true)) (purchases db)).
    + unfold count. f_equal. f_equal. clear.
      induction (purchases db) as [|p l IH]; [reflexivity|].
      simpl. now f_equal.
    + exact (Hq (fun _ _ => true)).
Qed.

Lemma purchases_match_completed_reservations_witness :
  Purchase_count 3 shop
  = count
      (fun r => (Reservation.drop_id r =? 3)
                && Reservation.status_eqb (Reservation.status r)
                     Reservation.completed)
      (reservations shop).
Proof.
  pose proof shop_reachable as H.
  apply (proj1 (proj2 (purchases_match_completed_reservations 60 shop H)) 3).
Defined.

(** X4: as long as no request sets the stock of a drop by hand (a drop is
    created with [stock = initial_stock], and no update assigns [stock]), the
    units of every drop are all accounted for: its stock, its active
    reservations and its purchases add up to its initial stock.  So no drop
    is sold more often than it has units. *)
Theorem stock_accounted t db d :
  reachable_by leaves_stock t db -> In d (drops db) ->
  Drop.stock d + count (active_hold (Drop.id d)) (reservations db)
  + Purchase_count (Drop.id d) db
  = Drop.initial_stock d
  /\ Purchase_count (Drop.id d) db <= Drop.initial_stock d.
Proof.
  intros H Hin.
  pose proof (reachable_by_conserved t db H d Hin) as Hc.
  apply reachable_by_reachable in H.
  pose proof (reachable_sold_once t db H (fun _ k => k =? Drop.id d)) as Hs.
  change (count (purchase_among (fun _ k => k =? Drop.id d)) (purchases db))
    with (Purchase_count (Drop.id d) db) in Hs.
  rewrite holds_unit_split in Hc.
  apply reachable_sound in H as (_ & [Hv _] & _).
  destruct (validate_new_bounds d (Hv d Hin)) as (_ & H0 & _).
  pose proof (count_nonneg (active_hold (Drop.id d)) (reservations db)).
  lia.
Qed.

Lemma stock_accounted_witness :
  4 + count (active_hold 3) (reservations shop) + Purchase_count 3 shop = 5
  /\ Purchase_count 3 shop <= 5.
Proof.
  apply (stock_accounted 60 shop (Drop.mk 3 "Dunk Low" 12000 4 5 None)).
  - exact shop_leaves_stock.
  - simpl. auto.
Defined.

(** X5: [getDropStats] answers 404 for a drop that is not stored and 200
    for a drop that is, in any store; the reply shows the row of that drop,
    [sold] as [initial_stock - stock] and [total_purchases] as the number of
    its purchases.  As long as no request sets the stock of a drop by hand,
    [sold] is [total_purchases] plus the reservations of the drop that are
    still active, and [remaining_stock] lies between 0 and [total_stock]. *)
Theorem getDropStats_accounts now id db :
  (~ In id (map Drop.id (drops db)) ->
   getDropStats now id db = Next (AppError "Drop not found" 404))
  /\ (In id (map Drop.id (drops db)) ->
      exists drop s,
        Drop_findByPk id db = Some drop
        /\ In drop (drops db)
        /\ getDropStats now id db = Success 200 s
        /\ stats_id s = id
        /\ stats_name s = Drop.name drop
        /\ total_stock s = Drop.initial_stock drop
        /\ remaining_stock s = Drop.stock drop
        /\ sold s = Drop.initial_stock drop - Drop.stock drop
        /\ total_purchases s = Purchase_count id db
        /\ stock_percentage s = Drop.getStockPercentage drop
        /\ is_available s = (0 <? Drop.stock drop)
        /\ has_started s = Drop.hasStarted now drop)
  /\ (forall t code s,
         reachable_by leaves_stock t db ->
         getDropStats now id db = Success code s ->
         sold s
         = total_purchases s + count (active_hold id) (reservations db)
         /\ 0 <= remaining_stock s <= total_stock s).
Proof.
  split; [|split].
  - intro Hout. unfold getDropStats.
    destruct (Drop_findByPk id db) as [drop|] eqn:Hf; [|reflexivity].
    destruct Hout. now apply (findByPk_in id db drop).
  - intro Hin. destruct (findByPk_stored id db Hin) as [drop Hf].
    pose proof (findByPk_some _ _ _ Hf) as [Hd Hid].
    exists drop. eexists. split; [exact Hf|]. split; [exact Hd|].
    unfold getDropStats. rewrite Hf. split; [reflexivity|]. simpl.
    repeat split; auto.
  - intros t code s H. unfold getDropStats.
    destruct (Drop_findByPk id db) as [drop|] eqn:Hf; [|discriminate].
    intros [= _ <-]. simpl.
    apply findByPk_some in Hf as [Hin Hid].
    pose proof (reachable_by_conserved t db H drop Hin) as Hc.
    apply reachable_by_reachable in H.
    pose proof (reachable_sold_once t db H (fun _ k => k =? id)) as Hs.
    change (count (purchase_among (fun _ k => k =? id)) (purchases db))
      with (Purchase_count id db) in Hs.
    rewrite holds_unit_split, Hid in Hc.
    apply reachable_sound in H as (_ & [Hv _] & _).
    destruct (validate_new_bounds drop (Hv drop Hin)) as (_ & H0 & _).
    pose proof (count_nonneg (active_hold id) (reservations db)).
    pose proof (count_nonneg (completed_among (fun _ k => k =? id))
                  (reservations db)).
    lia.
Qed.

Lemma getDropStats_accounts_witness :
  getDropStats 70 9 shop = Next (AppError "Drop not found" 404)
  /\ (exists drop s,
         Drop_findByPk 1 shop = Some drop
         /\ In drop (drops shop)
         /\ getDropStats 70 1 shop = Success 200 s
         /\ stats_id s = 1
         /\ stats_name s = Drop.name drop
         /\ total_stock s = Drop.initial_stock drop
         /\ remaining_stock s = Drop.stock drop
         /\ sold s = Drop.initial_stock drop - Drop.stock drop
         /\ total_purchases s = Purchase_count 1 shop
         /\ stock_percentage s = Drop.getStockPercentage drop
         /\ is_available s = (0 <? Drop.stock drop)
         /\ has_started s = Drop.hasStarted 70 drop)
  /\ (2 = 0 + count (active_hold 1) (reservations shop)
      /\ 0 <= 0 <= 2).
Proof.
  split; [|split].
  - apply (proj1 (getDropStats_accounts 70 9 shop)).
    simpl. intuition discriminate.
  - apply (proj1 (proj2 (getDropStats_accounts 70 1 shop))).
    simpl. auto.
  - apply (proj2 (proj2 (getDropStats_accounts 70 1 shop)) 60 200
             (mkStats 1 "Air Max 90" 2 0 2 0
                (Drop.getStockPercentage
                   (Drop.mk 1 "Air Max 90" 19999 0 2 None))
                false true)).
    + exact shop_leaves_stock.
    + reflexivity.
Defined.

(** ** Requests that cannot fail *)

(** X6: as long as no request sets the stock of a drop by hand, the save
    of the lowered stock in [reserveItem] is never refused: whenever the
    drop is found with stock left, the new stock passes the validator and
    the [beforeUpdate] hook, and the row of the drop then shows one unit
    less.  So [reserveItem] never ends with the hook's error or with a
    negative stock. *)
Theorem reserveItem_stock_save_accepted t db env io now userId dropId :
  reachable_by leaves_stock t db ->
  (forall drop,
      Drop_findByPk dropId db = Some drop -> 0 < Drop.stock drop ->
      exists db1 drop1,
        Drop_save drop (Drop.set_stock drop (Drop.stock drop - 1)) db
        = inr db1
        /\ Drop_findByPk dropId db1 = Some drop1
        /\ Drop.stock drop1 = Drop.stock drop - 1
        /\ 0 <= Drop.stock drop1 <= Drop.initial_stock drop1)
  /\ (forall e,
         fst (fst (reserveItem env io now userId dropId db)) = Next e ->
         (forall message, e <> HookError message)
         /\ (forall messages,
                e = SequelizeValidationError messages ->
                ~ In "Stock cannot be negative" messages)).
Proof.
  intro H.
  assert (Hsave : forall drop,
            Drop_findByPk dropId db = Some drop -> 0 < Drop.stock drop ->
            Drop_save drop (Drop.set_stock drop (Drop.stock drop - 1)) db
            = inr (with_drops db
                     (map (Drop_write
                             (Drop.set_stock drop (Drop.stock drop - 1)))
                        (drops db)))
            /\ Drop.stock drop <= Drop.initial_stock drop).
  { intros drop Hdrop Hpos.
    pose proof (findByPk_some _ _ _ Hdrop) as [Hin _].
    pose proof (reachable_by_conserved t db H drop Hin) as Hc.
    pose proof (count_nonneg (holds_unit (Drop.id drop)) (reservations db)).
    split; [|lia]. apply Drop_save_stock; lia. }
  split.
  - intros drop Hdrop Hpos. destruct (Hsave drop Hdrop Hpos) as [Hs Hle].
    pose proof (findByPk_some _ _ _ Hdrop) as [_ Hid].
    exists (with_drops db
              (map (Drop_write (Drop.set_stock drop (Drop.stock drop - 1)))
                 (drops db))),
      (Drop.set_stock drop (Drop.stock drop - 1)).
    split; [exact Hs|]. split.
    + unfold Drop_findByPk. simpl.
      apply (find_written dropId _ _ drop); assumption.
    + simpl. lia.
  - intros e. unfold reserveItem, rolled_back.
    destruct (Reservation_findOne _ db); [discriminate|].
    destruct (Drop_findByPk dropId db) as [drop|] eqn:Hdrop; [|discriminate].
    destruct (negb _); [discriminate|].
    destruct (Drop.stock drop <=? 0) eqn:Hstock; [discriminate|].
    apply Z.leb_gt in Hstock.
    destruct (Hsave drop eq_refl Hstock) as [-> _].
    unfold Reservation_create, Reservation.validate_new. simpl.
    destruct (_ <=? now).
    + intros [= <-]. split; [discriminate|].
      intros messages [= <-]. simpl. intuition discriminate.
    + destruct (io_emit io _) as [emitted [|]]; [discriminate|].
      intros [= <-]. split; discriminate.
Qed.

Lemma reserveItem_stock_save_accepted_witness :
  exists db1 drop1,
    Drop_save (Drop.mk 3 "Dunk Low" 12000 4 5 None)
      (Drop.set_stock (Drop.mk 3 "Dunk Low" 12000 4 5 None) (4 - 1)) shop
    = inr db1
    /\ Drop_findByPk 3 db1 = Some drop1
    /\ Drop.stock drop1 = 4 - 1
    /\ 0 <= Drop.stock drop1 <= Drop.initial_stock drop1.
Proof.
  apply (proj1 (reserveItem_stock_save_accepted 60 shop None listening 70 9 3
                  shop_leaves_stock)
           (Drop.mk 3 "Dunk Low" 12000 4 5 None)).
  - reflexivity.
  - simpl. lia.
Defined.

(** X7: as long as no request sets the stock of a drop by hand, on a
    socket that does not throw, a cancellation is answered with a success or
    with 404, never with an error: the drop of the reservation is stored and
    has room for the unit that comes back. *)
Theorem cancelReservation_never_errs t db io userId id :
  reachable_by leaves_stock t db -> reliable io ->
  forall e, fst (fst (cancelReservation io userId id db)) <> Next e.
Proof.
  intros H Hio e.
  destruct (Reservation_findOne (own_active id userId) db) as [h|] eqn:Hh;
    [|unfold cancelReservation; rewrite Hh; discriminate].
  pose proof (findOne_own_active_some _ _ _ _ Hh) as (Hin & _ & _ & Hst).
  pose proof (reachable_by_conserved t db H) as Hc.
  apply reachable_by_reachable, reachable_sound in H
    as (_ & [Hv _] & [Hr _]).
  destruct (findByPk_stored _ _ (Hr h Hin)) as [drop Hdrop].
  pose proof (findByPk_some _ _ _ Hdrop) as [Hd Hid].
  specialize (Hc drop Hd).
  destruct (validate_new_bounds drop (Hv drop Hd)) as (_ & H0 & _).
  assert (Hheld : 1 <= count (holds_unit (Drop.id drop)) (reservations db)).
  { apply (count_positive _ _ h Hin). unfold holds_unit.
    rewrite Hid, Z.eqb_refl, Hst. reflexivity. }
  destruct (cancelReservation_accepts io userId id db h drop)
    as (db' & log & ->); try assumption; [lia | discriminate].
Qed.

Lemma cancelReservation_never_errs_witness :
  fst (fst (cancelReservation listening 7 3 shop)) <> Next TypeError.
Proof.
  apply (cancelReservation_never_errs 60 shop listening 7 3).
  - exact shop_leaves_stock.
  - intro e. reflexivity.
Defined.

(** X8: on a socket that does not throw, a purchase is answered with a
    success or with one of the two rejections, never with an error: the
    drop joined to the reservation is never missing, and its price always
    passes the validator of the purchase. *)
Theorem completePurchase_never_errs t db io now userId reservationId :
  reachable t db -> reliable io ->
  forall e,
    fst (fst (completePurchase io now userId reservationId db)) <> Next e.
Proof.
  intros H Hio e.
  destruct (Reservation_findOne (own_active reservationId userId) db)
    as [h|] eqn:Hh;
    [|unfold completePurchase; rewrite Hh; discriminate].
  destruct (Reservation.isExpired now h) eqn:Hexp;
    [unfold completePurchase; rewrite Hh, Hexp; discriminate|].
  pose proof (findOne_own_active_some _ _ _ _ Hh) as (Hin & _ & _ & Hst).
  apply reachable_sound in H as (_ & [Hv _] & [Hr _]).
  destruct (findByPk_stored _ _ (Hr h Hin)) as [drop Hdrop].
  pose proof (findByPk_some _ _ _ Hdrop) as [Hd Hid].
  destruct (validate_new_bounds drop (Hv drop Hd)) as (Hp & _ & _).
  unfold Reservation.isExpired in Hexp.
  apply orb_false_iff in Hexp as [Hexp _]. apply Z.ltb_ge in Hexp.
  destruct (completePurchase_accepts io now userId reservationId db h drop)
    as (data & db' & log & ->); try assumption; discriminate.
Qed.

Lemma completePurchase_never_errs_witness :
  fst (fst (completePurchase listening 70 7 3 shop)) <> Next TypeError.
Proof.
  apply (completePurchase_never_errs 60 shop listening 70 7 3).
  - exact shop_reachable.
  - intro e. reflexivity.
Defined.

(** X9: as long as no request sets the stock of a drop by hand, on a
    socket that does not throw, every tick of the cron job commits: no drop
    is ever short of room for the units its expired reservations give
    back. *)
Theorem processExpiredReservations_always_commits t db io now :
  reachable_by leaves_stock t db -> reliable io ->
  fst (fst (processExpiredReservations io now db)) = Committed.
Proof.
  intros H Hio.
  pose proof (reachable_by_conserved t db H) as Hc.
  apply reachable_by_reachable, reachable_sound in H as (_ & [Hv _] & _).
  destruct (processExpiredReservations_commits io now db Hio)
    as (db' & log & ->); [|reflexivity].
  intros d Hd. specialize (Hc d Hd).
  destruct (validate_new_bounds d (Hv d Hd)) as (_ & H0 & _).
  pose proof (returned_le_held now db (Drop.id d)). lia.
Qed.

Lemma processExpiredReservations_always_commits_witness :
  fst (fst (processExpiredReservations listening 70000 shop)) = Committed.
Proof.
  apply (processExpiredReservations_always_commits 60 shop listening 70000).
  - exact shop_leaves_stock.
  - intro e. reflexivity.
Defined.

(** ** The socket *)

(** X10: the three handlers that open a transaction emit their events after
    its commit, and a run that commits never rolls back. *)
Theorem request_handlers_emit_after_commit env io now userId id db :
  forall log,
    In log [snd (reserveItem env io now userId id db);
            snd (cancelReservation io userId id db);
            snd (completePurchase io now userId id db)] ->
    emits_after_commit tx_none log = true
    /\ (In TxCommit log -> ~ In TxRollback log).
Proof.
  intros log [<-|[<-|[<-|[]]]].
  - apply reserveItem_emits_after_commit.
  - apply cancelReservation_emits_after_commit.
  - apply completePurchase_emits_after_commit.
Qed.

Lemma request_handlers_emit_after_commit_witness :
  emits_after_commit tx_none
    [TxBegin; TxCommit; Emit (stockUpdate 3 3);
     Emit (reservationCreated 5 3 9)] = true
  /\ (In TxCommit
        [TxBegin; TxCommit; Emit (stockUpdate 3 3);
         Emit (reservationCreated 5 3 9)] ->
      ~ In TxRollback
          [TxBegin; TxCommit; Emit (stockUpdate 3 3);
           Emit (reservationCreated 5 3 9)]).
Proof.
  apply (request_handlers_emit_after_commit None listening 70 9 3 shop).
  left. reflexivity.
Defined.

(** X11: what a request leaves in the store does not depend on the socket:
    an [io.emit] that throws turns the reply into an error after the change
    is made, and undoes nothing.  (The cron job is the exception: it emits
    inside its transaction.) *)
Theorem store_independent_of_socket env io io' now rq db :
  rq <> cron_tick -> serve env io now rq db = serve env io' now rq db.
Proof.
  intro Hrq.
  destruct rq as [name price stock initial start | id updates | id
                 | userId dropId | userId id | userId id | ]; simpl;
    [| | | | | |contradiction].
  - destruct (validateCreateDrop _ _ _ _); [|reflexivity].
    unfold createDrop. destruct (Drop_create _ _ _ _ _ _) as [e|[d db1]];
      [reflexivity|].
    destruct (io_emit io _), (io_emit io' _). reflexivity.
  - unfold updateDrop. destruct (Drop_findByPk _ _); [|reflexivity].
    destruct (Drop_save _ _ _); [reflexivity|].
    destruct (io_emit io _), (io_emit io' _). reflexivity.
  - unfold deleteDrop. destruct (Drop_findByPk _ _); [|reflexivity].
    destruct (io_emit io _), (io_emit io' _). reflexivity.
  - unfold reserveItem. destruct (Reservation_findOne _ _); [reflexivity|].
    destruct (Drop_findByPk _ _); [|reflexivity].
    destruct (negb _); [reflexivity|].
    destruct (_ <=? _); [reflexivity|].
    destruct (Drop_save _ _ _); [reflexivity|].
    destruct (Reservation_create _ _ _ _ _) as [e|[r db2]]; [reflexivity|].
    destruct (io_emit io _), (io_emit io' _). reflexivity.
  - unfold cancelReservation.
    destruct (Reservation_findOne _ _); [|reflexivity].
    destruct (Drop_findByPk _ _); [|reflexivity].
    destruct (Drop_save _ _ _); [reflexivity|].
    destruct (io_emit io _), (io_emit io' _). reflexivity.
  - unfold completePurchase.
    destruct (Reservation_findOne _ _); [|reflexivity].
    destruct (Reservation.isExpired _ _); [reflexivity|].
    destruct (Drop_findByPk _ _); [|reflexivity].
    destruct (Purchase_create _ _ _ _ _) as [e|[p db2]]; [reflexivity|].
    destruct (io_emit io _), (io_emit io' _). reflexivity.
Qed.

Lemma store_independent_of_socket_witness :
  serve None broken 70 (POST_reservations 9 3) shop
  = serve None listening 70 (POST_reservations 9 3) shop.
Proof.
  apply (store_independent_of_socket None broken listening 70
           (POST_reservations 9 3) shop).
  discriminate.
Defined.

(** ** What a request leaves alone *)

Lemma return_stock_purchases io entries : forall db db2 log,
  return_stock io entries db = (inr db2, log) ->
  purchases db2 = purchases db /\ purchases_seq db2 = purchases_seq db.
Proof.
  induction entries as [|[k n] rest IH]; intros db db2 log; simpl.
  - now intros [= <- _].
  - destruct (Drop_findByPk k db) as [drop|]; [|apply IH].
    destruct (Drop_save _ _ db) as [e|db1] eqn:Hsave; [discriminate|].
    destruct (io_emit io _) as [emitted [|]]; [|discriminate].
    destruct (return_stock io rest db1) as [r log1] eqn:Hrest.
    intros [= -> _]. apply IH in Hrest.
    apply Drop_save_inr in Hsave as (-> & _). exact Hrest.
Qed.

Lemma find_filter_kept {A : Type} (p q : A -> bool) (l : list A) :
  (forall x, p x = true -> q x = true) -> find p (filter q l) = find p l.
Proof.
  intro H. induction l as [|x l IH]; [reflexivity|]. simpl.
  destruct (q x) eqn:Hq; simpl.
  - now rewrite IH.
  - destruct (p x) eqn:Hp; [|exact IH].
    rewrite (H x Hp) in Hq. discriminate.
Qed.

Lemma find_map_keyed k (f : Drop.t -> Drop.t) l :
  (forall x, Drop.id (f x) = Drop.id x) ->
  find (fun x => Drop.id x =? k) (map f l)
  = option_map f (find (fun x => Drop.id x =? k) l).
Proof.
  intro H. induction l as [|x l IH]; [reflexivity|]. simpl.
  rewrite H. destruct (Drop.id x =? k); [reflexivity | exact IH].
Qed.

Lemma find_app_some {A : Type} (p : A -> bool) (l l' : list A) (x : A) :
  find p l = Some x -> find p (l ++ l') = Some x.
Proof.
  induction l as [|y l IH]; simpl; [discriminate|].
  destruct (p y); auto.
Qed.

Lemma find_app_none {A : Type} (p : A -> bool) (l l' : list A) :
  find p l = None -> find p (l ++ l') = find p l'.
Proof.
  induction l as [|y l IH]; simpl; [reflexivity|].
  destruct (p y); [discriminate | auto].
Qed.

(** X12: a purchase, once made, is never changed: a request leaves the
    purchases as they are, or [completePurchase] appends one (of the caller,
    dated [now], under the next id), or [deleteDrop] removes those of the
    deleted drop. *)
Theorem purchases_append_only env io now rq db :
  purchases (serve env io now rq db) = purchases db
  \/ (exists userId reservationId p,
         rq = POST_purchases userId reservationId
         /\ purchases (serve env io now rq db) = purchases db ++ [p]
         /\ Purchase.id p = purchases_seq db
         /\ Purchase.user_id p = userId
         /\ Purchase.purchased_at p = now)
  \/ (exists id,
         rq = DELETE_drops id
         /\ purchases (serve env io now rq db)
            = filter (fun p => negb (Purchase.drop_id p =? id))
                (purchases db)).
Proof.
  destruct (serve_change env io now rq db) as [-> | Hch]; [now left|].
  destruct Hch as [name price stock initial start Hval
                  | id updates drop Hdrop Hval Hhook
                  | id drop Hdrop
                  | userId dropId drop Hdup Hdrop Hstart Hpos Hceil Hdur
                  | userId id h drop Hh Hdrop Hceil
                  | userId id h Hh Hdrop
                  | userId id h drop Hh Hexp Hdrop Hprice
                  | io0 db2 log Hret]; simpl; try (now left).
  - right. right. exists id. split; [reflexivity|].
    apply findByPk_some in Hdrop as [_ ->]. reflexivity.
  - right. left. eexists userId, id, _. repeat split; reflexivity.
  - left. apply return_stock_purchases in Hret as [-> _].
    rewrite mark_expired_spec. reflexivity.
Qed.

(** X13: the [initial_stock] of a stored drop never changes, and its name,
    its price and its start time change only by an update of that drop. *)
Theorem drop_fields_kept env io now rq db k d d' :
  keyed db ->
  Drop_findByPk k db = Some d ->
  Drop_findByPk k (serve env io now rq db) = Some d' ->
  Drop.initial_stock d' = Drop.initial_stock d
  /\ ((forall updates, rq <> PUT_drops k updates) ->
      Drop.name d' = Drop.name d /\ Drop.price d' = Drop.price d
      /\ Drop.drop_start_time d' = Drop.drop_start_time d).
Proof.
  intros [[Hdk _] [Hrk _]] Hd Hd'.
  assert (Hsame : forall x, Some d = Some x ->
            Drop.initial_stock x = Drop.initial_stock d
            /\ ((forall updates, rq <> PUT_drops k updates) ->
                Drop.name x = Drop.name d /\ Drop.price x = Drop.price d
                /\ Drop.drop_start_time x = Drop.drop_start_time d)).
  { intros x [= <-]. auto. }
  assert (Hstock : forall drop v,
            Drop_findByPk (Drop.id drop) db = Some drop ->
            Drop_findByPk k
              (with_drops db
                 (map (Drop_write (Drop.set_stock drop v)) (drops db)))
            = Some d' ->
            Drop.initial_stock d' = Drop.initial_stock d
            /\ Drop.name d' = Drop.name d /\ Drop.price d' = Drop.price d
            /\ Drop.drop_start_time d' = Drop.drop_start_time d).
  { intros drop v Hdrop Hw. unfold Drop_findByPk in Hw. simpl in Hw.
    destruct (Z.eq_dec k (Drop.id drop)) as [->|Hne].
    - rewrite Hd in Hdrop. injection Hdrop as <-.
      rewrite (find_written (Drop.id d) (Drop.set_stock d v) _ d) in Hw;
        [|exact Hd|reflexivity].
      injection Hw as <-. auto.
    - rewrite find_not_written in Hw by exact Hne.
      unfold Drop_findByPk in Hd. rewrite Hd in Hw. injection Hw as <-.
      auto. }
  destruct (serve_change env io now rq db) as [E | Hch];
    [rewrite E, Hd in Hd'; now apply Hsame|].
  destruct Hch as [name price stock initial start Hval
                  | id updates drop Hdrop Hval Hhook
                  | id drop Hdrop
                  | userId dropId drop Hdup Hdrop Hstart Hpos Hceil Hdur
                  | userId id h drop Hh Hdrop Hceil
                  | userId id h Hh Hdrop
                  | userId id h drop Hh Hexp Hdrop Hprice
                  | io0 db2 log Hret].
  - unfold Drop_findByPk in Hd'. simpl in Hd'.
    rewrite (find_app_some _ _ _ d Hd) in Hd'. now apply Hsame.
  - unfold Drop_findByPk in Hd'. simpl in Hd'.
    pose proof (findByPk_some _ _ _ Hdrop) as [_ Hid].
    destruct (Z.eq_dec k id) as [->|Hne].
    + rewrite Hd in Hdrop. injection Hdrop as <-.
      rewrite (find_written id (apply_updates updates d) _ d) in Hd';
        [|exact Hd|now rewrite apply_updates_id].
      injection Hd' as <-. split.
      * apply apply_updates_initial_stock.
      * intro Hrq. now destruct (Hrq updates).
    + rewrite find_not_written in Hd'
        by (rewrite apply_updates_id; congruence).
      unfold Drop_findByPk in Hd. rewrite Hd in Hd'. now apply Hsame.
  - unfold Drop_findByPk, Drop_destroy in Hd'. simpl in Hd'.
    destruct (Z.eq_dec k (Drop.id drop)) as [->|Hne].
    + apply find_some in Hd' as [Hin Hk]. apply filter_In in Hin as [_ Hin].
      rewrite Hk in Hin. discriminate.
    + rewrite find_filter_kept in Hd'.
      * unfold Drop_findByPk in Hd. rewrite Hd in Hd'. now apply Hsame.
      * intros x Hx. apply Z.eqb_eq in Hx. apply negb_true_iff, Z.eqb_neq.
        congruence.
  - pose proof (findByPk_some _ _ _ Hdrop) as [_ Hid]. subst dropId.
    destruct (Hstock drop (Drop.stock drop - 1) Hdrop) as (H1 & H2);
      [exact Hd'|auto].
  - pose proof (findByPk_some _ _ _ Hdrop) as [_ Hid]. rewrite <- Hid in Hdrop.
    destruct (Hstock drop (Drop.stock drop + 1) Hdrop) as (H1 & H2);
      [exact Hd'|auto].
  - unfold Drop_findByPk in Hd'. simpl in Hd'.
    unfold Drop_findByPk in Hd. rewrite Hd in Hd'. now apply Hsame.
  - unfold Drop_findByPk in Hd'. simpl in Hd'.
    unfold Drop_findByPk in Hd. rewrite Hd in Hd'. now apply Hsame.
  - apply tick_store in Hret; [|assumption..]. subst db2.
    unfold Drop_findByPk in Hd'. simpl in Hd'.
    rewrite find_map_keyed in Hd' by reflexivity.
    unfold Drop_findByPk in Hd. rewrite Hd in Hd'. simpl in Hd'.
    injection Hd' as <-. auto.
Qed.

Lemma drop_fields_kept_witness :
  Drop.initial_stock (Drop.mk 3 "Dunk Low" 12000 3 5 None)
  = Drop.initial_stock (Drop.mk 3 "Dunk Low" 12000 4 5 None)
  /\ ((forall updates, POST_reservations 9 3 <> PUT_drops 3 updates) ->
      Drop.name (Drop.mk 3 "Dunk Low" 12000 3 5 None)
      = Drop.name (Drop.mk 3 "Dunk Low" 12000 4 5 None)
      /\ Drop.price (Drop.mk 3 "Dunk Low" 12000 3 5 None)
         = Drop.price (Drop.mk 3 "Dunk Low" 12000 4 5 None)
      /\ Drop.drop_start_time (Drop.mk 3 "Dunk Low" 12000 3 5 None)
         = Drop.drop_start_time (Drop.mk 3 "Dunk Low" 12000 4 5 None)).
Proof.
  apply (drop_fields_kept None listening 70 (POST_reservations 9 3) shop 3).
  - unfold keyed, keys_below. simpl.
    repeat split; repeat constructor; simpl; intuition lia.
  - reflexivity.
  - reflexivity.
Defined.

(** X14: a reservation never changes hands: whatever request is served, the
    row stored under its id keeps its user, its drop and its deadline, and
    its status stays as it is or leaves [active] for good; an expired or
    completed reservation is never touched again. *)
Theorem reservations_only_settle env io now rq db r r' :
  keyed db ->
  In r (reservations db) ->
  In r' (reservations (serve env io now rq db)) ->
  Reservation.id r' = Reservation.id r ->
  Reservation.user_id r' = Reservation.user_id r
  /\ Reservation.drop_id r' = Reservation.drop_id r
  /\ Reservation.expires_at r' = Reservation.expires_at r
  /\ (Reservation.status r' = Reservation.status r
      \/ (Reservation.status r = Reservation.active
          /\ Reservation.status r' <> Reservation.active)).
Proof.
  intros [[Hdk _] [Hrk Hrlt]] Hr Hr' Hid.
  assert (Hsame : In r' (reservations db) ->
            Reservation.user_id r' = Reservation.user_id r
            /\ Reservation.drop_id r' = Reservation.drop_id r
            /\ Reservation.expires_at r' = Reservation.expires_at r
            /\ (Reservation.status r' = Reservation.status r
                \/ (Reservation.status r = Reservation.active
                    /\ Reservation.status r' <> Reservation.active))).
  { intro Hin.
    assert (r' = r) by (eapply NoDup_key_inj; eauto). subst. auto. }
  assert (Hwrite : forall h s,
            In h (reservations db) ->
            Reservation.status h = Reservation.active ->
            s <> Reservation.active ->
            In r' (map (Reservation_write (Reservation.set_status h s))
                     (reservations db)) ->
            Reservation.user_id r' = Reservation.user_id r
            /\ Reservation.drop_id r' = Reservation.drop_id r
            /\ Reservation.expires_at r' = Reservation.expires_at r
            /\ (Reservation.status r' = Reservation.status r
                \/ (Reservation.status r = Reservation.active
                    /\ Reservation.status r' <> Reservation.active))).
  { intros h s Hh Hst Hs Hin.
    apply in_map_iff in Hin as (x & <- & Hx).
    rewrite Reservation_write_id in Hid.
    assert (x = r) by (eapply NoDup_key_inj; eauto). subst x.
    unfold Reservation_write. simpl.
    destruct (Reservation.id r =? Reservation.id h) eqn:Hk; [|auto].
    apply Z.eqb_eq in Hk.
    assert (r = h) by (eapply NoDup_key_inj; eauto). subst h.
    simpl. split; [|split; [|split]]; auto. }
  destruct (serve_change env io now rq db) as [E | Hch];
    [rewrite E in Hr'; now apply Hsame|].
  destruct Hch as [name price stock initial start Hval
                  | id updates drop Hdrop Hval Hhook
                  | id drop Hdrop
                  | userId dropId drop Hdup Hdrop Hstart Hpos Hceil Hdur
                  | userId id h drop Hh Hdrop Hceil
                  | userId id h Hh Hdrop
                  | userId id h drop Hh Hexp Hdrop Hprice
                  | io0 db2 log Hret]; simpl in Hr'.
  - now apply Hsame.
  - now apply Hsame.
  - apply filter_In in Hr' as [Hr' _]. now apply Hsame.
  - apply in_app_or in Hr' as [Hr'|[<-|[]]]; [now apply Hsame|].
    simpl in Hid. rewrite Forall_forall in Hrlt.
    specialize (Hrlt (Reservation.id r) (in_map _ _ _ Hr)). lia.
  - apply findOne_own_active_some in Hh as (Hh & _ & _ & Hst).
    apply (Hwrite h Reservation.expired); auto; discriminate.
  - apply findOne_own_active_some in Hh as (Hh & _ & _ & Hst).
    apply (Hwrite h Reservation.expired); auto; discriminate.
  - apply findOne_own_active_some in Hh as (Hh & _ & _ & Hst).
    apply (Hwrite h Reservation.completed); auto; discriminate.
  - apply tick_store in Hret; [|assumption..]. subst db2. simpl in Hr'.
    apply in_map_iff in Hr' as (x & <- & Hx).
    assert (Hidx : Reservation.id (expire_due now x) = Reservation.id x).
    { unfold expire_due. now destruct (due now x). }
    rewrite Hidx in Hid.
    assert (x = r) by (eapply NoDup_key_inj; eauto). subst x.
    unfold expire_due, due.
    destruct (Reservation.status r) eqn:Hst; simpl; auto.
    destruct (Reservation.expires_at r <? now); simpl; auto.
    repeat split; auto. right. split; [reflexivity | discriminate].
Qed.

Lemma reservations_only_settle_witness :
  Reservation.user_id (Reservation.mk 3 7 1 Reservation.expired 60050)
  = Reservation.user_id (Reservation.mk 3 7 1 Reservation.active 60050)
  /\ Reservation.drop_id (Reservation.mk 3 7 1 Reservation.expired 60050)
     = Reservation.drop_id (Reservation.mk 3 7 1 Reservation.active 60050)
  /\ Reservation.expires_at (Reservation.mk 3 7 1 Reservation.expired 60050)
     = Reservation.expires_at (Reservation.mk 3 7 1 Reservation.active 60050)
  /\ (Reservation.status (Reservation.mk 3 7 1 Reservation.expired 60050)
      = Reservation.status (Reservation.mk 3 7 1 Reservation.active 60050)
      \/ (Reservation.status (Reservation.mk 3 7 1 Reservation.active 60050)
          = Reservation.active
          /\ Reservation.status
               (Reservation.mk 3 7 1 Reservation.expired 60050)
             <> Reservation.active)).
Proof.
  apply (reservations_only_settle None listening 70000 cron_tick shop).
  - unfold keyed, keys_below. simpl.
    repeat split; repeat constructor; simpl; intuition lia.
  - simpl. auto.
  - simpl. auto.
  - reflexivity.
Defined.

(** ** How the handlers compose *)

Lemma reserveItem_inv env io now userId dropId db code data db1 log :
  reserveItem env io now userId dropId db = (Success code data, db1, log) ->
  exists drop,
    Reservation_findOne (duplicate_of now userId dropId) db = None
    /\ Drop_findByPk dropId db = Some drop
    /\ 0 < Drop.stock drop
    /\ 0 < reservationDuration env
    /\ db1
       = mkDB
           (map (Drop_write (Drop.set_stock drop (Drop.stock drop - 1)))
              (drops db))
           (reservations db
            ++ [Reservation.mk (reservations_seq db) userId dropId
                  Reservation.active (now + reservationDuration env)])
           (purchases db)
           (drops_seq db) (reservations_seq db + 1) (purchases_seq db)
    /\ reservation_id data = reservations_seq db
    /\ reservation_expires_at data = now + reservationDuration env
    /\ remaining_seconds data = reservationDuration env / 1000.
Proof.
  unfold reserveItem, rolled_back.
  destruct (Reservation_findOne _ db) eqn:Hdup; [discriminate|].
  destruct (Drop_findByPk dropId db) as [drop|] eqn:Hdrop; [|discriminate].
  destruct (negb (Drop.hasStarted now drop)); [discriminate|].
  destruct (Drop.stock drop <=? 0) eqn:Hstock; [discriminate|].
  destruct (Drop_save _ _ db) as [e|db0] eqn:Hsave; [discriminate|].
  destruct (Reservation_create _ _ _ _ db0) as [e|[r db2]] eqn:Hcreate;
    [discriminate|].
  destruct (io_emit io _) as [emitted [|]]; [|discriminate].
  intros [= <- <- <- _].
  apply Drop_save_inr in Hsave as (-> & _ & _).
  apply Reservation_create_inr in Hcreate as (-> & -> & Hdur).
  apply Z.leb_gt in Hstock. exists drop. simpl.
  repeat split; auto; try lia.
  unfold Reservation.getRemainingTime. simpl.
  replace (now + reservationDuration env - now) with (reservationDuration env)
    by lia.
  apply Z.max_r. apply Z.div_pos; lia.
Qed.

Lemma cancelReservation_inv io userId id db code db' log :
  cancelReservation io userId id db = (Success code tt, db', log) ->
  exists h,
    Reservation_findOne (own_active id userId) db = Some h
    /\ match Drop_findByPk (Reservation.drop_id h) db with
       | Some drop =>
           db'
           = mkDB
               (map (Drop_write (Drop.set_stock drop (Drop.stock drop + 1)))
                  (drops db))
               (map (Reservation_write
                       (Reservation.set_status h Reservation.expired))
                  (reservations db))
               (purchases db)
               (drops_seq db) (reservations_seq db) (purchases_seq db)
       | None => db' = Reservation_save_status h Reservation.expired db
       end.
Proof.
  unfold cancelReservation, rolled_back.
  destruct (Reservation_findOne _ db) as [h|] eqn:Hh; [|discriminate].
  change (Drop_findByPk (Reservation.drop_id h)
            (Reservation_save_status h Reservation.expired db))
    with (Drop_findByPk (Reservation.drop_id h) db).
  destruct (Drop_findByPk _ db) as [drop|] eqn:Hdrop.
  - destruct (Drop_save _ _ _) as [e|db2] eqn:Hsave; [discriminate|].
    destruct (io_emit io _) as [emitted [|]]; [|discriminate].
    intros [= _ <- _]. exists h. split; [reflexivity|]. rewrite Hdrop.
    apply Drop_save_inr in Hsave as (-> & _ & _). reflexivity.
  - intros [= _ <- _]. exists h. split; [reflexivity|]. now rewrite Hdrop.
Qed.

Lemma completePurchase_inv io now userId id db code data db' log :
  completePurchase io now userId id db = (Success code data, db', log) ->
  exists h drop,
    Reservation_findOne (own_active id userId) db = Some h
    /\ Reservation.isExpired now h = false
    /\ Drop_findByPk (Reservation.drop_id h) db = Some drop
    /\ db'
       = mkDB (drops db)
           (map (Reservation_write
                   (Reservation.set_status h Reservation.completed))
              (reservations db))
           (purchases db
            ++ [Purchase.mk (purchases_seq db) userId (Reservation.drop_id h)
                  (Drop.price drop) now])
           (drops_seq db) (reservations_seq db) (purchases_seq db + 1)
    /\ data
       = mkPurchased (purchases_seq db) (Reservation.drop_id h)
           (Drop.price drop) now.
Proof.
  unfold completePurchase, rolled_back.
  destruct (Reservation_findOne _ db) as [h|] eqn:Hh; [|discriminate].
  destruct (Reservation.isExpired now h) eqn:Hexp; [discriminate|].
  destruct (Drop_findByPk _ db) as [drop|] eqn:Hdrop; [|discriminate].
  destruct (Purchase_create _ _ _ _ _) as [e|[p db2]] eqn:Hp; [discriminate|].
  destruct (io_emit io _) as [emitted [|]]; [|discriminate].
  intros [= _ <- <- _]. exists h, drop.
  apply Purchase_create_inr in Hp as (-> & ->). simpl.
  repeat split; auto.
Qed.

Lemma rewritten_back drop d1 l :
  NoDup (map Drop.id l) -> In drop l -> Drop.id d1 = Drop.id drop ->
  map (Drop_write drop) (map (Drop_write d1) l) = l.
Proof.
  intros Hnd Hin Hid. rewrite map_map. rewrite <- (map_id l) at 2.
  apply map_ext_in. intros x Hx.
  destruct (Z.eq_dec (Drop.id x) (Drop.id drop)) as [He|Hne].
  - assert (x = drop) by (eapply NoDup_key_inj; eauto). subst x.
    rewrite (Drop_write_hit d1 drop) by congruence.
    now apply Drop_write_hit.
  - rewrite (Drop_write_miss d1 x) by congruence.
    now apply Drop_write_miss.
Qed.

Lemma write_appended r r' l :
  (forall x, In x l -> Reservation.id x <> Reservation.id r) ->
  Reservation.id r' = Reservation.id r ->
  map (Reservation_write r') (l ++ [r]) = l ++ [r'].
Proof.
  intros Hl Hid. rewrite map_app. f_equal.
  - rewrite <- (map_id l) at 2. apply map_ext_in. intros x Hx.
    unfold Reservation_write.
    destruct (Reservation.id x =? Reservation.id r') eqn:He; [|reflexivity].
    apply Z.eqb_eq in He. destruct (Hl x Hx). congruence.
  - simpl. unfold Reservation_write. now rewrite Hid, Z.eqb_refl.
Qed.

Lemma fresh_reservation db x :
  keyed db -> In x (reservations db) ->
  Reservation.id x <> reservations_seq db.
Proof.
  intros [_ [_ Hlt]] Hin. rewrite Forall_forall in Hlt.
  specialize (Hlt _ (in_map Reservation.id _ _ Hin)). lia.
Qed.

Lemma findOne_appended db userId drop0 expires dr pu s1 s2 s3 :
  keyed db ->
  Reservation_findOne (own_active (reservations_seq db) userId)
    (mkDB dr
       (reservations db
        ++ [Reservation.mk (reservations_seq db) userId drop0
              Reservation.active expires])
       pu s1 s2 s3)
  = Some (Reservation.mk (reservations_seq db) userId drop0
            Reservation.active expires).
Proof.
  intro Hk. unfold Reservation_findOne. simpl.
  rewrite find_app_none.
  - simpl. unfold own_active. simpl. now rewrite !Z.eqb_refl.
  - destruct (find _ (reservations db)) as [x|] eqn:Hf; [|reflexivity].
    apply find_some in Hf as [Hin Hown]. apply own_active_key in Hown.
    now destruct (fresh_reservation db x Hk Hin).
Qed.

(** X15: a reservation that is cancelled is undone: in a store within the
    ceiling, after a successful [reserveItem] the cancellation of the new
    reservation by the same user succeeds, at whatever time, and leaves the
    drops and the purchases as they were before the reservation; all that
    remains is the row of the reservation, expired. *)
Theorem reserve_then_cancel t env io io' now userId dropId db data db1 log :
  reachable t db -> within_ceiling db -> reliable io' ->
  reserveItem env io now userId dropId db = (Success 201 data, db1, log) ->
  exists log',
    cancelReservation io' userId (reservation_id data) db1
    = (Success 200 tt,
       mkDB (drops db)
         (reservations db
          ++ [Reservation.mk (reservation_id data) userId dropId
                Reservation.expired (reservation_expires_at data)])
         (purchases db)
         (drops_seq db) (reservations_seq db + 1) (purchases_seq db),
       log').
Proof.
  intros Hreach Hceil Hio Hres.
  apply reachable_sound in Hreach as (Hk & _ & _).
  apply reserveItem_inv in Hres
    as (drop & _ & Hdrop & Hpos & _ & -> & -> & -> & _).
  pose proof (findByPk_some _ _ _ Hdrop) as [Hin Hid].
  destruct (Hceil drop Hin) as [_ Hle].
  set (r := Reservation.mk (reservations_seq db) userId dropId
              Reservation.active (now + reservationDuration env)).
  set (drop' := Drop.set_stock drop (Drop.stock drop - 1)).
  set (db1 := mkDB (map (Drop_write drop') (drops db))
                (reservations db ++ [r]) (purchases db)
                (drops_seq db) (reservations_seq db + 1) (purchases_seq db)).
  assert (Hh : Reservation_findOne
                 (own_active (reservations_seq db) userId) db1 = Some r)
    by now apply findOne_appended.
  assert (Hd1 : Drop_findByPk (Reservation.drop_id r) db1 = Some drop').
  { unfold Drop_findByPk. simpl.
    apply (find_written dropId drop' _ drop); assumption. }
  destruct (cancelReservation_accepts io' userId (reservations_seq db) db1
              r drop' Hio Hh Hd1) as (db2 & log' & Hcancel);
    [simpl; lia | simpl; lia |].
  exists log'. rewrite Hcancel. f_equal. f_equal.
  apply cancelReservation_inv in Hcancel as (h & Hh' & Hdb2).
  rewrite Hh in Hh'. injection Hh' as <-. rewrite Hd1 in Hdb2.
  rewrite Hdb2. unfold db1. simpl. f_equal.
  - assert (E : Drop.set_stock drop' (Drop.stock drop - 1 + 1) = drop).
    { unfold drop'. destruct drop. unfold Drop.set_stock. simpl.
      f_equal. lia. }
    rewrite E. apply rewritten_back; [apply Hk | assumption | reflexivity].
  - apply write_appended; [|reflexivity].
    intros x Hx. now apply (fresh_reservation db).
Qed.

Lemma reserve_then_cancel_witness :
  exists log',
    cancelReservation listening 9 5
      (store_of (reserveItem None listening 70 9 3 shop))
    = (Success 200 tt,
       mkDB (drops shop)
         (reservations shop
          ++ [Reservation.mk 5 9 3 Reservation.expired 60070])
         (purchases shop) 4 6 2,
       log').
Proof.
  apply (reserve_then_cancel 60 None listening listening 70 9 3 shop
           (mkReserved 5 3 Reservation.active 60070 60 3 3)
           (store_of (reserveItem None listening 70 9 3 shop))
           [TxBegin; TxCommit; Emit (stockUpdate 3 3);
            Emit (reservationCreated 5 3 9)]).
  - exact shop_reachable.
  - intros d Hin. simpl in Hin.
    destruct Hin as [<-|[<-|[<-|[]]]]; simpl; lia.
  - intro e. reflexivity.
  - reflexivity.
Defined.

(** X16: a reservation can be bought until its deadline and not after: after
    a successful [reserveItem], [completePurchase] by the same user succeeds
    at any time up to and including [expires_at], appending one purchase at
    the price of the drop and leaving the stock lowered; after [expires_at]
    it answers 400 and changes nothing. *)
Theorem reserve_then_purchase t env io io' now now' userId dropId db data db1
  log :
  reachable t db -> reliable io' ->
  reserveItem env io now userId dropId db = (Success 201 data, db1, log) ->
  (now' <= reservation_expires_at data ->
   exists drop log',
     Drop_findByPk dropId db = Some drop
     /\ completePurchase io' now' userId (reservation_id data) db1
        = (Success 201
             (mkPurchased (purchases_seq db) dropId (Drop.price drop) now'),
           mkDB (drops db1)
             (reservations db
              ++ [Reservation.mk (reservation_id data) userId dropId
                    Reservation.completed (reservation_expires_at data)])
             (purchases db
              ++ [Purchase.mk (purchases_seq db) userId dropId
                    (Drop.price drop) now'])
             (drops_seq db) (reservations_seq db + 1) (purchases_seq db + 1),
           log'))
  /\ (reservation_expires_at data < now' ->
      completePurchase io' now' userId (reservation_id data) db1
      = (Failure 400 "Reservation has expired", db1,
         [TxBegin; TxRollback])).
Proof.
  intros Hreach Hio Hres.
  apply reachable_sound in Hreach as (Hk & [Hv _] & _).
  apply reserveItem_inv in Hres
    as (drop & _ & Hdrop & Hpos & _ & -> & -> & -> & _).
  pose proof (findByPk_some _ _ _ Hdrop) as [Hin Hid].
  destruct (validate_new_bounds drop (Hv drop Hin)) as (Hprice & _ & _).
  set (r := Reservation.mk (reservations_seq db) userId dropId
              Reservation.active (now + reservationDuration env)).
  set (drop' := Drop.set_stock drop (Drop.stock drop - 1)).
  set (db1 := mkDB (map (Drop_write drop') (drops db))
                (reservations db ++ [r]) (purchases db)
                (drops_seq db) (reservations_seq db + 1) (purchases_seq db)).
  assert (Hh : Reservation_findOne
                 (own_active (reservations_seq db) userId) db1 = Some r)
    by now apply findOne_appended.
  assert (Hd1 : Drop_findByPk (Reservation.drop_id r) db1 = Some drop').
  { unfold Drop_findByPk. simpl.
    apply (find_written dropId drop' _ drop); assumption. }
  split.
  - intro Hnow.
    destruct (completePurchase_accepts io' now' userId (reservations_seq db)
                db1 r drop' Hio Hh Hnow Hd1 Hprice)
      as (bought & db2 & log' & Hbuy).
    exists drop, log'. split; [assumption|]. rewrite Hbuy.
    apply completePurchase_inv in Hbuy as (h & d0 & Hh' & _ & Hd0 & -> & ->).
    rewrite Hh in Hh'. injection Hh' as <-.
    rewrite Hd1 in Hd0. injection Hd0 as <-.
    unfold db1. simpl. f_equal. f_equal. f_equal.
    apply write_appended; [|reflexivity].
    intros x Hx. now apply (fresh_reservation db).
  - intro Hlate. unfold completePurchase. rewrite Hh.
    unfold Reservation.isExpired. simpl.
    apply Z.ltb_lt in Hlate. rewrite Hlate. reflexivity.
Qed.

Lemma reserve_then_purchase_witness :
  (exists drop log',
      Drop_findByPk 3 shop = Some drop
      /\ completePurchase listening 60070 9 5
           (store_of (reserveItem None listening 70 9 3 shop))
         = (Success 201 (mkPurchased 2 3 (Drop.price drop) 60070),
            mkDB (drops (store_of (reserveItem None listening 70 9 3 shop)))
              (reservations shop
               ++ [Reservation.mk 5 9 3 Reservation.completed 60070])
              (purchases shop
               ++ [Purchase.mk 2 9 3 (Drop.price drop) 60070])
              4 6 3,
            log'))
  /\ completePurchase listening 60071 9 5
       (store_of (reserveItem None listening 70 9 3 shop))
     = (Failure 400 "Reservation has expired",
        store_of (reserveItem None listening 70 9 3 shop),
        [TxBegin; TxRollback]).
Proof.
  pose proof shop_reachable as H.
  assert (Hio : reliable listening) by (intro e; reflexivity).
  split.
  - apply (proj1 (reserve_then_purchase 60 None listening listening 70 60070
                    9 3 shop (mkReserved 5 3 Reservation.active 60070 60 3 3)
                    (store_of (reserveItem None listening 70 9 3 shop))
                    [TxBegin; TxCommit; Emit (stockUpdate 3 3);
                     Emit (reservationCreated 5 3 9)] H Hio eq_refl)).
    simpl. lia.
  - apply (proj2 (reserve_then_purchase 60 None listening listening 70 60071
                    9 3 shop (mkReserved 5 3 Reservation.active 60070 60 3 3)
                    (store_of (reserveItem None listening 70 9 3 shop))
                    [TxBegin; TxCommit; Emit (stockUpdate 3 3);
                     Emit (reservationCreated 5 3 9)] H Hio eq_refl)).
    simpl. lia.
Defined.

(** ** A unit comes back once *)

Lemma tick_commit_store io now db db' log :
  keyed db ->
  processExpiredReservations io now db = (Committed, db', log) ->
  db'
  = mkDB (map (credit now db) (drops db))
      (map (expire_due now) (reservations db)) (purchases db)
      (drops_seq db) (reservations_seq db) (purchases_seq db).
Proof.
  intros [[Hdk _] [Hrk _]]. unfold processExpiredReservations.
  destruct (Reservation_findAll (due now) db) as [|r0 l0] eqn:Hall.
  - intros [= <- _].
    assert (Hnone : forall r, In r (reservations db) -> due now r = false).
    { intros r Hr. destruct (due now r) eqn:Hdue; [|reflexivity].
      assert (Hin : In r (Reservation_findAll (due now) db))
        by (apply filter_In; auto).
      rewrite Hall in Hin. contradiction. }
    destruct db as [dr rs pu s1 s2 s3]. simpl in *. f_equal.
    + rewrite <- (map_id dr) at 1. apply map_ext. intro d.
      unfold credit, returned. simpl.
      replace (filter _ rs) with (@nil Reservation.t);
        [symmetry; apply set_stock_same|].
      symmetry. apply find_none_filter.
      destruct (find _ rs) as [x|] eqn:Hf; [|reflexivity].
      apply find_some in Hf as [Hx Hp]. rewrite (Hnone x Hx) in Hp.
      discriminate.
    + rewrite <- (map_id rs) at 1. apply map_ext_in. intros r Hr.
      unfold expire_due. now rewrite (Hnone r Hr).
  - destruct (mark_expired (r0 :: l0) db []) as [db1 o] eqn:Hm.
    destruct (return_stock io o db1) as [[e|db2] log1] eqn:Hret;
      [discriminate|].
    intros [= <- _]. apply (tick_store now db io db2 log1); try assumption.
    unfold dropStockUpdates_at. now rewrite Hall, Hm.
Qed.

Lemma expire_due_id now r :
  Reservation.id (expire_due now r) = Reservation.id r.
Proof. unfold expire_due. now destruct (due now r). Qed.

Lemma expire_due_settled now r : due now (expire_due now r) = false.
Proof.
  unfold expire_due. destruct (due now r) eqn:Hdue; [reflexivity|exact Hdue].
Qed.

(** X17: a unit comes back once.  After a tick of the cron job has
    committed, a second tick at the same instant finds nothing to do, and a
    reservation the tick has expired can neither be cancelled nor bought:
    both requests are answered 404 and change nothing. *)
Theorem swept_once io now db db' log :
  keyed db ->
  processExpiredReservations io now db = (Committed, db', log) ->
  (forall io',
      processExpiredReservations io' now db'
      = (Committed, db', [TxBegin; TxCommit]))
  /\ (forall r io',
         In r (reservations db) -> due now r = true ->
         cancelReservation io' (Reservation.user_id r) (Reservation.id r) db'
         = (Failure 404 "Active reservation not found", db',
            [TxBegin; TxRollback])
         /\ forall now',
              completePurchase io' now' (Reservation.user_id r)
                (Reservation.id r) db'
              = (Failure 404 "Active reservation not found", db',
                 [TxBegin; TxRollback])).
Proof.
  intros Hk Htick. pose proof (tick_commit_store _ _ _ _ _ Hk Htick) as Hdb'.
  destruct Hk as [_ [Hrk _]]. split.
  - intro io'. unfold processExpiredReservations, Reservation_findAll.
    replace (filter (due now) (reservations db')) with (@nil Reservation.t);
      [reflexivity|].
    symmetry. apply find_none_filter.
    destruct (find _ _) as [x|] eqn:Hf; [|reflexivity].
    apply find_some in Hf as [Hx Hdue]. rewrite Hdb' in Hx. simpl in Hx.
    apply in_map_iff in Hx as (y & <- & _).
    now rewrite expire_due_settled in Hdue.
  - intros r io' Hr Hdue.
    assert (Hnone : Reservation_findOne
                      (own_active (Reservation.id r) (Reservation.user_id r))
                      db' = None).
    { apply (findOne_terminal _ _ _ (expire_due now r)).
      - rewrite Hdb'. simpl. rewrite map_map.
        erewrite map_ext; [exact Hrk|]. intro x. apply expire_due_id.
      - rewrite Hdb'. simpl. now apply in_map.
      - apply expire_due_id.
      - unfold expire_due. rewrite Hdue. discriminate. }
    split; [|intro now'].
    + unfold cancelReservation. now rewrite Hnone.
    + unfold completePurchase. now rewrite Hnone.
Qed.

Lemma swept_once_witness :
  cancelReservation listening 7 3
    (snd (fst (processExpiredReservations listening 70000 shop)))
  = (Failure 404 "Active reservation not found",
     snd (fst (processExpiredReservations listening 70000 shop)),
     [TxBegin; TxRollback]).
Proof.
  assert (Hk : keyed shop).
  { unfold keyed, keys_below. simpl.
    repeat split; repeat constructor; simpl; intuition lia. }
  apply (proj2 (swept_once listening 70000 shop
                  (snd (fst (processExpiredReservations listening 70000
                               shop)))
                  [TxBegin; Emit (stockUpdate 1 2);
                   Emit (reservationExpired 1 2); TxCommit]
                  Hk eq_refl)
           (Reservation.mk 3 7 1 Reservation.active 60050) listening).
  - simpl. auto.
  - reflexivity.
Defined.

(** ** Deadlines *)

(** X18: the checks of an active reservation against the clock, as the
    handlers and the model's methods make them.  Before [expires_at] the
    reservation blocks a second one, can be bought, is left by the cron job,
    and shows the whole seconds that are left, rounded down (0 in the last
    second).  After [expires_at] it no longer blocks, cannot be bought, is
    due for the cron job and shows 0 seconds.  At the instant [expires_at]
    itself it can still be bought and is not due, but no longer blocks a
    second reservation of the same drop. *)
Theorem deadline_checks now r :
  Reservation.status r = Reservation.active ->
  let blocks :=
    duplicate_of now (Reservation.user_id r) (Reservation.drop_id r) r in
  let left := Reservation.getRemainingTime now r in
  (now < Reservation.expires_at r ->
   blocks = true /\ Reservation.isExpired now r = false
   /\ Reservation.isActive now r = true /\ due now r = false
   /\ 1000 * left <= Reservation.expires_at r - now < 1000 * left + 1000)
  /\ (now = Reservation.expires_at r ->
      blocks = false /\ Reservation.isExpired now r = false
      /\ Reservation.isActive now r = true /\ due now r = false
      /\ left = 0)
  /\ (Reservation.expires_at r < now ->
      blocks = false /\ Reservation.isExpired now r = true
      /\ Reservation.isActive now r = false /\ due now r = true
      /\ left = 0).
Proof.
  intros Hst blocks left. subst blocks left.
  unfold duplicate_of, Reservation.isActive, Reservation.isExpired, due,
    Reservation.getRemainingTime.
  rewrite Hst, !Z.eqb_refl. cbn [andb orb negb Reservation.status_eqb].
  rewrite !orb_false_r.
  pose proof (Z.div_mod (Reservation.expires_at r - now) 1000) as Hdm.
  pose proof (Z.mod_pos_bound (Reservation.expires_at r - now) 1000) as Hb.
  split; [|split]; intro H.
  - assert (H1 : (now <? Reservation.expires_at r) = true)
      by now apply Z.ltb_lt.
    assert (H2 : (Reservation.expires_at r <? now) = false)
      by (apply Z.ltb_ge; lia).
    rewrite H1, H2. repeat split; try reflexivity; lia.
  - assert (H1 : (now <? Reservation.expires_at r) = false)
      by (apply Z.ltb_ge; lia).
    assert (H2 : (Reservation.expires_at r <? now) = false)
      by (apply Z.ltb_ge; lia).
    rewrite H1, H2. repeat split; try reflexivity; lia.
  - assert (H1 : (now <? Reservation.expires_at r) = false)
      by (apply Z.ltb_ge; lia).
    assert (H2 : (Reservation.expires_at r <? now) = true)
      by now apply Z.ltb_lt.
    rewrite H1, H2. repeat split; try reflexivity; lia.
Qed.

Lemma deadline_checks_witness :
  duplicate_of 60050 7 1 (Reservation.mk 3 7 1 Reservation.active 60050)
  = false
  /\ Reservation.isExpired 60050
       (Reservation.mk 3 7 1 Reservation.active 60050) = false
  /\ Reservation.isActive 60050
       (Reservation.mk 3 7 1 Reservation.active 60050) = true
  /\ due 60050 (Reservation.mk 3 7 1 Reservation.active 60050) = false
  /\ Reservation.getRemainingTime 60050
       (Reservation.mk 3 7 1 Reservation.active 60050) = 0.
Proof.
  apply (proj1 (proj2 (deadline_checks 60050
                         (Reservation.mk 3 7 1 Reservation.active 60050)
                         eq_refl))).
  reflexivity.
Defined.

(** X19: whatever the configured duration, a reservation is made only with
    a deadline after [now]: when the duration is not positive (a negative
    RESERVATION_DURATION), no reservation succeeds, and every request leaves
    the store as it was. *)
Theorem reserveItem_needs_positive_duration env io now userId dropId db :
  reservationDuration env <= 0 ->
  store_of (reserveItem env io now userId dropId db) = db
  /\ (forall code data,
         fst (fst (reserveItem env io now userId dropId db))
         <> Success code data)
  /\ exists n, env = Some n /\ n < 0.
Proof.
  intro Hdur. split; [|split].
  - unfold reserveItem, rolled_back, store_of.
    destruct (Reservation_findOne _ db); [reflexivity|].
    destruct (Drop_findByPk dropId db) as [drop|]; [|reflexivity].
    destruct (negb _); [reflexivity|].
    destruct (_ <=? 0); [reflexivity|].
    destruct (Drop_save _ _ db) as [e|db1]; [reflexivity|].
    destruct (Reservation_create _ _ _ _ db1) as [e|[r db2]] eqn:Hc;
      [reflexivity|].
    apply Reservation_create_inr in Hc as (_ & _ & H). lia.
  - intros code data Hreply.
    destruct (reserveItem env io now userId dropId db) as [[r db'] log]
      eqn:Hres.
    simpl in Hreply. subst r.
    apply reserveItem_inv in Hres as (drop & _ & _ & _ & H & _). lia.
  - unfold reservationDuration in Hdur. destruct env as [n|]; [|lia].
    exists n. split; [reflexivity|].
    destruct (n =? 0) eqn:Hn; [lia|]. apply Z.eqb_neq in Hn. lia.
Qed.

Lemma reserveItem_needs_positive_duration_witness :
  store_of (reserveItem (Some (-5)) listening 70 9 3 shop) = shop
  /\ (forall code data,
         fst (fst (reserveItem (Some (-5)) listening 70 9 3 shop))
         <> Success code data)
  /\ exists n, Some (-5) = Some n /\ n < 0.
Proof.
  apply (reserveItem_needs_positive_duration (Some (-5)) listening 70 9 3
           shop).
  simpl. lia.
Defined.

(** ** Reading one row *)

Lemma change_purchases_keyed env now db rq db' :
  change env now db rq db' ->
  keys_below (purchases_seq db) (map Purchase.id (purchases db)) ->
  keys_below (purchases_seq db') (map Purchase.id (purchases db')).
Proof.
  intros Hch Hk.
  destruct Hch as [name price stock initial start Hval
                  | id updates drop Hdrop Hval Hhook
                  | id drop Hdrop
                  | userId dropId drop Hdup Hdrop Hstart Hpos Hceil Hdur
                  | userId id h drop Hh Hdrop Hceil
                  | userId id h Hh Hdrop
                  | userId id h drop Hh Hexp Hdrop Hprice
                  | io db2 log Hret]; simpl; try assumption.
  - now apply keys_below_filter.
  - rewrite map_app. simpl. now apply keys_below_app.
  - apply return_stock_purchases in Hret as [-> ->].
    rewrite mark_expired_spec. exact Hk.
Qed.

Lemma reachable_purchases_keyed t db :
  reachable t db ->
  keys_below (purchases_seq db) (map Purchase.id (purchases db)).
Proof.
  induction 1 as [t | t t' db env io rq Hreach IH Ht].
  - split; constructor.
  - destruct (serve_change env io t' rq db) as [-> | Hch]; [exact IH|].
    eapply change_purchases_keyed; eauto.
Qed.

(** X20: a reservation or a purchase is shown to its owner only.  Asked by
    id, [getReservationById] and [getPurchaseById] answer with the stored row
    (and, for a reservation, its flags at [now]) when it belongs to the
    caller, and with 404, as for an id that is not stored, when it belongs
    to somebody else. *)
Theorem reads_by_id_are_owner_only t db now userId :
  reachable t db ->
  (forall r, In r (reservations db) ->
     getReservationById now userId (Reservation.id r) db
     = if Reservation.user_id r =? userId
       then Success 200
              (mkReservationView r
                 (Drop_findByPk (Reservation.drop_id r) db)
                 (Reservation.isActive now r) (Reservation.isExpired now r)
                 (Reservation.getRemainingTime now r))
       else Next (AppError "Reservation not found" 404))
  /\ (forall p, In p (purchases db) ->
        getPurchaseById userId (Purchase.id p) db
        = if Purchase.user_id p =? userId
          then Success 200 (p, Drop_findByPk (Purchase.drop_id p) db)
          else Next (AppError "Purchase not found" 404))
  /\ (forall id, ~ In id (map Reservation.id (reservations db)) ->
        getReservationById now userId id db
        = Next (AppError "Reservation not found" 404))
  /\ (forall id, ~ In id (map Purchase.id (purchases db)) ->
        getPurchaseById userId id db
        = Next (AppError "Purchase not found" 404)).
Proof.
  intro H. pose proof (reachable_purchases_keyed t db H) as [Hpk _].
  apply reachable_sound in H as ([_ [Hrk _]] & _ & _).
  split; [|split; [|split]].
  - intros r Hr. unfold getReservationById, Reservation_findOne.
    rewrite (find_by_key Reservation.id _ _ r Hrk Hr).
    + rewrite Z.eqb_refl. simpl.
      now destruct (Reservation.user_id r =? userId).
    + intros x Hx. apply andb_true_iff in Hx as [Hx _].
      now apply Z.eqb_eq.
  - intros p Hp. unfold getPurchaseById.
    rewrite (find_by_key Purchase.id _ _ p Hpk Hp).
    + rewrite Z.eqb_refl. simpl.
      now destruct (Purchase.user_id p =? userId).
    + intros x Hx. apply andb_true_iff in Hx as [Hx _].
      now apply Z.eqb_eq.
  - intros id Hid. unfold getReservationById, Reservation_findOne.
    destruct (find _ _) as [x|] eqn:Hf; [|reflexivity].
    apply find_some in Hf as [Hx Hp]. apply andb_true_iff in Hp as [Hp _].
    apply Z.eqb_eq in Hp. subst id. destruct Hid. now apply in_map.
  - intros id Hid. unfold getPurchaseById.
    destruct (find _ _) as [x|] eqn:Hf; [|reflexivity].
    apply find_some in Hf as [Hx Hp]. apply andb_true_iff in Hp as [Hp _].
    apply Z.eqb_eq in Hp. subst id. destruct Hid. now apply in_map.
Qed.

Lemma reads_by_id_are_owner_only_witness :
  getReservationById 70 8 3 shop
  = Next (AppError "Reservation not found" 404)
  /\ getPurchaseById 7 1 shop = Next (AppError "Purchase not found" 404).
Proof.
  pose proof shop_reachable as H.
  split.
  - apply (proj1 (reads_by_id_are_owner_only 60 shop 70 8 H)
             (Reservation.mk 3 7 1 Reservation.active 60050)).
    simpl. auto.
  - apply (proj1 (proj2 (reads_by_id_are_owner_only 60 shop 70 7 H))
             (Purchase.mk 1 8 3 12000 40)).
    simpl. auto.
Defined.

(** ** How long ago a purchase was made *)



(** ** Updating and deleting a drop *)

(** X22: [updateDrop] answers 404 for a drop that is not stored; it refuses
    a new stock that is negative or above the initial stock, leaving the
    store as it was and emitting nothing; and where it succeeds, the row
    keeps its id and its initial stock, its stock is within the initial
    stock, and reservations and purchases are as before. *)
Theorem updateDrop_outcomes io id updates db :
  (Drop_findByPk id db = None ->
   updateDrop io id updates db
   = (Next (AppError "Drop not found" 404), db, []))
  /\ (forall drop v,
         Drop_findByPk id db = Some drop ->
         upd_stock updates = Some v -> v <> Drop.stock drop ->
         v < 0 \/ Drop.initial_stock drop < v ->
         exists e, updateDrop io id updates db = (Next e, db, []))
  /\ (forall code d' db' log,
         updateDrop io id updates db = (Success code d', db', log) ->
         exists drop,
           Drop_findByPk id db = Some drop
           /\ d' = apply_updates updates drop
           /\ Drop.id d' = id
           /\ Drop.initial_stock d' = Drop.initial_stock drop
           /\ Drop.stock d' <= Drop.initial_stock d'
           /\ Drop_findByPk id db' = Some d'
           /\ reservations db' = reservations db
           /\ purchases db' = purchases db).
Proof.
  split; [|split].
  - intro Hnone. unfold updateDrop. now rewrite Hnone.
  - intros drop v Hdrop Hv Hne Hbad. unfold updateDrop. rewrite Hdrop.
    assert (Hstock : Drop.stock (apply_updates updates drop) = v).
    { unfold apply_updates, assign. rewrite Hv.
      now destruct (upd_drop_start_time updates). }
    unfold Drop_save.
    destruct (Drop.validate_changed drop (apply_updates updates drop))
      as [|m ms] eqn:Hval; [|eauto].
    destruct (Drop.beforeUpdate (apply_updates updates drop)) eqn:Hhook;
      [|eauto].
    exfalso. unfold Drop.beforeUpdate in Hhook.
    rewrite apply_updates_initial_stock, Hstock in Hhook.
    apply negb_true_iff, Z.ltb_ge in Hhook.
    destruct Hbad as [Hneg|Hbig]; [|lia].
    unfold Drop.validate_changed in Hval. rewrite Hstock in Hval.
    apply app_eq_nil in Hval as [_ Hval].
    apply app_eq_nil in Hval as [_ Hval].
    apply Z.eqb_neq in Hne. rewrite Hne in Hval.
    unfold Drop.validate_stock in Hval. rewrite Hstock in Hval.
    apply Z.leb_gt in Hneg. rewrite Hneg in Hval. discriminate.
  - intros code d' db' log. unfold updateDrop.
    destruct (Drop_findByPk id db) as [drop|] eqn:Hdrop; [|discriminate].
    destruct (Drop_save _ _ db) as [e|db1] eqn:Hsave; [discriminate|].
    destruct (io_emit io _) as [emitted [|]]; [|discriminate].
    intros [= _ <- <- _]. exists drop.
    apply Drop_save_inr in Hsave as (-> & _ & Hhook).
    pose proof (findByPk_some _ _ _ Hdrop) as [_ Hid].
    unfold Drop.beforeUpdate in Hhook.
    apply negb_true_iff, Z.ltb_ge in Hhook.
    repeat split; auto.
    + now rewrite apply_updates_id.
    + apply apply_updates_initial_stock.
    + unfold Drop_findByPk. simpl.
      apply (find_written id _ _ drop); [exact Hdrop|].
      now rewrite apply_updates_id.
Qed.

Lemma updateDrop_outcomes_witness :
  (exists e,
      updateDrop listening 3 (mkUpdates None None (Some 6) None) shop
      = (Next e, shop, []))
  /\ updateDrop listening 9 (mkUpdates None None (Some 6) None) shop
     = (Next (AppError "Drop not found" 404), shop, []).
Proof.
  split.
  - apply (proj1 (proj2 (updateDrop_outcomes listening 3
                           (mkUpdates None None (Some 6) None) shop))
             (Drop.mk 3 "Dunk Low" 12000 4 5 None) 6).
    + reflexivity.
    + reflexivity.
    + simpl. lia.
    + simpl. lia.
  - apply (proj1 (updateDrop_outcomes listening 9
                    (mkUpdates None None (Some 6) None) shop)).
    reflexivity.
Defined.

(** X23: [deleteDrop] takes the reservations and the purchases of the drop
    with it and touches no other row; afterwards the drop cannot be found,
    and a reservation of it is answered 404 for every user. *)
Theorem deleteDrop_cascades io id db drop :
  Drop_findByPk id db = Some drop ->
  let db' := store_of (deleteDrop io id db) in
  Drop_findByPk id db' = None
  /\ (forall k, k <> id -> Drop_findByPk k db' = Drop_findByPk k db)
  /\ (forall r, In r (reservations db')
                <-> In r (reservations db) /\ Reservation.drop_id r <> id)
  /\ (forall p, In p (purchases db')
                <-> In p (purchases db) /\ Purchase.drop_id p <> id)
  /\ (forall env io' now userId,
         reserveItem env io' now userId id db'
         = (Failure 404 "Drop not found", db', [TxBegin; TxRollback])).
Proof.
  intros Hdrop db'.
  pose proof (findByPk_some _ _ _ Hdrop) as [_ Hid].
  assert (Hdb' : db' = Drop_destroy drop db).
  { unfold db', deleteDrop, store_of. rewrite Hdrop.
    now destruct (io_emit io _). }
  assert (Hgone : Drop_findByPk id db' = None).
  { rewrite Hdb'. unfold Drop_findByPk, Drop_destroy. simpl.
    destruct (find _ _) as [x|] eqn:Hf; [|reflexivity].
    apply find_some in Hf as [Hx Hk]. apply filter_In in Hx as [_ Hx].
    apply Z.eqb_eq in Hk. rewrite Hk, Hid, Z.eqb_refl in Hx.
    discriminate. }
  assert (Hres : forall r, In r (reservations db')
                           <-> In r (reservations db)
                               /\ Reservation.drop_id r <> id).
  { intro r. rewrite Hdb'. unfold Drop_destroy. simpl.
    rewrite filter_In, negb_true_iff, Z.eqb_neq, Hid. reflexivity. }
  split; [exact Hgone|]. split; [|split; [exact Hres|split]].
  - intros k Hk. rewrite Hdb'. unfold Drop_findByPk, Drop_destroy. simpl.
    apply find_filter_kept. intros x Hx. apply Z.eqb_eq in Hx.
    apply negb_true_iff, Z.eqb_neq. congruence.
  - intro p. rewrite Hdb'. unfold Drop_destroy. simpl.
    rewrite filter_In, negb_true_iff, Z.eqb_neq, Hid. reflexivity.
  - intros env io' now userId. unfold reserveItem.
    replace (Reservation_findOne (duplicate_of now userId id) db')
      with (@None Reservation.t); [now rewrite Hgone|].
    symmetry. unfold Reservation_findOne.
    destruct (find _ _) as [x|] eqn:Hf; [|reflexivity].
    apply find_some in Hf as [Hx Hdup]. apply Hres in Hx as [_ Hx].
    unfold duplicate_of in Hdup.
    apply andb_true_iff in Hdup as [Hdup _].
    apply andb_true_iff in Hdup as [Hdup _].
    apply andb_true_iff in Hdup as [_ Hdup].
    apply Z.eqb_eq in Hdup. contradiction.
Qed.

Lemma deleteDrop_cascades_witness :
  Drop_findByPk 1 (store_of (deleteDrop listening 1 shop)) = None
  /\ reserveItem None listening 70 7 1 (store_of (deleteDrop listening 1 shop))
     = (Failure 404 "Drop not found",
        store_of (deleteDrop listening 1 shop), [TxBegin; TxRollback]).
Proof.
  assert (H : Drop_findByPk 1 shop
              = Some (Drop.mk 1 "Air Max 90" 19999 0 2 None))
    by reflexivity.
  split.
  - apply (proj1 (deleteDrop_cascades listening 1 shop _ H)).
  - apply (proj2 (proj2 (proj2 (proj2
             (deleteDrop_cascades listening 1 shop _ H))))).
Defined.

(** ** The ceiling *)

(** X24: as long as no drop is created with more stock than its initial
    stock, every stored drop has [0 <= stock <= initial_stock], whatever
    is reserved, cancelled, bought, expired, updated or deleted: the hook
    on updates and the cron job's rollback keep the ceiling that the
    creation alone does not check. *)
Theorem ceiling_kept t db :
  reachable_by creates_within_ceiling t db -> within_ceiling db.
Proof.
  induction 1 as [t | t t' db env io rq Hreach IH Ht Hok].
  - intros d [].
  - apply serve_within_ceiling; [|exact IH].
    intros name price stock initial start ->. exact Hok.
Qed.

Lemma ceiling_kept_witness : 0 <= 4 /\ 4 <= 5.
Proof.
  apply (ceiling_kept 60 shop) with (d := Drop.mk 3 "Dunk Low" 12000 4 5 None).
  - apply (replay_reachable_by creates_within_ceiling opening 0 empty_db);
      [constructor | reflexivity | ].
    repeat (constructor; [simpl; auto; lia|]). constructor.
  - simpl. auto.
Defined.

(** ** What the cron job announces *)

Lemma emit_all_returned accepts es log :
  emit_all accepts es = (log, true) -> log = map Emit es.
Proof.
  revert log. induction es as [|e es IH]; intro log; simpl.
  - now intros [= <-].
  - destruct (accepts e); [|discriminate].
    destruct (emit_all accepts es) as [log1 ok]. intros [= <- ->].
    f_equal. now apply IH.
Qed.

Lemma return_stock_log accepts entries : forall db db2 log,
  NoDup (map fst entries) ->
  return_stock (Some accepts) entries db = (inr db2, log) ->
  log = flat_map (announce db) entries.
Proof.
  induction entries as [|[k n] rest IH]; intros db db2 log Hnd;
    cbn [return_stock flat_map].
  - now intros [= _ <-].
  - inversion Hnd as [|? ? Hk Hrest]; subst.
    unfold announce at 1. cbn [fst snd].
    destruct (Drop_findByPk k db) as [drop|] eqn:Hdrop; [|now apply IH].
    destruct (Drop_save _ _ db) as [e|db1] eqn:Hsave; [discriminate|].
    destruct (io_emit (Some accepts) _) as [emitted [|]] eqn:Hemit;
      [|discriminate].
    destruct (return_stock (Some accepts) rest db1) as [r log1] eqn:Hret.
    intros [= -> <-].
    apply (emit_all_returned accepts) in Hemit. subst emitted.
    cbn [map app Drop.set_stock Drop.id Drop.stock]. do 2 f_equal.
    rewrite (IH _ _ _ Hrest Hret).
    rewrite !flat_map_concat_map. f_equal. apply map_ext_in.
    intros [k' n'] Hin. unfold announce. simpl fst.
    apply Drop_save_inr in Hsave as (-> & _ & _).
    apply findByPk_some in Hdrop as [_ Hid].
    unfold Drop_findByPk. simpl.
    rewrite find_not_written; [reflexivity|].
    simpl. rewrite Hid. intros ->. apply Hk.
    change k with (fst (k, n')). now apply in_map.
Qed.

Lemma dropStockUpdates_sorted now db :
  StronglySorted key_lt (dropStockUpdates_at now db).
Proof.
  unfold dropStockUpdates_at. rewrite mark_expired_spec. simpl snd.
  generalize (Reservation_findAll (due now) db).
  assert (H : StronglySorted key_lt []) by constructor.
  revert H. generalize (@nil (Z * Z)).
  intros o Ho l. revert o Ho.
  induction l as [|r l IH]; intros o Ho; simpl; [assumption|].
  apply IH. now apply bump_sorted.
Qed.

(** X25: what a tick that commits tells the sockets.  For each drop that
    has reservations to expire, in ascending order of the drop ids, and
    for no other drop, it emits one [stockUpdate] with the stock the drop
    ends with and one [reservationExpired] with the number of units given
    back, which is the number of reservations of the drop the tick expired;
    a drop that is no longer stored is passed over. *)
Theorem processExpiredReservations_announces accepts now db db' log :
  processExpiredReservations (Some accepts) now db = (Committed, db', log) ->
  log
  = [TxBegin] ++ flat_map (announce db) (dropStockUpdates_at now db)
    ++ [TxCommit]
  /\ StronglySorted key_lt (dropStockUpdates_at now db)
  /\ (forall k n,
         In (k, n) (dropStockUpdates_at now db) <->
         n = returned now db k /\ 0 < n).
Proof.
  intro Htick. split; [|split].
  - revert Htick. unfold processExpiredReservations, dropStockUpdates_at.
    destruct (Reservation_findAll (due now) db) as [|r0 l0] eqn:Hall.
    + now intros [= _ <-].
    + pose proof (dropStockUpdates_keys now db) as Hnd.
      unfold dropStockUpdates_at in Hnd. rewrite Hall in Hnd.
      destruct (mark_expired (r0 :: l0) db []) as [db1 o] eqn:Hm.
      destruct (return_stock (Some accepts) o db1) as [[e|db2] log1] eqn:Hret;
        [discriminate|].
      intros [= _ <-]. simpl snd in *.
      apply return_stock_log in Hret; [|exact Hnd]. subst log1.
      assert (Hdrops : drops db1 = drops db).
      { pose proof (mark_expired_spec (r0 :: l0) db []) as Hs.
        rewrite Hm in Hs. now injection Hs as -> _. }
      assert (E : flat_map (announce db1) o = flat_map (announce db) o).
      { rewrite !flat_map_concat_map. f_equal. apply map_ext. intro e.
        unfold announce, Drop_findByPk. now rewrite Hdrops. }
      now rewrite E.
  - apply dropStockUpdates_sorted.
  - intros k n. pose proof (dropStockUpdates_keys now db) as Hnd.
    pose proof (dropStockUpdates_positive now db) as Hpos.
    rewrite Forall_forall in Hpos. split.
    + intro Hin. split.
      * rewrite <- tally_returned. symmetry. now apply tally_entry.
      * exact (Hpos (k, n) Hin).
    + intros [-> Hn]. rewrite <- tally_returned in *.
      destruct (in_dec Z.eq_dec k (map fst (dropStockUpdates_at now db)))
        as [Hin|Hout].
      * apply in_map_iff in Hin as ([k' n'] & Hk & Hin). simpl in Hk.
        subst k'. now rewrite (tally_entry k n' _ Hnd Hin).
      * rewrite tally_absent in Hn by assumption. lia.
Qed.

Lemma processExpiredReservations_announces_witness :
  [TxBegin; Emit (stockUpdate 1 2); Emit (reservationExpired 1 2); TxCommit]
  = [TxBegin] ++ flat_map (announce shop) (dropStockUpdates_at 70000 shop)
    ++ [TxCommit].
Proof.
  apply (proj1 (processExpiredReservations_announces (fun _ => true) 70000
                  shop
                  (snd (fst (processExpiredReservations listening 70000
                               shop)))
                  [TxBegin; Emit (stockUpdate 1 2);
                   Emit (reservationExpired 1 2); TxCommit]
                  eq_refl)).
Defined.
